(** * OScodementor: repository ingestion and retrieval pipeline

    A shallow embedding of the core of the repository (the concurrency
    limiter, the retrying content fetcher, the tree builder and flattener,
    the indexing orchestrator, the cache check and the filename ranker),
    with the properties its specification states about them.

    Conventions.  JavaScript numbers that only ever hold integers are [Z];
    strings are [string] (the source only inspects ASCII here); an
    exception is a value of an error type threaded through a small
    state-and-error monad; external services (GitHub, Elasticsearch,
    Postgres) are oracles that decide the outcome of each call. *)

From Stdlib Require Import ZArith Lia Bool Ascii String.
From stdpp Require Import base list gmap strings.

Local Open Scope Z_scope.

(** ** Concurrency limiter ([createLimit] in lib/github.ts) *)

Module Limiter.

(** A task is the closure [task] allocated by one call of [limit]; it is
    identified by the rank of that call. *)
Definition Task := nat.

Inductive Outcome := Fulfilled | Rejected.

(** [activeCount] and [queue] are the two variables captured by the
    closures of [createLimit].  The remaining fields are ghost state: the
    tasks whose [fn()] has been called and whose promise is still pending,
    the order in which tasks were started, the outcome handed to
    [resolve]/[reject] for each settled task, and the number of calls of
    [limit] so far. *)
Record State := mkState {
  activeCount : Z;
  queue : list Task;
  inFlight : list Task;
  admitted : list Task;
  settled : list (Task * Outcome);
  submitted : nat
}.

Definition createLimit : State := mkState 0 [] [] [] [] 0%nat.

(** [next]: start the head of the queue unless the queue is empty or
    [activeCount >= concurrency]. *)
Definition next (concurrency : Z) (s : State) : State :=
  match queue s with
  | [] => s
  | run :: rest =>
      if activeCount s >=? concurrency then s
      else mkState (activeCount s + 1) rest (inFlight s ++ [run])
                   (admitted s ++ [run]) (settled s) (submitted s)
  end.

(** [limit(fn)]: [queue.push(task); next()]. *)
Definition limit (concurrency : Z) (s : State) : State :=
  next concurrency
    (mkState (activeCount s) (queue s ++ [submitted s]) (inFlight s)
             (admitted s) (settled s) (S (submitted s))).

Definition without (t : Task) (l : list Task) : list Task :=
  filter (λ x, x ≠ t) l.

(** The [.finally] callback of a started task: [activeCount--; next()].
    It runs whether the promise of [fn()] fulfilled or rejected ([fn] is an
    async function: it fails by rejecting); only a task in flight can
    settle, and it settles once. *)
Definition settle (concurrency : Z) (t : Task) (o : Outcome) (s : State)
  : option State :=
  if decide (t ∈ inFlight s) then
    Some (next concurrency
            (mkState (activeCount s - 1) (queue s) (without t (inFlight s))
                     (admitted s) (settled s ++ [(t, o)]) (submitted s)))
  else None.

Inductive Event := Submit | Settle (t : Task) (o : Outcome).

Definition step (concurrency : Z) (s : State) (e : Event) : option State :=
  match e with
  | Submit => Some (limit concurrency s)
  | Settle t o => settle concurrency t o s
  end.

Fixpoint run (concurrency : Z) (s : State) (es : list Event) : option State :=
  match es with
  | [] => Some s
  | e :: es' =>
      match step concurrency s e with
      | Some s' => run concurrency s' es'
      | None => None
      end
  end.

Definition is_settle (e : Event) : bool :=
  match e with Submit => false | Settle _ _ => true end.

Definition settlements (es : list Event) : nat :=
  length (List.filter is_settle es).

(** [export const githubConcurrencyLimit = createLimit(5)] *)
Definition githubConcurrency : Z := 5.

Definition reachable (s : State) : Prop :=
  ∃ es, run githubConcurrency createLimit es = Some s.

(** Seven tasks are submitted at once, then task 0 rejects. *)
Definition burst : list Event :=
  [Submit; Submit; Submit; Submit; Submit; Submit; Submit; Settle 0%nat Rejected].

Definition after_burst : State :=
  mkState 5 [6%nat] [1; 2; 3; 4; 5]%nat [0; 1; 2; 3; 4; 5]%nat
          [(0%nat, Rejected)] 7%nat.

(** *** Invariant *)

Record Inv (n : Z) (s : State) : Prop := mkInv {
  inv_count : activeCount s = Z.of_nat (length (inFlight s));
  inv_bound : activeCount s <= n;
  inv_fifo : admitted s ++ queue s = seq 0 (submitted s);
  inv_full : queue s ≠ [] → activeCount s = n;
  inv_nodup : NoDup (inFlight s);
  inv_started : inFlight s ⊆ admitted s
}.

Lemma without_length (t : Task) (l : list Task) :
  NoDup l → t ∈ l → S (length (without t l)) = length l.
Proof.
  unfold without. induction l as [|x l IH]; intros Hnd Hin.
  - inversion Hin.
  - apply NoDup_cons in Hnd as [Hx Hnd].
    rewrite filter_cons. destruct (decide (x ≠ t)) as [Hne|Heq].
    + simpl. f_equal. apply IH; [done|].
      apply elem_of_cons in Hin as [->|]; [done|done].
    + assert (x = t) as -> by (destruct (decide (x = t)); [done|contradiction]).
      simpl. f_equal.
      clear IH Hin Hnd Heq. induction l as [|y l IH]; [done|].
      rewrite filter_cons. destruct (decide (y ≠ t)).
      * simpl. f_equal. apply IH. set_solver.
      * exfalso. assert (y = t) by (destruct (decide (y = t)); [done|contradiction]).
        set_solver.
Qed.

Lemma next_inv n s :
  0 <= n →
  activeCount s = Z.of_nat (length (inFlight s)) →
  activeCount s <= n →
  admitted s ++ queue s = seq 0 (submitted s) →
  NoDup (inFlight s) →
  inFlight s ⊆ admitted s →
  (∀ r rest, queue s = r :: rest → rest ≠ [] → n - 1 <= activeCount s) →
  Inv n (next n s).
Proof.
  intros Hn Hc Hb Hf Hnd Hst Hfull. unfold next.
  destruct (queue s) as [|r rest] eqn:Hq.
  - split; try done. by rewrite Hq.
  - destruct (Z.geb_spec (activeCount s) n) as [Hge|Hlt].
    + split; try done; rewrite ?Hq; try done. intros _. lia.
    + assert (Hnd' : NoDup (admitted s ++ r :: rest)).
      { rewrite Hf. apply NoDup_seq. }
      split; simpl.
      * rewrite length_app. simpl. lia.
      * lia.
      * rewrite <- Hf. by rewrite <- app_assoc.
      * intros Hrest. specialize (Hfull r rest eq_refl Hrest). lia.
      * apply NoDup_app. split; [done|]. split; [|apply NoDup_singleton].
        intros x Hx Hx'. apply list_elem_of_singleton in Hx' as ->.
        apply NoDup_app in Hnd' as (_ & Hdisj & _).
        apply (Hdisj r); [by apply Hst|]. left.
      * intros x Hx. apply elem_of_app in Hx as [Hx|Hx]; apply elem_of_app.
        -- left. by apply Hst.
        -- by right.
Qed.

Lemma createLimit_inv n : 0 <= n → Inv n createLimit.
Proof. intros Hn. split; simpl; try done. apply NoDup_nil_2. Qed.

Lemma limit_inv n s : 0 <= n → Inv n s → Inv n (limit n s).
Proof.
  intros Hn [Hc Hb Hf Hfull Hnd Hst]. unfold limit.
  apply next_inv; cbn [activeCount queue inFlight admitted submitted]; try done.
  - rewrite app_assoc, Hf. by rewrite seq_S.
  - intros r rest Hq Hrest. destruct (queue s) as [|r0 rest0] eqn:Hq0.
    + simpl in Hq. injection Hq as _ <-. done.
    + rewrite Hfull by done. lia.
Qed.

Lemma settle_inv n t o s s' :
  0 <= n → Inv n s → settle n t o s = Some s' → Inv n s'.
Proof.
  intros Hn [Hc Hb Hf Hfull Hnd Hst] Hs. unfold settle in Hs.
  destruct (decide (t ∈ inFlight s)) as [Hin|]; [|done].
  injection Hs as <-.
  pose proof (without_length t (inFlight s) Hnd Hin) as Hlen.
  apply next_inv; simpl; try done.
  - lia.
  - lia.
  - unfold without. by apply NoDup_filter.
  - intros x Hx. apply Hst. unfold without in Hx.
    by apply list_elem_of_filter in Hx as [_ Hx].
  - intros r rest Hq _. rewrite Hfull by (by rewrite Hq). lia.
Qed.

Lemma step_inv n s e s' : 0 <= n → Inv n s → step n s e = Some s' → Inv n s'.
Proof.
  intros Hn HI. destruct e as [|t o]; simpl.
  - intros [= <-]. by apply limit_inv.
  - by apply settle_inv.
Qed.

Lemma run_inv n es : ∀ s s', 0 <= n → Inv n s → run n s es = Some s' → Inv n s'.
Proof.
  induction es as [|e es IH]; intros s s' Hn HI; simpl.
  - by intros [= <-].
  - destruct (step n s e) as [s1|] eqn:He; [|done].
    apply IH; [done|]. by eapply step_inv.
Qed.

Lemma reachable_inv s : reachable s → Inv githubConcurrency s.
Proof.
  intros [es Hes]. eapply run_inv; [|apply createLimit_inv|exact Hes];
    unfold githubConcurrency; lia.
Qed.

(** *** Admission of the head of the queue when a task settles *)

Lemma settle_admits_head n t o s r rest :
  0 < n → Inv n s → t ∈ inFlight s → queue s = r :: rest →
  ∃ s', settle n t o s = Some s' ∧ queue s' = rest ∧ r ∈ inFlight s'
        ∧ admitted s' = admitted s ++ [r] ∧ activeCount s' = activeCount s.
Proof.
  intros Hn [Hc Hb Hf Hfull Hnd Hst] Hin Hq. unfold settle.
  destruct (decide (t ∈ inFlight s)); [|done].
  eexists. split; [done|]. unfold next. simpl. rewrite Hq.
  assert (activeCount s = n) as Hfl by (apply Hfull; by rewrite Hq).
  destruct (Z.geb_spec (activeCount s - 1) n); [lia|]. simpl.
  repeat split; try done; [|lia]. apply elem_of_app. right. left.
Qed.

Lemma settle_frees_slot n t o s :
  Inv n s → t ∈ inFlight s → queue s = [] →
  ∃ s', settle n t o s = Some s' ∧ activeCount s' = activeCount s - 1
        ∧ inFlight s' = without t (inFlight s).
Proof.
  intros HI Hin Hq. unfold settle.
  destruct (decide (t ∈ inFlight s)); [|done].
  eexists. split; [done|]. unfold next. simpl. by rewrite Hq.
Qed.

(** *** Queued tasks move up by one place per settlement *)

Lemma admitted_grows_step n s e s' :
  step n s e = Some s' → ∀ t, t ∈ admitted s → t ∈ admitted s'.
Proof.
  intros He t Ht. destruct e as [|u o]; simpl in He.
  - injection He as <-. unfold limit, next; simpl.
    destruct (queue s ++ [submitted s]); [done|].
    destruct (_ >=? _); simpl; [done|]. apply elem_of_app. by left.
  - unfold settle in He. destruct (decide _); [|done]. injection He as <-.
    unfold next; simpl. destruct (queue s); [done|].
    destruct (_ >=? _); simpl; [done|]. apply elem_of_app. by left.
Qed.

Lemma admitted_grows n es : ∀ s s',
  run n s es = Some s' → ∀ t, t ∈ admitted s → t ∈ admitted s'.
Proof.
  induction es as [|e es IH]; intros s s'; simpl.
  - by intros [= <-].
  - destruct (step n s e) as [s1|] eqn:He; [|done]. intros Hr t Ht.
    eapply IH; [done|]. by eapply admitted_grows_step.
Qed.

Lemma queued_step n s e s' k t :
  0 < n → Inv n s → queue s !! k = Some t → step n s e = Some s' →
  match e with
  | Submit => queue s' !! k = Some t
  | Settle _ _ =>
      match k with
      | O => t ∈ admitted s'
      | S k' => queue s' !! k' = Some t
      end
  end.
Proof.
  intros Hn HI Hk He.
  assert (Hne : queue s ≠ []) by (intros Hq; by rewrite Hq in Hk).
  pose proof (inv_full _ _ HI Hne) as Hfl.
  destruct e as [|u o]; simpl in He.
  - injection He as <-. unfold limit, next; simpl.
    destruct (queue s) as [|r rest] eqn:Hq; [done|]. simpl.
    destruct (Z.geb_spec (activeCount s) n); [|lia]. simpl.
    change (r :: rest ++ [submitted s]) with ((r :: rest) ++ [submitted s]).
    by apply lookup_app_l_Some.
  - destruct (queue s) as [|r rest] eqn:Hq; [done|].
    unfold settle in He. destruct (decide (u ∈ inFlight s)) as [Hu|]; [|done].
    destruct (settle_admits_head n u o s r rest Hn HI Hu Hq)
      as (s1 & Hs1 & Hq1 & _ & Had & _).
    unfold settle in Hs1. destruct (decide (u ∈ inFlight s)); [|done].
    rewrite Hs1 in He. injection He as <-.
    destruct k as [|k']; simpl in Hk.
    + injection Hk as <-. rewrite Had. apply elem_of_app. right. left.
    + by rewrite Hq1.
Qed.

Lemma queued_eventually_admitted n es : ∀ s s' k t,
  0 < n → Inv n s → queue s !! k = Some t → run n s es = Some s' →
  (k < settlements es)%nat → t ∈ admitted s'.
Proof.
  induction es as [|e es IH]; intros s s' k t Hn HI Hk Hr Hlt.
  - unfold settlements in Hlt. simpl in Hlt. lia.
  - simpl in Hr. destruct (step n s e) as [s1|] eqn:He; [|done].
    assert (HI1 : Inv n s1) by (eapply step_inv; [lia|done|done]).
    pose proof (queued_step n s e s1 k t Hn HI Hk He) as Hq.
    destruct e as [|u o].
    + eapply IH; try done.
    + unfold settlements in Hlt. simpl in Hlt. destruct k as [|k'].
      * by eapply admitted_grows.
      * eapply (IH s1 s' k'); try done. unfold settlements. lia.
Qed.

(** C3.  In every state the limiter [githubConcurrencyLimit = createLimit(5)]
    can reach, whatever the number of submitted tasks: at most 5 tasks are
    in flight; tasks are started in the order of their submission (the
    started tasks followed by the queue are the submitted tasks in order);
    the settlement of any task in flight, fulfilled or rejected, frees its
    slot and starts the head of the queue; while a task is queued some task
    is in flight, and the task at place [k] of the queue has been started
    once [k+1] settlements have happened. *)
Theorem limiter_bound_fifo_progress (s : State) (Hs : reachable s) :
  (length (inFlight s) <= 5)%nat
  ∧ activeCount s = Z.of_nat (length (inFlight s))
  ∧ admitted s ++ queue s = seq 0 (submitted s)
  ∧ (∀ t o, t ∈ inFlight s →
       ∃ s', settle githubConcurrency t o s = Some s'
             ∧ match queue s with
               | [] => activeCount s' = activeCount s - 1
               | r :: rest => queue s' = rest ∧ r ∈ inFlight s'
                              ∧ admitted s' = admitted s ++ [r]
               end)
  ∧ (queue s ≠ [] → inFlight s ≠ [])
  ∧ (∀ k t es s', queue s !! k = Some t →
       run githubConcurrency s es = Some s' →
       (k < settlements es)%nat → t ∈ admitted s').
Proof.
  pose proof (reachable_inv s Hs) as HI.
  assert (H5 : 0 < githubConcurrency) by (unfold githubConcurrency; lia).
  pose proof HI as [Hc Hb Hf Hfull Hnd Hst].
  split; [unfold githubConcurrency in Hb; lia|].
  split; [done|]. split; [done|]. split; [|split].
  - intros t o Ht. destruct (queue s) as [|r rest] eqn:Hq.
    + destruct (settle_frees_slot _ t o s HI Ht Hq) as (s' & H1 & H2 & _).
      by exists s'.
    + destruct (settle_admits_head _ t o s r rest H5 HI Ht Hq)
        as (s' & H1 & H2 & H3 & H4 & _).
      by exists s'.
  - intros Hq Hnil. specialize (Hfull Hq). rewrite Hnil in Hc. simpl in Hc.
    unfold githubConcurrency in Hfull. lia.
  - intros k t es s' Hk Hr Hlt. by eapply queued_eventually_admitted.
Qed.

Lemma limiter_bound_fifo_progress_witness :
  reachable after_burst ∧ (length (inFlight after_burst) <= 5)%nat
  ∧ admitted after_burst ++ queue after_burst = seq 0 7.
Proof.
  assert (Hr : reachable after_burst) by (exists burst; vm_compute; reflexivity).
  split; [exact Hr|].
  destruct (limiter_bound_fifo_progress after_burst Hr) as (H1 & _ & H3 & _).
  split; [exact H1 | exact H3].
Defined.


(** *** No task is lost and none is started twice *)

Lemma without_absent (t : Task) (l : list Task) : t ∉ l → without t l = l.
Proof.
  unfold without. induction l as [|x l IH]; intros Hnot; [done|].
  apply not_elem_of_cons in Hnot as [Hne Hnot]. rewrite filter_cons.
  destruct (decide (x ≠ t)) as [_|Heq]; [by rewrite IH|].
  exfalso. apply Heq. congruence.
Qed.

Lemma without_perm (t : Task) (l : list Task) :
  NoDup l → t ∈ l → l ≡ₚ t :: without t l.
Proof.
  unfold without. induction l as [|x l IH]; intros Hnd Hin.
  - by apply elem_of_nil in Hin.
  - apply NoDup_cons in Hnd as [Hx Hnd]. rewrite filter_cons.
    apply elem_of_cons in Hin as [->|Hin].
    + destruct (decide (x ≠ x)) as [Hne|_]; [done|].
      fold (without x l). by rewrite without_absent.
    + destruct (decide (x ≠ t)) as [_|Heq].
      * rewrite (IH Hnd Hin) at 1. apply Permutation_swap.
      * exfalso. apply Hx. apply dec_stable in Heq. by subst.
Qed.

Lemma next_conserves n s :
  admitted s ≡ₚ inFlight s ++ (fst <$> settled s) →
  admitted (next n s) ≡ₚ inFlight (next n s) ++ (fst <$> settled (next n s)).
Proof.
  intros H. unfold next. destruct (queue s) as [|r rest]; [done|].
  destruct (activeCount s >=? n); [done|]. simpl.
  rewrite H, <- !app_assoc. apply Permutation_app_head, Permutation_app_comm.
Qed.

Lemma step_conserves n s e s' :
  NoDup (inFlight s) →
  admitted s ≡ₚ inFlight s ++ (fst <$> settled s) →
  step n s e = Some s' →
  admitted s' ≡ₚ inFlight s' ++ (fst <$> settled s').
Proof.
  intros Hnd H He. destruct e as [|t o]; simpl in He.
  - injection He as <-. unfold limit. by apply next_conserves.
  - unfold settle in He. destruct (decide (t ∈ inFlight s)) as [Hin|]; [|done].
    injection He as <-. apply next_conserves. simpl.
    rewrite H, fmap_app. simpl. rewrite (without_perm t (inFlight s) Hnd Hin) at 1.
    rewrite (Permutation_app_comm (fst <$> settled s) [t]), app_assoc.
    apply Permutation_app_tail. simpl. apply Permutation_cons_append.
Qed.

Lemma run_conserves n es : ∀ s s',
  0 <= n → Inv n s →
  admitted s ≡ₚ inFlight s ++ (fst <$> settled s) →
  run n s es = Some s' →
  admitted s' ≡ₚ inFlight s' ++ (fst <$> settled s').
Proof.
  induction es as [|e es IH]; intros s s' Hn HI H; simpl.
  - by intros [= <-].
  - destruct (step n s e) as [s1|] eqn:He; [|done]. intros Hr.
    apply (IH s1 s' Hn); [by eapply step_inv| |done].
    eapply step_conserves; [|done|done]. by destruct HI.
Qed.

(** X1.  In every state [createLimit(5)] can reach, the tasks that have been
    started are exactly the tasks in flight and the settled ones, each
    once: a submitted task is waiting, running or settled, never lost and
    never started twice.  A task waits only while five tasks are in
    flight. *)
Theorem every_task_is_started_once (s : State) (Hs : reachable s) :
  admitted s ≡ₚ inFlight s ++ (fst <$> settled s)
  ∧ NoDup (admitted s ++ queue s)
  ∧ NoDup (inFlight s ++ (fst <$> settled s))
  ∧ (queue s ≠ [] → length (inFlight s) = 5%nat).
Proof.
  pose proof (reachable_inv s Hs) as HI.
  destruct Hs as [es Hes].
  assert (Hperm : admitted s ≡ₚ inFlight s ++ (fst <$> settled s)).
  { eapply (run_conserves githubConcurrency es createLimit);
      [unfold githubConcurrency; lia| |done|done].
    apply createLimit_inv. unfold githubConcurrency; lia. }
  pose proof HI as [Hc Hb Hf Hfull Hnd Hst].
  assert (Hall : NoDup (admitted s ++ queue s)) by (rewrite Hf; apply NoDup_seq).
  split; [exact Hperm|]. split; [exact Hall|]. split.
  - rewrite <- Hperm. by apply NoDup_app in Hall as [? _].
  - intros Hq. specialize (Hfull Hq). unfold githubConcurrency in Hfull. lia.
Qed.

Lemma every_task_is_started_once_witness :
  reachable after_burst
  ∧ admitted after_burst ≡ₚ inFlight after_burst ++ (fst <$> settled after_burst).
Proof.
  assert (Hr : reachable after_burst) by (exists burst; vm_compute; reflexivity).
  split; [exact Hr|].
  destruct (every_task_is_started_once after_burst Hr) as (H & _).
  exact H.
Defined.

End Limiter.

(** ** Content fetcher ([withRetry], [fetchRawFileContent] in lib/github.ts) *)

Module Fetcher.

(** The value caught by [catch (err)]: only [err?.status] is inspected. *)
Record HostError := mkError { err_status : option Z }.

Inductive Result (A : Type) :=
| Ok (a : A)
| Throw (e : HostError).
Arguments Ok {A} a.
Arguments Throw {A} e.

Inductive Request :=
| ReposGet (owner repo : string)
| GetContent (owner repo path ref : string).

(** What the process does to the outside world, in order. *)
Inductive Event :=
| Called (r : Request)
| Slept (ms : Z).

(** A computation reads the history so far and extends it. *)
Definition M (A : Type) : Type := list Event → Result A * list Event.

(** One request to the host: the host answers as a function of the history. *)
Definition call {A} (req : Request) (answer : list Event → Result A) : M A :=
  λ w, (answer w, w ++ [Called req]).

Definition sleep (ms : Z) (w : list Event) : list Event := w ++ [Slept ms].

Definition has_status (e : HostError) (code : Z) : bool :=
  match err_status e with
  | Some s => s =? code
  | None => false
  end.

(** [opts: { retries?: number; baseMs?: number } = {}] *)
Record RetryOpts := mkOpts { opt_retries : option Z; opt_baseMs : option Z }.

Definition no_opts : RetryOpts := mkOpts None None.

(** The body of [while (true)] in [withRetry]; [attempt] is the value of the
    counter on entry.  The fuel bounds the number of iterations. *)
Fixpoint withRetry_loop {A} (fuel : nat) (fn : M A) (retries baseMs attempt : Z)
    (w : list Event) : option (Result A * list Event) :=
  match fuel with
  | O => None
  | S fuel' =>
      match fn w with
      | (Ok a, w') => Some (Ok a, w')
      | (Throw err, w') =>
          let attempt := attempt + 1 in
          if (attempt >? retries) || has_status err 404 then Some (Throw err, w')
          else
            let delay := baseMs * 2 ^ (attempt - 1) in
            withRetry_loop fuel' fn retries baseMs attempt (sleep delay w')
      end
  end.

Definition withRetry {A} (fn : M A) (opts : RetryOpts)
    (w : list Event) : option (Result A * list Event) :=
  let retries := default 3 (opt_retries opts) in
  let baseMs := default 400 (opt_baseMs opts) in
  withRetry_loop (S (Z.to_nat retries)) fn retries baseMs 0 w.

Record RepoMeta := mkMeta { default_branch : option string }.

(** [response.data] of [repos.getContent]: an array for a directory,
    otherwise one entry. *)
Inductive ContentData :=
| Listing (entries : list string)
| Entry (type : string) (size : option Z) (encoding : option string)
        (content : option string).

Record Host := mkHost {
  repos_get : list Event → string → string → Result RepoMeta;
  get_content : list Event → string → string → string → string → Result ContentData;
  (** [Buffer.from(s, 'base64').toString('utf-8')] *)
  base64_utf8 : string → string
}.

(** [a || b] on strings: the empty string and [undefined] are falsy. *)
Definition or_else (a : option string) (b : string) : string :=
  match a with
  | Some s => if String.eqb s "" then b else s
  | None => b
  end.

Definition size_cap : Z := 256 * 1024.

(** The part of [fetchRawFileContent] after the two requests. *)
Definition materialize (h : Host) (d : ContentData) : Result (option (string * Z)) :=
  match d with
  | Listing _ => Ok None
  | Entry ty sz enc content =>
      if negb (String.eqb ty "file") then Ok None
      else
        let size := match sz with Some n => n | None => 0 end in
        if size >? size_cap then Ok None
        else if match enc with Some e => String.eqb e "base64" | None => false end then
          match content with
          | Some c => Ok (Some (base64_utf8 h c, size))
          | None => Throw (mkError None)
          end
        else Ok (Some (or_else content "", size))
  end.

(** [catch (error) { if (error.status === 403 || error.status === 404) return null; throw error }] *)
Definition on_error (e : HostError) : Result (option (string * Z)) :=
  if has_status e 403 || has_status e 404 then Ok None else Throw e.

Definition fetchRawFileContent (h : Host) (owner repo path : string)
    (ref : option string) (w : list Event)
    : option (Result (option (string * Z)) * list Event) :=
  match withRetry (call (ReposGet owner repo) (λ w, repos_get h w owner repo)) no_opts w with
  | None => None
  | Some (Throw e, w1) => Some (on_error e, w1)
  | Some (Ok repoMeta, w1) =>
      let branch := or_else ref (or_else (default_branch repoMeta) "main") in
      match withRetry (call (GetContent owner repo path branch)
                            (λ w, get_content h w owner repo path branch)) no_opts w1 with
      | None => None
      | Some (Throw e, w2) => Some (on_error e, w2)
      | Some (Ok d, w2) =>
          match materialize h d with
          | Throw e => Some (on_error e, w2)
          | r => Some (r, w2)
          end
      end
  end.

Definition calls (w : list Event) : nat :=
  length (List.filter (λ e, match e with Called _ => true | Slept _ => false end) w).

(** The history added by [n] failed attempts that were each followed by a
    wait, the first wait being [baseMs * 2 ^ a]: attempt, wait, attempt,
    wait twice as long, ... *)
Fixpoint retried (req : Request) (baseMs a : Z) (n : nat) : list Event :=
  match n with
  | O => []
  | S n' => Called req :: Slept (baseMs * 2 ^ a) :: retried req baseMs (a + 1) n'
  end.

(** The claim as the specification words it: within one call of
    [fetchRawFileContent] the host is asked at most three times. *)
Definition spec_three_attempts_in_total (h : Host) (owner repo path : string) : Prop :=
  ∀ r w, fetchRawFileContent h owner repo path None [] = Some (r, w) →
         (calls w <= 3)%nat.

(** A host that is down: every request fails with HTTP 500. *)
Definition host_down : Host :=
  mkHost (λ _ _ _, Throw (mkError (Some 500)))
         (λ _ _ _ _ _, Throw (mkError (Some 500)))
         (λ s, s).

(** A host on which the repository exists and the file does not. *)
Definition host_missing_file : Host :=
  mkHost (λ _ _ _, Ok (mkMeta (Some "main"%string)))
         (λ _ _ _ _ _, Throw (mkError (Some 404)))
         (λ s, s).

(** A host that serves one entry of 300 KiB. *)
Definition host_big_file : Host :=
  mkHost (λ _ _ _, Ok (mkMeta (Some "main"%string)))
         (λ _ _ _ _ _, Ok (Entry "file" (Some (300 * 1024)) (Some "base64"%string)
                              (Some "AAAA"%string)))
         (λ s, s).

Definition rejected (d : ContentData) : Prop :=
  match d with
  | Listing _ => True
  | Entry ty sz _ _ => ty ≠ "file"%string ∨ (∃ n, sz = Some n ∧ 256 * 1024 < n)
  end.

(** The time spent waiting, in milliseconds. *)
Definition waited (w : list Event) : Z :=
  foldr (λ e acc, match e with Slept ms => ms + acc | Called _ => acc end) 0 w.

(** What a caller of [fetchRawFileContent] can rely on: an error that gets
    out has a status other than 403 and 404, and a content that is returned
    has a reported size within the cap. *)
Definition within_contract (r : Result (option (string * Z))) : Prop :=
  match r with
  | Throw e => has_status e 403 = false ∧ has_status e 404 = false
  | Ok (Some (_, size)) => size <= size_cap
  | Ok None => True
  end.

(** A host that answers 403 to everything. *)
Definition host_forbidden : Host :=
  mkHost (λ _ _ _, Throw (mkError (Some 403)))
         (λ _ _ _ _ _, Throw (mkError (Some 403)))
         (λ s, s).


Lemma withRetry_loop_spec {A} (req : Request) (answer : list Event → Result A)
    (retries baseMs : Z) :
  ∀ (fuel : nat) (attempt : Z) (w : list Event),
    0 <= attempt →
    (Z.to_nat (retries - attempt) < fuel)%nat →
    ∃ n : nat,
      Z.of_nat n <= Z.max 0 (retries - attempt)
      ∧ withRetry_loop fuel (call req answer) retries baseMs attempt w
        = Some (answer (w ++ retried req baseMs attempt n),
                w ++ retried req baseMs attempt n ++ [Called req])
      ∧ (∀ k, (k < n)%nat →
           ∃ e, answer (w ++ retried req baseMs attempt k) = Throw e
                ∧ has_status e 404 = false)
      ∧ (Z.of_nat n < retries - attempt →
           ∀ e, answer (w ++ retried req baseMs attempt n) = Throw e →
                has_status e 404 = true).
Proof.
  induction fuel as [|fuel IH]; intros attempt w Ha Hfuel; [lia|].
  cbn [withRetry_loop]. unfold call at 1.
  destruct (answer w) as [a|err] eqn:Hans.
  - exists 0%nat. simpl. rewrite !app_nil_r, Hans.
    repeat split; [lia| |]; [intros k Hk; lia|].
    intros _ e He. discriminate.
  - destruct (Z.gtb_spec (attempt + 1) retries) as [Hgt|Hle]; simpl.
    + exists 0%nat. simpl. rewrite !app_nil_r, Hans.
      repeat split; [lia| |]; [intros k Hk; lia|]. intros Hlt. lia.
    + destruct (has_status err 404) eqn:H404.
      * exists 0%nat. simpl. rewrite !app_nil_r, Hans.
        repeat split; [lia| |]; [intros k Hk; lia|].
        intros _ e [= <-]. done.
      * destruct (IH (attempt + 1) (sleep (baseMs * 2 ^ (attempt + 1 - 1))
                                         (w ++ [Called req])))
          as (n & Hn & Hrun & Hpre & Hlast); [lia|lia|].
        replace (attempt + 1 - 1) with attempt in * by lia.
        assert (Hw : ∀ l, sleep (baseMs * 2 ^ attempt) (w ++ [Called req]) ++ l
                          = w ++ Called req :: Slept (baseMs * 2 ^ attempt) :: l).
        { intros l. unfold sleep. by rewrite <- !app_assoc. }
        exists (S n). cbn [retried]. rewrite <- !app_comm_cons, <- !Hw, Hrun.
        split; [lia|]. split; [reflexivity|]. split.
        -- intros [|k] Hk.
           ++ cbn [retried]. rewrite app_nil_r. by exists err.
           ++ cbn [retried]. rewrite <- Hw. apply Hpre. lia.
        -- intros Hlt e He. apply Hlast; [lia|done].
Qed.

Lemma withRetry_spec {A} (req : Request) (answer : list Event → Result A)
    (w : list Event) :
  ∃ n : nat,
    (n <= 3)%nat
    ∧ withRetry (call req answer) no_opts w
      = Some (answer (w ++ retried req 400 0 n),
              w ++ retried req 400 0 n ++ [Called req])
    ∧ (∀ k, (k < n)%nat →
         ∃ e, answer (w ++ retried req 400 0 k) = Throw e
              ∧ has_status e 404 = false)
    ∧ ((n < 3)%nat →
         ∀ e, answer (w ++ retried req 400 0 n) = Throw e →
              has_status e 404 = true).
Proof.
  unfold withRetry, no_opts. cbn [opt_retries opt_baseMs default].
  destruct (withRetry_loop_spec req answer 3 400 (S (Z.to_nat 3)) 0 w)
    as (n & Hn & Hrun & Hpre & Hlast); [lia|lia|].
  exists n. split; [lia|]. split; [exact Hrun|]. split; [exact Hpre|].
  intros Hlt. apply Hlast. lia.
Qed.

Lemma first_404_not_retried {A} (req : Request) (answer : list Event → Result A)
    (w : list Event) (e : HostError) :
  answer w = Throw e → has_status e 404 = true →
  withRetry (call req answer) no_opts w = Some (Throw e, w ++ [Called req]).
Proof.
  intros Hans H404. unfold withRetry, no_opts.
  cbn [opt_retries opt_baseMs default Z.to_nat Pos.to_nat Pos.iter_op Nat.add withRetry_loop].
  unfold call at 1. rewrite Hans, H404. by rewrite orb_true_r.
Qed.

Lemma first_ok_not_retried {A} (req : Request) (answer : list Event → Result A)
    (w : list Event) (a : A) :
  answer w = Ok a →
  withRetry (call req answer) no_opts w = Some (Ok a, w ++ [Called req]).
Proof.
  intros Hans. unfold withRetry, no_opts.
  cbn [opt_retries opt_baseMs default Z.to_nat Pos.to_nat Pos.iter_op Nat.add withRetry_loop].
  unfold call at 1. by rewrite Hans.
Qed.

Lemma on_error_404 (e : HostError) : has_status e 404 = true → on_error e = Ok None.
Proof. intros H. unfold on_error. rewrite H. by rewrite orb_true_r. Qed.

(** The loops end: [fetchRawFileContent] always returns or throws. *)
Lemma fetchRawFileContent_returns (h : Host) (owner repo path : string)
    (ref : option string) (w : list Event) :
  ∃ r w', fetchRawFileContent h owner repo path ref w = Some (r, w').
Proof.
  unfold fetchRawFileContent.
  destruct (withRetry_spec (ReposGet owner repo) (λ w, repos_get h w owner repo) w)
    as (n1 & _ & -> & _).
  destruct (repos_get h _ owner repo) as [repoMeta|e]; [|by eexists _, _].
  set (branch := or_else ref (or_else (default_branch repoMeta) "main")).
  destruct (withRetry_spec (GetContent owner repo path branch)
              (λ w, get_content h w owner repo path branch)
              (w ++ retried (ReposGet owner repo) 400 0 n1 ++ [Called (ReposGet owner repo)]))
    as (n2 & _ & -> & _).
  destruct (get_content h _ owner repo path branch) as [d|e]; [|by eexists _, _].
  destruct (materialize h d); by eexists _, _.
Qed.

(** The waits of a request that keeps failing: 400, 800 and 1600 ms. *)
Example retried_three (req : Request) :
  retried req 400 0 3
  = [Called req; Slept 400; Called req; Slept 800; Called req; Slept 1600].
Proof. reflexivity. Qed.

(** C4, as stated, fails: when the host keeps answering 500 the first
    request of [fetchRawFileContent] is attempted four times, not three. *)
Lemma three_attempts_in_total_refuted :
  ¬ spec_three_attempts_in_total host_down "octocat" "hello" "README.md".
Proof.
  intros H.
  specialize (H (Throw (mkError (Some 500)))
                (retried (ReposGet "octocat" "hello") 400 0 3
                   ++ [Called (ReposGet "octocat" "hello")])
                eq_refl).
  vm_compute in H. lia.
Qed.

(** C4 (amended).  Each host request of [fetchRawFileContent] goes through
    [withRetry] with the default options: it is attempted again only after
    a failure whose status is not 404, after a wait of [400 * 2^(k-1)] ms
    before the [k]-th retry, with at most 3 retries, that is at most 4
    attempts in total; a failure with status 404 ends the attempts at once.
    When the first answer to a request is a 404, that request is attempted
    exactly once and [fetchRawFileContent] returns [null]. *)
Theorem retry_unless_404_three_retries :
  (∀ (A : Type) (req : Request) (answer : list Event → Result A) (w : list Event),
     ∃ n : nat,
       (n <= 3)%nat
       ∧ withRetry (call req answer) no_opts w
         = Some (answer (w ++ retried req 400 0 n),
                 w ++ retried req 400 0 n ++ [Called req])
       ∧ (∀ k, (k < n)%nat →
            ∃ e, answer (w ++ retried req 400 0 k) = Throw e
                 ∧ has_status e 404 = false)
       ∧ ((n < 3)%nat →
            ∀ e, answer (w ++ retried req 400 0 n) = Throw e →
                 has_status e 404 = true))
  ∧ (∀ h owner repo path ref w e,
       repos_get h w owner repo = Throw e → has_status e 404 = true →
       fetchRawFileContent h owner repo path ref w
       = Some (Ok None, w ++ [Called (ReposGet owner repo)]))
  ∧ (∀ h owner repo path ref w repoMeta e,
       let branch := or_else ref (or_else (default_branch repoMeta) "main") in
       repos_get h w owner repo = Ok repoMeta →
       get_content h (w ++ [Called (ReposGet owner repo)]) owner repo path branch
       = Throw e →
       has_status e 404 = true →
       fetchRawFileContent h owner repo path ref w
       = Some (Ok None, w ++ [Called (ReposGet owner repo)]
                          ++ [Called (GetContent owner repo path branch)])).
Proof.
  split; [|split].
  - intros A req answer w. apply withRetry_spec.
  - intros h owner repo path ref w e Hans H404. unfold fetchRawFileContent.
    rewrite (first_404_not_retried _ _ w e Hans H404).
    by rewrite on_error_404.
  - intros h owner repo path ref w repoMeta e branch Hmeta Hans H404.
    unfold fetchRawFileContent.
    rewrite (first_ok_not_retried _ _ w repoMeta Hmeta).
    fold branch.
    rewrite (first_404_not_retried _ _ (w ++ [Called (ReposGet owner repo)]) e Hans H404).
    by rewrite on_error_404, <- app_assoc.
Qed.

Lemma retry_unless_404_three_retries_witness :
  fetchRawFileContent host_missing_file "octocat" "hello" "nope.ts" None []
  = Some (Ok None, [Called (ReposGet "octocat" "hello");
                    Called (GetContent "octocat" "hello" "nope.ts" "main")]).
Proof.
  destruct retry_unless_404_three_retries as (_ & _ & H).
  apply (H host_missing_file "octocat" "hello" "nope.ts" None []
           (mkMeta (Some "main")) (mkError (Some 404)));
    reflexivity.
Defined.

Lemma materialize_rejected (h : Host) (d : ContentData) :
  rejected d → materialize h d = Ok None.
Proof.
  destruct d as [entries|ty sz enc content]; simpl; [done|].
  intros [Hty|(n & -> & Hn)].
  - destruct (String.eqb_spec ty "file"); [contradiction|done].
  - destruct (negb (ty =? "file")%string); [done|].
    unfold size_cap. destruct (Z.gtb_spec n (256 * 1024)); [done|lia].
Qed.

(** C5.  Whenever the content request of [fetchRawFileContent] is answered
    with a directory listing, with an entry whose type is not ["file"], or
    with an entry whose reported size exceeds 256 KiB (300 KiB for
    instance), the call returns [null]: it does not throw, and no
    [{content, size}] value is built. *)
Theorem directory_non_file_oversize_is_null
    (h : Host) (owner repo path : string) (ref : option string)
    (w w1 w2 : list Event) (repoMeta : RepoMeta) (d : ContentData) :
  let branch := or_else ref (or_else (default_branch repoMeta) "main") in
  withRetry (call (ReposGet owner repo) (λ w, repos_get h w owner repo)) no_opts w
  = Some (Ok repoMeta, w1) →
  withRetry (call (GetContent owner repo path branch)
                  (λ w, get_content h w owner repo path branch)) no_opts w1
  = Some (Ok d, w2) →
  rejected d →
  fetchRawFileContent h owner repo path ref w = Some (Ok None, w2).
Proof.
  intros branch H1 H2 Hrej. unfold fetchRawFileContent.
  rewrite H1. fold branch. rewrite H2.
  by rewrite (materialize_rejected h d Hrej).
Qed.

Lemma directory_non_file_oversize_is_null_witness :
  rejected (Entry "file" (Some (300 * 1024)) (Some "base64"%string) (Some "AAAA"%string))
  ∧ fetchRawFileContent host_big_file "octocat" "hello" "big.bin" None []
    = Some (Ok None, [Called (ReposGet "octocat" "hello");
                      Called (GetContent "octocat" "hello" "big.bin" "main")]).
Proof.
  assert (Hrej : rejected (Entry "file" (Some (300 * 1024)) (Some "base64"%string)
                                 (Some "AAAA"%string))).
  { right. exists (300 * 1024). split; [reflexivity|lia]. }
  split; [exact Hrej|].
  apply (directory_non_file_oversize_is_null host_big_file "octocat" "hello"
           "big.bin" None [] [Called (ReposGet "octocat" "hello")]
           [Called (ReposGet "octocat" "hello");
            Called (GetContent "octocat" "hello" "big.bin" "main")]
           (mkMeta (Some "main"%string))
           (Entry "file" (Some (300 * 1024)) (Some "base64"%string)
                  (Some "AAAA"%string)));
    [reflexivity|reflexivity|exact Hrej].
Defined.


(** *** The cost of one call *)

Lemma calls_app (a b : list Event) : calls (a ++ b) = (calls a + calls b)%nat.
Proof. unfold calls. by rewrite List.filter_app, length_app. Qed.

Lemma waited_app (a b : list Event) : waited (a ++ b) = waited a + waited b.
Proof.
  induction a as [|e a IH]; simpl; [done|]. rewrite IH. destruct e; lia.
Qed.

Lemma retried_cost (req : Request) (n : nat) :
  (n <= 3)%nat →
  (calls (retried req 400 0 n ++ [Called req]) <= 4)%nat
  ∧ waited (retried req 400 0 n ++ [Called req]) <= 2800.
Proof.
  intros Hn. assert (Hcases : n = 0%nat ∨ n = 1%nat ∨ n = 2%nat ∨ n = 3%nat) by lia.
  destruct Hcases as [-> | [-> | [-> | ->]]]; vm_compute; split; (lia || discriminate).
Qed.

Lemma on_error_contract (e : HostError) : within_contract (on_error e).
Proof.
  unfold on_error. destruct (has_status e 403) eqn:H403; simpl; [done|].
  destruct (has_status e 404) eqn:H404; simpl; done.
Qed.

Lemma materialize_contract (h : Host) (d : ContentData) :
  match materialize h d with
  | Throw e => True
  | r => within_contract r
  end.
Proof.
  destruct d as [entries|ty sz enc content]; simpl; [done|].
  destruct (negb (ty =? "file")%string); [done|].
  destruct (Z.gtb_spec (match sz with Some n => n | None => 0 end) size_cap) as [|Hle];
    [done|].
  destruct (match enc with Some e => (e =? "base64")%string | None => false end).
  - destruct content; simpl; [lia|done].
  - simpl. lia.
Qed.

(** X2.  Whatever the host answers, one call of [fetchRawFileContent] ends
    after at most 8 requests to the host and at most 5600 ms of waiting
    between attempts; it returns [null] or a content whose reported size is
    at most 256 KiB, or throws an error whose status is neither 403 nor
    404. *)
Theorem fetch_ends_within_eight_requests
    (h : Host) (owner repo path : string) (ref : option string) (w : list Event) :
  ∃ r added,
    fetchRawFileContent h owner repo path ref w = Some (r, w ++ added)
    ∧ (calls added <= 8)%nat
    ∧ waited added <= 5600
    ∧ within_contract r.
Proof.
  unfold fetchRawFileContent.
  destruct (withRetry_spec (ReposGet owner repo) (λ w, repos_get h w owner repo) w)
    as (n1 & Hn1 & -> & _).
  destruct (retried_cost (ReposGet owner repo) n1 Hn1) as [Hc1 Hw1].
  set (a1 := retried (ReposGet owner repo) 400 0 n1 ++ [Called (ReposGet owner repo)])
    in *.
  destruct (repos_get h _ owner repo) as [repoMeta|e].
  2:{ exists (on_error e), a1. split; [done|]. split; [lia|]. split; [lia|].
      apply on_error_contract. }
  set (branch := or_else ref (or_else (default_branch repoMeta) "main")).
  destruct (withRetry_spec (GetContent owner repo path branch)
              (λ w, get_content h w owner repo path branch) (w ++ a1))
    as (n2 & Hn2 & -> & _).
  destruct (retried_cost (GetContent owner repo path branch) n2 Hn2) as [Hc2 Hw2].
  set (a2 := retried (GetContent owner repo path branch) 400 0 n2
             ++ [Called (GetContent owner repo path branch)]) in *.
  assert (Hcalls : (calls (a1 ++ a2) <= 8)%nat) by (rewrite calls_app; lia).
  assert (Hwait : waited (a1 ++ a2) <= 5600) by (rewrite waited_app; lia).
  destruct (get_content h _ owner repo path branch) as [d|e].
  2:{ exists (on_error e), (a1 ++ a2). rewrite <- app_assoc. split; [done|].
      split; [done|]. split; [done|]. apply on_error_contract. }
  pose proof (materialize_contract h d) as Hm.
  destruct (materialize h d) as [v|e].
  - exists (Ok v), (a1 ++ a2). rewrite <- app_assoc. by repeat split.
  - exists (on_error e), (a1 ++ a2). rewrite <- app_assoc. split; [done|].
    split; [done|]. split; [done|]. apply on_error_contract.
Qed.

(** A host that keeps answering 403 is asked four times, with waits of
    400, 800 and 1600 ms, before [fetchRawFileContent] returns [null]: a 403
    is retried like any failure other than a 404, and then swallowed. *)
Lemma forbidden_is_retried_then_null :
  fetchRawFileContent host_forbidden "octocat" "hello" "README.md" None []
  = Some (Ok None,
          retried (ReposGet "octocat" "hello") 400 0 3
            ++ [Called (ReposGet "octocat" "hello")]).
Proof. reflexivity. Qed.

End Fetcher.

(** ** Indexing status, shared by the datastore records *)

Inductive IndexStatus := Pending | Indexing | Completed | Failed.

Global Instance IndexStatus_eq_dec : EqDecision IndexStatus.
Proof. solve_decision. Defined.

(** ** Cache check (the [check-cache] route) *)

Module CheckCache.

(** The columns of [indexed_repositories] the route reads or writes.
    Instants are JavaScript time values: whole milliseconds since the
    epoch, in the range where number arithmetic is exact. *)
Record Repository := mkRepository {
  id : string;
  indexed_at : Z;
  cache_ttl_hours : option Z;
  index_status : IndexStatus;
  last_accessed_at : Z;
  access_count : Z
}.

(** [repo_url] is the unique key of the table. *)
Abbreviation Db := (gmap string Repository).

Definition getRepositoryByUrl (db : Db) (repoUrl : string) : option Repository :=
  db !! repoUrl.

(** [UPDATE ... SET last_accessed_at = NOW(), access_count = access_count + 1
     WHERE id = $1] *)
Definition updateRepositoryAccess (now : Z) (repoId : string) (db : Db) : Db :=
  (λ r, if String.eqb (id r) repoId
        then mkRepository (id r) (indexed_at r) (cache_ttl_hours r) (index_status r)
                          now (access_count r + 1)
        else r) <$> db.

(** [cachedRepo.cache_ttl_hours || 24] *)
Definition ttlHours (r : Repository) : Z :=
  match cache_ttl_hours r with
  | Some t => if t =? 0 then 24 else t
  | None => 24
  end.

Definition cacheExpiry (r : Repository) : Z :=
  indexed_at r + ttlHours r * 60 * 60 * 1000.

Definition isCacheValid (now : Z) (r : Repository) : bool := now <? cacheExpiry r.

Definition isCompleted (r : Repository) : bool :=
  bool_decide (index_status r = Completed).

Definition isIndexing (r : Repository) : bool :=
  bool_decide (index_status r = Indexing).

Inductive Message := FoundInCache | BeingIndexed | CacheExpired.

Inductive Response :=
| BadRequest
| NotInCache
| CacheStatus (cached indexing completed : bool) (repo : Repository)
              (expiry : Z) (message : Message)
| ServerError.

(** Which datastore calls throw during this request. *)
Record Faults := mkFaults { read_fails : bool; write_fails : bool }.


Definition POST (f : Faults) (now : Z) (repoUrl : option string) (db : Db)
  : Response * Db :=
  match repoUrl with
  | None => (BadRequest, db)
  | Some url =>
      if String.eqb url "" then (BadRequest, db)
      else if read_fails f then (ServerError, db)
      else
        match getRepositoryByUrl db url with
        | None => (NotInCache, db)
        | Some cachedRepo =>
            let valid := isCacheValid now cachedRepo in
            let indexing := isIndexing cachedRepo in
            let completed := isCompleted cachedRepo in
            let hit := valid && completed in
            let respond db' :=
              (CacheStatus hit indexing completed cachedRepo (cacheExpiry cachedRepo)
                 (if hit then FoundInCache
                  else if indexing then BeingIndexed else CacheExpired), db') in
            if hit then
              if write_fails f then (ServerError, db)
              else respond (updateRepositoryAccess now (id cachedRepo) db)
            else respond db
        end
  end.




End CheckCache.

(** ** File trees ([buildFileTree] in lib/github.ts, [flattenFiles] and
    [countFilesRecursively] in the indexing routes) *)

Module FileTree.

Inductive NodeType := FileT | FolderT.

Global Instance NodeType_eq_dec : EqDecision NodeType.
Proof. solve_decision. Defined.

(** An element of [RepoData['files']]: [{ path, type, children }].
    [buildFileTree] gives every node a [children] array. *)
#[warnings="-register-all"]
Inductive Node := mkNode { path : string; type : NodeType; children : list Node }.

Definition is_file (t : NodeType) : bool :=
  match t with FileT => true | FolderT => false end.

Definition sumZ (l : list Z) : Z := foldr Z.add 0 l.

(** [countFilesRecursively]: a file counts for one, any other node for the
    files below it. *)
Fixpoint countFilesNode (f : Node) : Z :=
  match type f with
  | FileT => 1
  | FolderT => sumZ (map countFilesNode (children f))
  end.

Definition countFilesRecursively (files : list Node) : Z :=
  sumZ (map countFilesNode files).

(** [flattenFiles]: a file is pushed, and the children of every node are
    visited, whatever its type. *)
Fixpoint flattenNode (f : Node) : list string :=
  (if is_file (type f) then [path f] else []) ++ concat (map flattenNode (children f)).

Definition flattenFiles (files : list Node) : list string :=
  concat (map flattenNode files).

(** *** The flat listing of the host *)

(** An element of [tree.tree]: [type] is ["blob"], ["tree"] or ["commit"]. *)
Record TreeItem := mkItem { item_path : string; item_type : string }.

(** [item.type === 'tree' ? 'folder' : 'file'] *)
Definition node_type_of (item : TreeItem) : NodeType :=
  if String.eqb (item_type item) "tree" then FolderT else FileT.

(** [s.split('/')] *)
Fixpoint split (s : string) : list string :=
  match s with
  | EmptyString => [EmptyString]
  | String c s' =>
      if Ascii.eqb c "/" then EmptyString :: split s'
      else match split s' with
           | h :: t => String c h :: t
           | [] => [String c EmptyString]
           end
  end.

(** [parts.join('/')] *)
Definition join (parts : list string) : string := String.concat "/" parts.

(** [pathParts.slice(0, -1).join('/')] *)
Definition parentPath (p : string) : string := join (removelast (split p)).

Definition isRoot (p : string) : bool := (length (split p) =? 1)%nat.

(** The objects held by [fileMap].  There is one object per path, so a
    reference to a node is its path; [kids] holds references. *)
Record Entry := mkEntry { kind : NodeType; kids : list string }.

Abbreviation FileMap := (gmap string Entry).

(** First pass: [fileMap.set(item.path, { path, type, children: [] })]. *)
Definition register (m : FileMap) (item : TreeItem) : FileMap :=
  <[item_path item := mkEntry (node_type_of item) []]> m.

(** Second pass: push the node of [item] on the children of its parent, or
    on [rootFiles] when it has one segment or its parent is not listed. *)
Definition attach (st : FileMap * list string) (item : TreeItem)
  : FileMap * list string :=
  let '(m, rootFiles) := st in
  let p := item_path item in
  if isRoot p then (m, rootFiles ++ [p])
  else
    match m !! parentPath p with
    | Some parent =>
        (<[parentPath p := mkEntry (kind parent) (kids parent ++ [p])]> m, rootFiles)
    | None => (m, rootFiles ++ [p])
    end.

Definition build_store (treeItems : list TreeItem) : FileMap * list string :=
  foldl attach (foldl register ∅ treeItems, []) treeItems.

(** Reading the object graph back as a tree, to depth [fuel].  Every
    reference held by [rootFiles] or by a [children] array is a key of
    [fileMap]; the first branch is there for totality. *)
Fixpoint reify (fuel : nat) (m : FileMap) (p : string) : Node :=
  match m !! p with
  | None => mkNode p FileT []
  | Some e =>
      mkNode p (kind e)
        match fuel with
        | O => []
        | S fuel' => map (reify fuel' m) (kids e)
        end
  end.

(** No chain of nodes is longer than the longest path. *)
Definition depth_bound (treeItems : list TreeItem) : nat :=
  S (foldr Nat.max 0%nat (map (λ i, String.length (item_path i)) treeItems)).

Section Sorting.

(** [a.localeCompare(b)]: negative, zero or positive. *)
Variable localeCompare : string → string → Z.

(** The comparator of [sortItems]: folders first, then by path. *)
Definition compareNodes (a b : Node) : Z :=
  match type a, type b with
  | FolderT, FileT => -1
  | FileT, FolderT => 1
  | _, _ => localeCompare (path a) (path b)
  end.

Fixpoint insert_sorted (x : Node) (l : list Node) : list Node :=
  match l with
  | [] => [x]
  | y :: l' => if compareNodes x y <=? 0 then x :: y :: l' else y :: insert_sorted x l'
  end.

(** [items.sort(cmp)], a stable sort. *)
Definition sortItems (items : list Node) : list Node := foldr insert_sorted [] items.

(** [sortRecursively]: the comparator reads only [type] and [path], so
    sorting a level before or after its sub-levels gives the same tree. *)
Fixpoint sortNode (f : Node) : Node :=
  mkNode (path f) (type f) (sortItems (map sortNode (children f))).

Definition sortRecursively (items : list Node) : list Node :=
  sortItems (map sortNode items).

Definition buildFileTree (treeItems : list TreeItem) : list Node :=
  let '(m, rootFiles) := build_store treeItems in
  sortRecursively (map (reify (depth_bound treeItems) m) rootFiles).

End Sorting.

(** Comparison of strings by character code, an instance of [localeCompare]. *)
Definition codeCompare (a b : string) : Z :=
  match String.compare a b with
  | Lt => -1
  | Eq => 0
  | Gt => 1
  end.

(** An entry of the listing that is not a directory: its [type], as the
    host gives it, is not ["tree"]. *)
Definition is_file_item (item : TreeItem) : bool :=
  negb (String.eqb (item_type item) "tree").

(** The paths of the entries of a listing that are not directories. *)
Definition file_paths (treeItems : list TreeItem) : list string :=
  map item_path (List.filter is_file_item treeItems).

(** The paths of the files of a listing: the entries of type ["blob"]. *)
Definition blob_paths (treeItems : list TreeItem) : list string :=
  map item_path (List.filter (λ item, String.eqb (item_type item) "blob") treeItems).

(** A listing of files and directories only, without submodule entries
    (type ["commit"]). *)
Definition blobs_and_trees (treeItems : list TreeItem) : Prop :=
  Forall (λ item, item_type item = "blob"%string ∨ item_type item = "tree"%string)
         treeItems.

(** A listing is well formed when no path occurs twice. *)
Definition well_formed (treeItems : list TreeItem) : Prop :=
  NoDup (map item_path treeItems).

Definition sample_listing : list TreeItem :=
  [mkItem "src" "tree"; mkItem "src/utils.ts" "blob"; mkItem "README.md" "blob";
   mkItem "docs/guide/intro.md" "blob"; mkItem "src/index.ts" "blob"].

(** *** The shape of the tree, read off the listing *)

(** The node under which [attach] puts [q], when the listed paths are
    those for which [known] holds: none if [q] goes to [rootFiles]. *)
Definition parentOf (known : string → bool) (q : string) : option string :=
  if isRoot q then None
  else if known (parentPath q) then Some (parentPath q) else None.

(** The number of listed ancestors between [q] and the root level. *)
Fixpoint depthF (known : string → bool) (fuel : nat) (q : string) : nat :=
  match fuel with
  | O => O
  | S fuel' =>
      match parentOf known q with
      | Some p => S (depthF known fuel' p)
      | None => O
      end
  end.

Definition depth (known : string → bool) (q : string) : nat :=
  depthF known (String.length q) q.

Definition listed (paths : list string) (q : string) : bool := bool_decide (q ∈ paths).

Definition kids_in (paths : list string) (p : string) : list string :=
  filter (λ q, parentOf (listed paths) q = Some p) paths.

Definition roots_in (paths : list string) : list string :=
  filter (λ q, parentOf (listed paths) q = None) paths.

Definition layer (paths : list string) (k : nat) : list string :=
  filter (λ q, depth (listed paths) q = k) paths.

(** The paths met from [p] going down [fuel] levels, parents first. *)
Fixpoint reach (kidsOf : string → list string) (fuel : nat) (p : string) : list string :=
  p :: match fuel with
       | O => []
       | S fuel' => kidsOf p ≫= reach kidsOf fuel'
       end.

(** The nodes of a tree with their types, parents first. *)
Fixpoint nodes_of (f : Node) : list (string * NodeType) :=
  (path f, type f) :: concat (map nodes_of (children f)).

Definition kind_in (m : FileMap) (p : string) : NodeType :=
  match m !! p with
  | Some e => kind e
  | None => FileT
  end.

Definition kids_of (m : FileMap) (p : string) : list string :=
  match m !! p with
  | Some e => kids e
  | None => []
  end.

(** [q] is under one of the nodes of [S]. *)
Definition child_of {A B} (f : A → option B) (S : list B) (q : A) : Prop :=
  match f q with
  | Some p => p ∈ S
  | None => False
  end.

Global Instance child_of_dec {A B} `{EqDecision B} (f : A → option B) (S : list B) (q : A) :
  Decision (child_of f S q).
Proof. unfold child_of. destruct (f q); apply _. Defined.


(** *** The order of the nodes of a level *)

(** The arrays of siblings of a tree: the children of [f], then those of
    its descendants. *)
Fixpoint levels (f : Node) : list (list Node) :=
  children f :: concat (map levels (children f)).

(** [files] itself, then every [children] array below it. *)
Definition levels_of (files : list Node) : list (list Node) :=
  files :: concat (map levels files).

(** No file comes before a folder. *)
Fixpoint folders_first (l : list Node) : bool :=
  match l with
  | [] => true
  | x :: rest =>
      (if is_file (type x) then forallb (λ y, is_file (type y)) rest else true)
      && folders_first rest
  end.

(** Each node is at or before its successor in the order of [cmp]. *)
Fixpoint sorted_by (cmp : Node → Node → Z) (l : list Node) : bool :=
  match l with
  | x :: (y :: _) as rest => (cmp x y <=? 0) && sorted_by cmp rest
  | _ => true
  end.

(** An order on paths as [localeCompare] gives: of two paths one is at or
    before the other. *)
Definition total_comparator (localeCompare : string → string → Z) : Prop :=
  ∀ a b, 0 < localeCompare a b → localeCompare b a <= 0.


(** *** Induction on trees *)

Lemma Node_forall_ind (P : Node → Prop) :
  (∀ p t ch, Forall P ch → P (mkNode p t ch)) → ∀ f, P f.
Proof.
  intros H. fix IH 1. intros [p t ch]. apply H.
  induction ch as [|c ch IHch]; constructor; [apply IH | exact IHch].
Qed.

(** *** Paths and their parents *)

Lemma length_append (a b : string) :
  String.length (a +:+ b) = (String.length a + String.length b)%nat.
Proof. induction a as [|c a IH]; simpl; [done|]. by rewrite IH. Qed.

Lemma split_not_nil (s : string) : split s ≠ [].
Proof.
  induction s as [|c s IH]; simpl; [done|].
  destruct (Ascii.eqb c "/"); [done|]. by destruct (split s).
Qed.

Lemma join_cons (x y : string) (l : list string) :
  join (x :: y :: l) = x +:+ "/" +:+ join (y :: l).
Proof. reflexivity. Qed.

Lemma join_removelast_shorter (l : list string) :
  (2 <= length l)%nat →
  (String.length (join (removelast l)) < String.length (join l))%nat.
Proof.
  induction l as [|x l IH]; simpl length; [lia|].
  destruct l as [|y l]; simpl length; [lia|]. intros _.
  destruct l as [|z l].
  - simpl. unfold join. simpl. rewrite !length_append. simpl. lia.
  - change (removelast (x :: y :: z :: l)) with (x :: removelast (y :: z :: l)).
    assert (Hlen : (2 <= length (y :: z :: l))%nat) by (simpl; lia).
    specialize (IH Hlen).
    destruct (removelast (y :: z :: l)) as [|w r] eqn:Hr.
    + simpl in Hr. destruct l; discriminate.
    + rewrite !join_cons. rewrite join_cons in IH.
      rewrite !length_append. rewrite !length_append in IH. simpl in *. lia.
Qed.

Lemma join_split (s : string) : join (split s) = s.
Proof.
  induction s as [|c s IH]; [done|]. simpl.
  pose proof (split_not_nil s) as Hne.
  destruct (split s) as [|h t]; [done|].
  destruct (Ascii.eqb_spec c "/") as [->|_].
  - rewrite join_cons, IH. done.
  - rewrite <- IH. by destruct t.
Qed.

Lemma parent_shorter (p : string) :
  isRoot p = false → (String.length (parentPath p) < String.length p)%nat.
Proof.
  unfold isRoot, parentPath. intros Hroot.
  rewrite <- (join_split p) at 2. apply join_removelast_shorter.
  pose proof (split_not_nil p). apply Nat.eqb_neq in Hroot.
  destruct (split p); [done|]. simpl in *. lia.
Qed.

Lemma parentOf_shorter (known : string → bool) (q p : string) :
  parentOf known q = Some p → (String.length p < String.length q)%nat.
Proof.
  unfold parentOf. destruct (isRoot q) eqn:Hroot; [done|].
  destruct (known (parentPath q)); [|done]. intros [= <-]. by apply parent_shorter.
Qed.

Lemma depthF_enough (known : string → bool) :
  ∀ n m q, (String.length q <= n)%nat → (String.length q <= m)%nat →
           depthF known n q = depthF known m q.
Proof.
  induction n as [|n IH]; intros m q Hn Hm.
  - destruct q; [|simpl in Hn; lia]. destruct m; [done|]. simpl.
    destruct (parentOf known "") as [p|] eqn:Hp; [|done].
    apply parentOf_shorter in Hp. simpl in Hp. lia.
  - destruct m as [|m].
    + destruct q; [|simpl in Hm; lia]. simpl.
      destruct (parentOf known "") as [p|] eqn:Hp; [|done].
      apply parentOf_shorter in Hp. simpl in Hp. lia.
    + simpl. destruct (parentOf known q) as [p|] eqn:Hp; [|done].
      apply parentOf_shorter in Hp. f_equal. apply IH; lia.
Qed.

Lemma depth_root (known : string → bool) (q : string) :
  parentOf known q = None ↔ depth known q = O.
Proof.
  unfold depth. split.
  - intros Hp. destruct (String.length q); simpl; [done|]. by rewrite Hp.
  - destruct (parentOf known q) as [p|] eqn:Hp; [|done].
    pose proof (parentOf_shorter _ _ _ Hp) as Hlt.
    destruct (String.length q); [lia|]. simpl. by rewrite Hp.
Qed.

Lemma depth_child (known : string → bool) (q p : string) :
  parentOf known q = Some p → depth known q = S (depth known p).
Proof.
  intros Hp. unfold depth. pose proof (parentOf_shorter _ _ _ Hp) as Hlt.
  destruct (String.length q) as [|n] eqn:Hq; [lia|]. simpl. rewrite Hp.
  f_equal. apply depthF_enough; lia.
Qed.

Lemma depthF_le (known : string → bool) (n : nat) (q : string) :
  (depthF known n q <= n)%nat.
Proof.
  revert q. induction n as [|n IH]; intros q; simpl; [done|].
  destruct (parentOf known q); [|lia]. specialize (IH s). lia.
Qed.

Lemma depth_le_length (known : string → bool) (q : string) :
  (depth known q <= String.length q)%nat.
Proof. apply depthF_le. Qed.

(** *** Filters that split a list *)

Lemma filter_none {A} (P : A → Prop) `{∀ x, Decision (P x)} (l : list A) :
  (∀ x, x ∈ l → ¬ P x) → filter P l = [].
Proof.
  induction l as [|x l IH]; intros Hl; [done|].
  rewrite filter_cons. destruct (decide (P x)) as [HP|_].
  - exfalso. apply (Hl x); [left|done].
  - apply IH. intros y Hy. apply Hl. by right.
Qed.

Lemma filter_all {A} (P : A → Prop) `{∀ x, Decision (P x)} (l : list A) :
  (∀ x, x ∈ l → P x) → filter P l = l.
Proof.
  induction l as [|x l IH]; intros Hl; [done|].
  rewrite filter_cons. destruct (decide (P x)) as [_|HP].
  - f_equal. apply IH. intros y Hy. apply Hl. by right.
  - exfalso. apply HP, Hl. left.
Qed.

Lemma filter_split {A} (P1 P2 P3 : A → Prop)
    `{∀ x, Decision (P1 x)} `{∀ x, Decision (P2 x)} `{∀ x, Decision (P3 x)}
    (l : list A) :
  (∀ x, x ∈ l → (P3 x ↔ P1 x ∨ P2 x)) → (∀ x, x ∈ l → P1 x → P2 x → False) →
  filter P1 l ++ filter P2 l ≡ₚ filter P3 l.
Proof.
  induction l as [|x l IH]; intros H3 Hdis; [done|].
  assert (IH' : filter P1 l ++ filter P2 l ≡ₚ filter P3 l).
  { apply IH; intros y Hy; [apply H3|apply Hdis]; by right. }
  specialize (H3 x ltac:(left)). specialize (Hdis x ltac:(left)).
  rewrite !filter_cons.
  destruct (decide (P1 x)), (decide (P2 x)), (decide (P3 x)); try tauto.
  - simpl. by rewrite IH'.
  - rewrite <- Permutation_middle. by rewrite IH'.
Qed.

Lemma bind_filter_partition {A B} `{EqDecision B} (f : A → option B)
    (S : list B) (l : list A) :
  NoDup S →
  S ≫= (λ p, filter (λ q, f q = Some p) l) ≡ₚ filter (child_of f S) l.
Proof.
  induction S as [|p S IH]; intros Hnd.
  - simpl. symmetry. rewrite filter_none; [done|].
    intros x _. unfold child_of. destruct (f x); [|tauto]. apply not_elem_of_nil.
  - apply NoDup_cons in Hnd as [Hp Hnd]. rewrite bind_cons, (IH Hnd).
    apply filter_split.
    + intros x _. unfold child_of. destruct (f x) as [b|].
      * rewrite elem_of_cons. split.
        -- intros [->|Hb]; [by left|by right].
        -- intros [[= ->]|Hb]; [by left|by right].
      * split; [tauto|]. by intros [|].
    + intros x _ Hx. unfold child_of. rewrite Hx. done.
Qed.

(** *** Levels of the tree *)

Section Levels.

Variable paths : list string.
Hypothesis paths_nodup : NoDup paths.

Lemma parentOf_listed (q p : string) :
  parentOf (listed paths) q = Some p → p ∈ paths.
Proof.
  unfold parentOf. destruct (isRoot q); [done|].
  destruct (listed paths (parentPath q)) eqn:Hk; [|done].
  intros [= <-]. by apply bool_decide_eq_true in Hk.
Qed.

Lemma roots_layer0 : roots_in paths = layer paths 0.
Proof.
  unfold roots_in, layer. apply list_filter_iff. intros q. apply depth_root.
Qed.

Lemma layer_step (k : nat) : layer paths k ≫= kids_in paths ≡ₚ layer paths (S k).
Proof.
  transitivity (layer paths k
                  ≫= (λ p, filter (λ q, parentOf (listed paths) q = Some p) paths));
    [done|].
  rewrite bind_filter_partition by (by apply NoDup_filter).
  assert (Heq : filter (child_of (parentOf (listed paths)) (layer paths k)) paths
                = layer paths (S k)); [|by rewrite Heq].
  apply list_filter_iff.
  intros q. unfold child_of, layer. split.
  - destruct (parentOf (listed paths) q) as [p|] eqn:Hp; [|done].
    intros [Hd _]%list_elem_of_filter. by rewrite (depth_child _ _ _ Hp), Hd.
  - intros Hd. destruct (parentOf (listed paths) q) as [p|] eqn:Hp.
    + apply list_elem_of_filter. split; [|by eapply parentOf_listed].
      rewrite (depth_child _ _ _ Hp) in Hd. lia.
    + apply depth_root in Hp. lia.
Qed.

Lemma bind_reach_step (kidsOf : string → list string) (n : nat) (S : list string) :
  S ≫= reach kidsOf (Datatypes.S n) ≡ₚ S ++ ((S ≫= kidsOf) ≫= reach kidsOf n).
Proof.
  induction S as [|x S IH]; [done|].
  rewrite !bind_cons, bind_app, IH. cbn [reach]. simpl.
  constructor. rewrite !app_assoc. apply Permutation_app_tail, Permutation_app_comm.
Qed.

Lemma reach_layers (n : nat) :
  ∀ k, layer paths k ≫= reach (kids_in paths) n ≡ₚ seq k (S n) ≫= layer paths.
Proof.
  induction n as [|n IH]; intros k.
  - simpl. rewrite app_nil_r. induction (layer paths k) as [|x l IHl]; [done|].
    rewrite bind_cons. simpl. by rewrite IHl.
  - rewrite bind_reach_step, layer_step, (IH (S k)).
    change (seq k (S (S n))) with (k :: seq (S k) (S n)). by rewrite bind_cons.
Qed.

Lemma layers_below (n : nat) :
  seq 0 n ≫= layer paths ≡ₚ filter (λ q, (depth (listed paths) q < n)%nat) paths.
Proof.
  induction n as [|n IH].
  - simpl. rewrite filter_none; [done|]. intros q _. lia.
  - rewrite seq_S, bind_app, IH. simpl. rewrite app_nil_r.
    apply filter_split; intros q _; lia.
Qed.

Lemma reach_all (fuel : nat) :
  (∀ q, q ∈ paths → (String.length q <= fuel)%nat) →
  roots_in paths ≫= reach (kids_in paths) fuel ≡ₚ paths.
Proof.
  intros Hlen. rewrite roots_layer0, reach_layers, layers_below.
  rewrite filter_all; [done|]. intros q Hq.
  pose proof (depth_le_length (listed paths) q). specialize (Hlen q Hq). lia.
Qed.

End Levels.

(** *** The two passes of [buildFileTree] *)

Lemma register_other (items : list TreeItem) :
  ∀ (m : FileMap) (p : string),
    p ∉ map item_path items → foldl register m items !! p = m !! p.
Proof.
  induction items as [|it items IH]; intros m p Hp; [done|].
  simpl in *. apply not_elem_of_cons in Hp as [Hne Hp].
  rewrite (IH _ _ Hp). unfold register. by rewrite lookup_insert_ne.
Qed.

Lemma register_lookup (items : list TreeItem) :
  ∀ (m : FileMap) (it : TreeItem),
    NoDup (map item_path items) → it ∈ items →
    foldl register m items !! item_path it = Some (mkEntry (node_type_of it) []).
Proof.
  induction items as [|x items IH]; intros m it Hnd Hit; [by apply elem_of_nil in Hit|].
  simpl in *. apply NoDup_cons in Hnd as [Hx Hnd].
  apply elem_of_cons in Hit as [->|Hit].
  - rewrite (register_other _ _ _ Hx). unfold register. by rewrite lookup_insert_eq.
  - by apply IH.
Qed.

Lemma registered_iff_listed (items : list TreeItem) (p : string) :
  is_Some (foldl register ∅ items !! p) ↔ listed (map item_path items) p = true.
Proof.
  unfold listed. rewrite bool_decide_eq_true. split.
  - intros Hsome. destruct (decide (p ∈ map item_path items)) as [|Hp]; [done|].
    rewrite (register_other _ _ _ Hp), lookup_empty in Hsome. by destruct Hsome.
  - intros Hp. clear -Hp. revert Hp. generalize (∅ : FileMap).
    induction items as [|x items IH]; intros m Hp; [by apply elem_of_nil in Hp|].
    simpl in *. destruct (decide (p ∈ map item_path items)) as [Hin|Hout].
    + by apply IH.
    + apply elem_of_cons in Hp as [->|]; [|done].
      rewrite (register_other _ _ _ Hout). unfold register.
      rewrite lookup_insert_eq. by eexists.
Qed.

Lemma attach_fold (known : string → bool) (items : list TreeItem) :
  ∀ (m : FileMap) (roots : list string),
    (∀ p, is_Some (m !! p) ↔ known p = true) →
    ∃ m',
      foldl attach (m, roots) items
      = (m', roots ++ filter (λ q, parentOf known q = None) (map item_path items))
      ∧ ∀ p, m' !! p
             = (λ e, mkEntry (kind e)
                       (kids e ++ filter (λ q, parentOf known q = Some p)
                                         (map item_path items))) <$> m !! p.
Proof.
  induction items as [|it items IH]; intros m roots Hdom.
  - exists m. simpl. rewrite app_nil_r. split; [done|]. intros p.
    destruct (m !! p) as [[k ks]|]; simpl; [|done]. by rewrite app_nil_r.
  - cbn [foldl map]. unfold attach at 2.
    assert (Hroot : parentOf known (item_path it) = None →
      ∃ m', foldl attach (m, roots ++ [item_path it]) items
            = (m', roots ++ filter (λ q, parentOf known q = None)
                                   (item_path it :: map item_path items))
            ∧ ∀ p, m' !! p
                   = (λ e, mkEntry (kind e)
                             (kids e ++ filter (λ q, parentOf known q = Some p)
                                               (item_path it :: map item_path items)))
                     <$> m !! p).
    { intros Hnone. destruct (IH m (roots ++ [item_path it]) Hdom) as (m' & Hm' & Hk).
      exists m'. rewrite Hm'. rewrite filter_cons.
      destruct (decide (parentOf known (item_path it) = None)); [|done].
      split; [by rewrite <- app_assoc|]. intros p. rewrite Hk, filter_cons.
      destruct (decide (parentOf known (item_path it) = Some p)); [congruence|done]. }
    destruct (isRoot (item_path it)) eqn:Hr.
    { apply Hroot. unfold parentOf. by rewrite Hr. }
    destruct (m !! parentPath (item_path it)) as [parent|] eqn:Hpar.
    + assert (Hk : known (parentPath (item_path it)) = true).
      { apply Hdom. by eexists. }
      assert (Hsome : parentOf known (item_path it) = Some (parentPath (item_path it))).
      { unfold parentOf. by rewrite Hr, Hk. }
      set (pp := parentPath (item_path it)) in *.
      destruct (IH (<[pp := mkEntry (kind parent) (kids parent ++ [item_path it])]> m)
                  roots) as (m' & Hm' & Hkids).
      { intros p. destruct (decide (pp = p)) as [<-|Hne].
        - rewrite lookup_insert_eq. split; [done|]. by eexists.
        - rewrite lookup_insert_ne by done. apply Hdom. }
      exists m'. rewrite Hm', filter_cons.
      destruct (decide (parentOf known (item_path it) = None)); [congruence|].
      split; [done|]. intros p. rewrite Hkids, filter_cons.
      destruct (decide (pp = p)) as [<-|Hne].
      * rewrite lookup_insert_eq, Hpar. simpl.
        destruct (decide (parentOf known (item_path it) = Some pp)); [|done].
        by rewrite <- app_assoc.
      * rewrite lookup_insert_ne by done.
        destruct (decide (parentOf known (item_path it) = Some p)); [congruence|done].
    + apply Hroot. unfold parentOf. rewrite Hr.
      destruct (known (parentPath (item_path it))) eqn:Hk; [|done].
      apply Hdom in Hk. rewrite Hpar in Hk. by destruct Hk.
Qed.

Lemma build_store_spec (treeItems : list TreeItem) :
  well_formed treeItems →
  let paths := map item_path treeItems in
  ∃ m, build_store treeItems = (m, roots_in paths)
       ∧ (∀ it, it ∈ treeItems →
            m !! item_path it
            = Some (mkEntry (node_type_of it) (kids_in paths (item_path it))))
       ∧ (∀ p, p ∉ paths → m !! p = None).
Proof.
  intros Hwf paths. unfold build_store.
  destruct (attach_fold (listed paths) treeItems (foldl register ∅ treeItems) [])
    as (m & Hm & Hk); [apply registered_iff_listed|].
  exists m. split; [exact Hm|]. split.
  - intros it Hit. rewrite Hk, (register_lookup _ _ _ Hwf Hit). done.
  - intros p Hp. rewrite Hk, (register_other _ _ _ Hp), lookup_empty. done.
Qed.

(** *** Reading the tree back *)

Lemma concat_map_bind {A B} (f : A → list B) (l : list A) : concat (map f l) = l ≫= f.
Proof. induction l as [|x l IH]; [done|]. by rewrite bind_cons, <- IH. Qed.

Lemma fmap_bind_comm {A B C} (g : B → C) (f : A → list B) (l : list A) :
  g <$> (l ≫= f) = l ≫= (λ x, g <$> f x).
Proof.
  induction l as [|x l IH]; [done|]. by rewrite !bind_cons, fmap_app, IH.
Qed.

Lemma bind_perm_pointwise {A B} (f g : A → list B) (l : list A) :
  Forall (λ x, f x ≡ₚ g x) l → l ≫= f ≡ₚ l ≫= g.
Proof.
  induction 1 as [|x l Hx _ IH]; [done|]. by rewrite !bind_cons, Hx, IH.
Qed.

Lemma reach_ext (k k' : string → list string) :
  (∀ p, k p = k' p) → ∀ fuel p, reach k fuel p = reach k' fuel p.
Proof.
  intros Hk. induction fuel as [|fuel IH]; intros p; [done|].
  simpl. rewrite Hk. f_equal. apply list_bind_ext; [exact IH|done].
Qed.

Lemma nodes_of_reify (m : FileMap) :
  ∀ fuel p,
    nodes_of (reify fuel m p) = (λ q, (q, kind_in m q)) <$> reach (kids_of m) fuel p.
Proof.
  induction fuel as [|fuel IH]; intros p.
  - simpl. unfold kind_in. by destruct (m !! p).
  - cbn [reify reach]. rewrite fmap_cons.
    assert (Hkind : kind_in m p = match m !! p with Some e => kind e | None => FileT end)
      by done.
    assert (Hkids : kids_of m p = match m !! p with Some e => kids e | None => [] end)
      by done.
    rewrite Hkind, Hkids.
    destruct (m !! p) as [e|]; cbn [nodes_of path type children]; [|done].
    f_equal. rewrite concat_map_bind, fmap_bind_comm.
    change (map (reify fuel m) (kids e)) with (reify fuel m <$> kids e).
    rewrite list_fmap_bind. apply list_bind_ext; [|done]. intros q. apply IH.
Qed.

Lemma flattenNode_nodes (f : Node) :
  flattenNode f = fst <$> filter (λ x, is_file (snd x)) (nodes_of f).
Proof.
  induction f as [p t ch IH] using Node_forall_ind.
  cbn [flattenNode nodes_of path type children]. rewrite filter_cons. simpl.
  assert (Hch : concat (map flattenNode ch)
                = fst <$> filter (λ x, is_file (snd x)) (concat (map nodes_of ch))).
  { induction IH as [|c ch Hc _ IHch]; [done|].
    simpl. by rewrite filter_app, fmap_app, Hc, IHch. }
  rewrite Hch. by destruct t.
Qed.

Lemma flattenFiles_nodes (files : list Node) :
  flattenFiles files = fst <$> filter (λ x, is_file (snd x)) (files ≫= nodes_of).
Proof.
  unfold flattenFiles. induction files as [|f files IH]; [done|].
  cbn [map concat]. by rewrite bind_cons, filter_app, fmap_app, flattenNode_nodes, IH.
Qed.

(** *** Sorting only reorders *)

Section SortingPermutes.

Variable localeCompare : string → string → Z.

Lemma insert_sorted_perm (x : Node) (l : list Node) :
  insert_sorted localeCompare x l ≡ₚ x :: l.
Proof.
  induction l as [|y l IH]; [done|]. simpl.
  destruct (compareNodes localeCompare x y <=? 0); [done|].
  by rewrite IH, Permutation_swap.
Qed.

Lemma sortItems_perm (l : list Node) : sortItems localeCompare l ≡ₚ l.
Proof.
  unfold sortItems. induction l as [|x l IH]; [done|].
  simpl. by rewrite insert_sorted_perm, IH.
Qed.

Lemma nodes_of_sortNode (f : Node) :
  nodes_of (sortNode localeCompare f) ≡ₚ nodes_of f.
Proof.
  induction f as [p t ch IH] using Node_forall_ind.
  cbn [sortNode nodes_of path type children]. constructor.
  rewrite !concat_map_bind, sortItems_perm.
  change (map (sortNode localeCompare) ch) with (sortNode localeCompare <$> ch).
  rewrite list_fmap_bind. by apply bind_perm_pointwise.
Qed.

Lemma nodes_of_sortRecursively (l : list Node) :
  sortRecursively localeCompare l ≫= nodes_of ≡ₚ l ≫= nodes_of.
Proof.
  unfold sortRecursively. rewrite sortItems_perm.
  change (map (sortNode localeCompare) l) with (sortNode localeCompare <$> l).
  rewrite list_fmap_bind. apply bind_perm_pointwise.
  apply Forall_forall. intros f _. apply nodes_of_sortNode.
Qed.

Lemma paths_of_sortRecursively (l : list Node) :
  path <$> sortRecursively localeCompare l ≡ₚ path <$> l.
Proof.
  unfold sortRecursively. rewrite sortItems_perm.
  change (map (sortNode localeCompare) l) with (sortNode localeCompare <$> l).
  rewrite <- list_fmap_compose.
  assert (Heq : path ∘ sortNode localeCompare <$> l = path <$> l); [|by rewrite Heq].
  apply list_fmap_ext. by intros _ [p t ch] _.
Qed.

End SortingPermutes.

(** *** Flattening the rebuilt tree *)

Lemma depth_bound_enough (treeItems : list TreeItem) (q : string) :
  q ∈ map item_path treeItems → (String.length q <= depth_bound treeItems)%nat.
Proof.
  unfold depth_bound. induction treeItems as [|it items IH]; simpl.
  - intros H. by apply elem_of_nil in H.
  - intros [->|H]%elem_of_cons; [lia|]. specialize (IH H). lia.
Qed.

(** The node made for an entry is a file exactly when the type of the
    entry is not ["tree"]. *)
Lemma node_type_of_file (it : TreeItem) :
  is_file (node_type_of it) = is_file_item it.
Proof.
  unfold node_type_of, is_file_item. by destruct (String.eqb (item_type it) "tree").
Qed.

Lemma tagged_file_paths (m : FileMap) (l : list TreeItem) :
  Forall (λ it, kind_in m (item_path it) = node_type_of it) l →
  fst <$> filter (λ x, is_file (snd x))
            ((λ q, (q, kind_in m q)) <$> map item_path l)
  = file_paths l.
Proof.
  unfold file_paths. induction 1 as [|it l Hit _ IH]; [done|].
  cbn [map fmap list_fmap List.filter]. rewrite filter_cons. cbn [snd].
  rewrite Hit, node_type_of_file.
  destruct (is_file_item it); simpl.
  - f_equal. exact IH.
  - exact IH.
Qed.

Lemma flat_file_paths (l : list TreeItem) :
  Forall (λ item, item_type item ≠ "tree"%string) l → file_paths l = map item_path l.
Proof.
  unfold file_paths, is_file_item. induction 1 as [|it l Hit _ IH]; [done|].
  cbn [List.filter]. destruct (String.eqb_spec (item_type it) "tree"); [done|].
  simpl. by rewrite IH.
Qed.

Lemma blob_paths_file_paths (l : list TreeItem) :
  blobs_and_trees l → blob_paths l = file_paths l.
Proof.
  unfold blob_paths, file_paths, is_file_item.
  induction 1 as [|it l Hit _ IH]; [done|].
  cbn [List.filter]. destruct Hit as [-> | ->]; simpl; by rewrite IH.
Qed.

Lemma rebuilt_nodes (localeCompare : string → string → Z) (treeItems : list TreeItem) :
  well_formed treeItems →
  ∃ m,
    (∀ it, it ∈ treeItems → kind_in m (item_path it) = node_type_of it)
    ∧ path <$> buildFileTree localeCompare treeItems
      ≡ₚ roots_in (map item_path treeItems)
    ∧ buildFileTree localeCompare treeItems ≫= nodes_of
      ≡ₚ (λ q, (q, kind_in m q)) <$> map item_path treeItems.
Proof.
  intros Hwf. destruct (build_store_spec treeItems Hwf) as (m & Hm & Hit & Hout).
  set (paths := map item_path treeItems) in *.
  exists m. split; [|split].
  - intros it Hin. unfold kind_in. by rewrite (Hit it Hin).
  - unfold buildFileTree. rewrite Hm, paths_of_sortRecursively.
    change (map (reify (depth_bound treeItems) m) (roots_in paths))
      with (reify (depth_bound treeItems) m <$> roots_in paths).
    rewrite <- list_fmap_compose.
    assert (Heq : path ∘ reify (depth_bound treeItems) m <$> roots_in paths
                  = roots_in paths); [|by rewrite Heq].
    rewrite <- (list_fmap_id (roots_in paths)) at 2. apply list_fmap_ext.
    intros _ q _. simpl. destruct (depth_bound treeItems); simpl; by destruct (m !! q).
  - assert (Hkids : ∀ p, kids_of m p = kids_in paths p).
    { intros p. unfold kids_of. destruct (decide (p ∈ paths)) as [Hin|Hnot].
      - apply list_elem_of_fmap in Hin as (it & -> & Hin). by rewrite (Hit it Hin).
      - rewrite (Hout p Hnot). symmetry. unfold kids_in. apply filter_none.
        intros q _ Hq. apply Hnot. by eapply parentOf_listed. }
    unfold buildFileTree. rewrite Hm, nodes_of_sortRecursively.
    change (map (reify (depth_bound treeItems) m) (roots_in paths))
      with (reify (depth_bound treeItems) m <$> roots_in paths).
    rewrite list_fmap_bind.
    rewrite (list_bind_ext _ (λ p, (λ q, (q, kind_in m q))
                                     <$> reach (kids_in paths) (depth_bound treeItems) p)
               _ (roots_in paths)); [| |done].
    + rewrite <- fmap_bind_comm. rewrite reach_all; [done|exact Hwf|].
      intros q Hq. by apply depth_bound_enough.
    + intros p. unfold compose. rewrite nodes_of_reify. f_equal. by apply reach_ext.
Qed.

(** C10.  For every listing in which no path occurs twice, flattening
    the tree built from it gives the paths of the entries whose type, as
    the listing gives it, is not ["tree"], each once, in some order.  So a
    flat list without ["tree"] entries comes back whole; and of a listing
    of files and directories only, exactly the paths of the ["blob"]
    entries come back (a submodule entry, of type ["commit"], is flattened
    like a file).  Every listed path is a node of the tree, once.  In
    particular a file whose parent folder is not in the listing is put at
    the root of the tree, and is among the flattened paths. *)
Theorem flatten_of_built_tree
    (localeCompare : string → string → Z) (treeItems : list TreeItem)
    (Hwf : well_formed treeItems) :
  flattenFiles (buildFileTree localeCompare treeItems) ≡ₚ file_paths treeItems
  ∧ (Forall (λ item, item_type item ≠ "tree"%string) treeItems →
     flattenFiles (buildFileTree localeCompare treeItems) ≡ₚ map item_path treeItems)
  ∧ (blobs_and_trees treeItems →
     flattenFiles (buildFileTree localeCompare treeItems) ≡ₚ blob_paths treeItems)
  ∧ (∀ p, p ∈ flattenFiles (buildFileTree localeCompare treeItems)
          ↔ p ∈ file_paths treeItems)
  ∧ fst <$> (buildFileTree localeCompare treeItems ≫= nodes_of)
    ≡ₚ map item_path treeItems
  ∧ (∀ it, it ∈ treeItems → is_file_item it = true →
       isRoot (item_path it) = false →
       parentPath (item_path it) ∉ map item_path treeItems →
       item_path it ∈ path <$> buildFileTree localeCompare treeItems
       ∧ item_path it ∈ flattenFiles (buildFileTree localeCompare treeItems)).
Proof.
  destruct (rebuilt_nodes localeCompare treeItems Hwf) as (m & Hkind & Hroots & Hnodes).
  assert (Hperm : flattenFiles (buildFileTree localeCompare treeItems)
                  ≡ₚ file_paths treeItems).
  { rewrite flattenFiles_nodes, Hnodes, tagged_file_paths; [done|].
    by apply Forall_forall. }
  split; [exact Hperm|].
  split; [intros Hflat; by rewrite Hperm, (flat_file_paths _ Hflat)|].
  split; [intros Hgit; by rewrite (blob_paths_file_paths _ Hgit)|].
  split; [intros p; by rewrite Hperm|].
  split.
  { rewrite Hnodes, <- list_fmap_compose.
    assert (Heq : fst ∘ (λ q, (q, kind_in m q)) <$> map item_path treeItems
                  = map item_path treeItems); [|by rewrite Heq].
    rewrite <- (list_fmap_id (map item_path treeItems)) at 2.
    by apply list_fmap_ext. }
  intros it Hin Hfile Hroot Horphan. split.
  - rewrite Hroots. unfold roots_in. apply list_elem_of_filter. split.
    + unfold parentOf. rewrite Hroot.
      destruct (listed (map item_path treeItems) (parentPath (item_path it))) eqn:Hk;
        [|done].
      by apply bool_decide_eq_true in Hk.
    + apply list_elem_of_fmap. by exists it.
  - rewrite Hperm. unfold file_paths. apply list_elem_of_fmap. exists it.
    split; [done|]. apply list_elem_of_In, filter_In. split; [|done].
    by apply list_elem_of_In.
Qed.

Lemma flatten_of_built_tree_witness :
  well_formed sample_listing
  ∧ flattenFiles (buildFileTree codeCompare sample_listing)
    ≡ₚ ["src/utils.ts"; "README.md"; "docs/guide/intro.md"; "src/index.ts"]%string
  ∧ "docs/guide/intro.md"%string ∈ path <$> buildFileTree codeCompare sample_listing
  ∧ "docs/guide/intro.md"%string ∈ flattenFiles (buildFileTree codeCompare sample_listing).
Proof.
  assert (Hwf : well_formed sample_listing).
  { unfold well_formed. apply (bool_decide_unpack _). by vm_compute. }
  split; [exact Hwf|].
  destruct (flatten_of_built_tree codeCompare sample_listing Hwf)
    as (_ & _ & Hblobs & _ & _ & H).
  split.
  - apply Hblobs. unfold blobs_and_trees, sample_listing.
    repeat (constructor; [(by left) || (by right)|]). constructor.
  - apply (H (mkItem "docs/guide/intro.md" "blob")).
    + apply list_elem_of_In. simpl. auto.
    + reflexivity.
    + reflexivity.
    + apply (bool_decide_unpack _). by vm_compute.
Defined.


(** *** Every level of the built tree is sorted *)

Section SortedLevels.

Variable localeCompare : string → string → Z.

Lemma levels_sortRecursively (P : list Node → Prop) :
  (∀ l, P (sortItems localeCompare l)) →
  ∀ l, Forall P (levels_of (sortRecursively localeCompare l)).
Proof.
  intros HP.
  assert (Hnode : ∀ f, Forall P (levels (sortNode localeCompare f))).
  { induction f as [p t ch IH] using Node_forall_ind.
    cbn [sortNode levels children]. constructor; [apply HP|].
    rewrite concat_map_bind, sortItems_perm.
    apply Forall_bind. clear -IH.
    induction IH as [|c ch Hc _ IHch]; constructor; [exact Hc|exact IHch]. }
  intros l. unfold levels_of, sortRecursively. constructor; [apply HP|].
  rewrite concat_map_bind, sortItems_perm. apply Forall_bind.
  induction l as [|c l IH]; constructor; [apply Hnode|exact IH].
Qed.

Lemma all_files_insert (x : Node) (l : list Node) :
  is_file (type x) = true → forallb (λ y, is_file (type y)) l = true →
  forallb (λ y, is_file (type y)) (insert_sorted localeCompare x l) = true.
Proof.
  intros Hx. induction l as [|y l IH]; simpl; [by rewrite Hx|].
  intros [Hy Hl]%andb_true_iff.
  destruct (compareNodes localeCompare x y <=? 0); simpl.
  - by rewrite Hx, Hy, Hl.
  - by rewrite Hy, IH.
Qed.

Lemma folders_first_insert (x : Node) (l : list Node) :
  folders_first l = true → folders_first (insert_sorted localeCompare x l) = true.
Proof.
  induction l as [|y l IH]; simpl; [by destruct (is_file (type x))|].
  intros [Hy Hl]%andb_true_iff.
  destruct (Z.leb_spec (compareNodes localeCompare x y) 0) as [Hle|Hgt].
  - cbn [folders_first]. rewrite Hy, Hl, !andb_true_r.
    destruct (type x) eqn:Hx; simpl; [|done].
    unfold compareNodes in Hle. rewrite Hx in Hle.
    destruct (type y) eqn:Hty; simpl in *; [done|lia].
  - cbn [folders_first]. rewrite (IH Hl), andb_true_r.
    destruct (type y) eqn:Hty; simpl in *; [|done].
    apply all_files_insert; [|done].
    unfold compareNodes in Hgt. rewrite Hty in Hgt.
    destruct (type x); [done|lia].
Qed.

Lemma folders_first_sortItems (l : list Node) :
  folders_first (sortItems localeCompare l) = true.
Proof.
  unfold sortItems. induction l as [|x l IH]; [done|].
  simpl. by apply folders_first_insert.
Qed.

Lemma compareNodes_total (a b : Node) :
  total_comparator localeCompare →
  0 < compareNodes localeCompare a b → compareNodes localeCompare b a <= 0.
Proof.
  intros Htot. unfold compareNodes.
  destruct (type a), (type b); try lia; apply Htot.
Qed.

Lemma sorted_by_insert (x : Node) (l : list Node) :
  total_comparator localeCompare →
  sorted_by (compareNodes localeCompare) l = true →
  sorted_by (compareNodes localeCompare) (insert_sorted localeCompare x l) = true.
Proof.
  intros Htot. induction l as [|y l IH]; [done|].
  intros Hl. cbn [insert_sorted].
  destruct (Z.leb_spec (compareNodes localeCompare x y) 0) as [Hle|Hgt].
  - cbn [sorted_by]. rewrite andb_true_iff. split; [by apply Z.leb_le|exact Hl].
  - assert (Htail : sorted_by (compareNodes localeCompare) l = true).
    { destruct l; [done|]. cbn [sorted_by] in Hl. by apply andb_true_iff in Hl as [_ ?]. }
    specialize (IH Htail).
    destruct l as [|z l]; cbn [insert_sorted] in *.
    + cbn [sorted_by]. rewrite andb_true_r. apply Z.leb_le.
      by apply compareNodes_total.
    + cbn [sorted_by] in Hl. apply andb_true_iff in Hl as [Hyz _].
      destruct (compareNodes localeCompare x z <=? 0).
      * cbn [sorted_by]. cbn [sorted_by] in IH. rewrite IH, andb_true_r.
        apply Z.leb_le. by apply compareNodes_total.
      * cbn [sorted_by]. cbn [sorted_by] in IH. by rewrite Hyz, IH.
Qed.

Lemma sorted_by_sortItems (l : list Node) :
  total_comparator localeCompare →
  sorted_by (compareNodes localeCompare) (sortItems localeCompare l) = true.
Proof.
  intros Htot. unfold sortItems. induction l as [|x l IH]; [done|].
  simpl. by apply sorted_by_insert.
Qed.

End SortedLevels.

Lemma codeCompare_total : total_comparator codeCompare.
Proof.
  intros a b. unfold codeCompare. rewrite (String.compare_antisym a b).
  destruct (String.compare b a); simpl; lia.
Qed.

(** X3.  Whatever [localeCompare] answers, in the tree built from a listing the
    folders of a level come before its files: this holds of the root level
    and of the children of every node. *)
Theorem folders_come_first_at_every_level
    (localeCompare : string → string → Z) (treeItems : list TreeItem) :
  Forall (λ l, folders_first l = true)
         (levels_of (buildFileTree localeCompare treeItems)).
Proof.
  unfold buildFileTree. destruct (build_store treeItems) as [m rootFiles].
  apply (levels_sortRecursively localeCompare (λ l, folders_first l = true)).
  apply folders_first_sortItems.
Qed.

(** X4.  When [localeCompare] orders any two paths one way or the other, every
    level of the built tree is sorted by the comparator of [sortItems]:
    each node is at or before its right neighbour, folders first and then
    by path. *)
Theorem every_level_is_sorted
    (localeCompare : string → string → Z) (treeItems : list TreeItem) :
  total_comparator localeCompare →
  Forall (λ l, sorted_by (compareNodes localeCompare) l = true)
         (levels_of (buildFileTree localeCompare treeItems)).
Proof.
  intros Htot. unfold buildFileTree. destruct (build_store treeItems) as [m rootFiles].
  apply (levels_sortRecursively localeCompare
           (λ l, sorted_by (compareNodes localeCompare) l = true)).
  intros l. by apply sorted_by_sortItems.
Qed.

Lemma every_level_is_sorted_witness :
  path <$> buildFileTree codeCompare sample_listing
  = ["src"; "README.md"; "docs/guide/intro.md"]%string
  ∧ Forall (λ l, sorted_by (compareNodes codeCompare) l = true)
           (levels_of (buildFileTree codeCompare sample_listing)).
Proof.
  split; [by vm_compute|].
  apply (every_level_is_sorted codeCompare sample_listing codeCompare_total).
Defined.

End FileTree.

(** ** The documents of the files index (the [fileData] of the indexing
    callback, [indexFile] in lib/elasticsearch.ts) *)

Module SearchIndex.

(** The document handed to [indexFile] by every caller. *)
Record FileDoc := mkDoc {
  id : string;
  repo_id : string;
  file_path : string;
  file_content : string;
  file_size : Z;
  file_type : string
}.

Definition is_alnum (c : ascii) : bool :=
  let n := nat_of_ascii c in
  ((48 <=? n) && (n <=? 57) || (65 <=? n) && (n <=? 90) || (97 <=? n) && (n <=? 122))%nat.

(** [filePath.replace(/[^a-zA-Z0-9]/g, '_')] *)
Fixpoint sanitize (s : string) : string :=
  match s with
  | EmptyString => EmptyString
  | String c s' => String (if is_alnum c then c else "_"%char) (sanitize s')
  end.

(** [`${repoId}_${filePath.replace(...)}`] *)
Definition fileDocId (repoId filePath : string) : string :=
  repoId +:+ "_" +:+ sanitize filePath.

(** The object literal [fileData] built in the indexing callback. *)
Definition fileData (repoId filePath content : string) : FileDoc :=
  mkDoc (fileDocId repoId filePath) repoId filePath content
        (Z.of_nat (String.length content)) "file".

(** The files index.  [indexFile] calls [client.index] with an index name
    and a body, and no document id: the engine stores a new document on
    every call.  This is the effect of a call that succeeds; whether it
    succeeds, after its retries, is decided where it is called. *)
Definition Index := list FileDoc.

Definition indexFile (fileData : FileDoc) (idx : Index) : Index := idx ++ [fileData].


(** *** The [id] of a document *)




End SearchIndex.

(** ** Indexing orchestrator (the [background-index] route) *)

Module Orchestrator.

Import FileTree.

(** The [current_step] texts written by a run. *)
Inductive Step :=
| FetchingFromGitHub
| AnalyzingStructure
| FoundFiles (total : Z)
| BuildingSearchIndex
| IndexingFiles (indexed total : Z)
| FetchedFileContents
| GeneratingInsights
| RepositoryReady
| IndexingFailed.

(** What one call of [updateRepositoryStatus] upserts in [indexing_progress]. *)
Record ProgressRow := mkRow {
  status : IndexStatus;
  progress : Z;
  current_step : Step;
  error_message : option string;
  total_files : Z;
  indexed_files : Z
}.

(** [await] either yields a value or throws an error with a message. *)
Inductive Res (A : Type) :=
| Ok (a : A)
| Err (message : string).
Arguments Ok {A} a.
Arguments Err {A} message.

Record RepoData := mkRepoData { name : string; files : list Node }.

(** The outcomes of the calls a run makes to its collaborators. *)
Record Env := mkEnv {
  (** [getIndexingProgress]: throws with this message, if any *)
  db_read : option string;
  (** the [k]-th call of [updateRepositoryStatus], after its own retries *)
  db_write : nat → option string;
  (** [fetchCompleteRepositoryData(repoUrl)] raced with the 15 s timer *)
  repo_data : Res RepoData;
  (** [indexRepository] *)
  es_repo : option string;
  (** [githubConcurrencyLimit(() => fetchRawFileContent(owner, repo, path))] *)
  fetch_file : string → Fetcher.Result (option (string * Z));
  (** [indexFile(fileData)], after its own retries *)
  es_file : string → option string;
  (** [Math.floor((indexedFilesCount / totalFiles) * 50)], in double precision *)
  ratio50 : Z → Z → Z
}.

(** The progress log of the repository, the files index, and the
    variables of [indexRepositoryAsync] captured by its callback. *)
Record St := mkSt {
  rows : list ProgressRow;
  db_calls : nat;
  es_files : SearchIndex.Index;
  indexedFilesCount : Z;
  failedFilesCount : Z
}.

Definition M (A : Type) : Type := St → Res A * St.

Definition ret {A} (a : A) : M A := λ s, (Ok a, s).

Definition throw {A} (message : string) : M A := λ s, (Err message, s).

Definition bind {A B} (m : M A) (k : A → M B) : M B :=
  λ s, match m s with
       | (Ok a, s') => k a s'
       | (Err e, s') => (Err e, s')
       end.

Definition try_catch {A} (m : M A) (handler : string → M A) : M A :=
  λ s, match m s with
       | (Ok a, s') => (Ok a, s')
       | (Err e, s') => handler e s'
       end.

Declare Scope run_scope.
Delimit Scope run_scope with run.
Notation "'do' x <- m ;; k" := (bind m (λ x, k))
  (at level 10, x name, m at level 99, k at level 200) : run_scope.
Notation "'exec' m ;; k" := (bind m (λ _, k))
  (at level 10, m at level 99, k at level 200) : run_scope.
Local Open Scope run_scope.

(** [updateRepositoryStatus(repoId, status, progress, currentStep,
    errorMessage?, totalFiles?, indexedFiles?)]; the row holds
    [totalFiles || 0] and [indexedFiles || 0]. *)
Definition updateRepositoryStatus (env : Env) (st : IndexStatus) (pr : Z)
    (step : Step) (errorMessage : option string) (totalFiles indexedFiles : option Z)
  : M unit :=
  λ s,
    match db_write env (db_calls s) with
    | None =>
        (Ok tt,
         mkSt (rows s ++ [mkRow st pr step errorMessage
                                (default 0 totalFiles) (default 0 indexedFiles)])
              (S (db_calls s)) (es_files s) (indexedFilesCount s) (failedFilesCount s))
    | Some e =>
        (Err e, mkSt (rows s) (S (db_calls s)) (es_files s)
                     (indexedFilesCount s) (failedFilesCount s))
    end.

Definition indexFile (env : Env) (doc : SearchIndex.FileDoc) : M unit :=
  λ s,
    match es_file env (SearchIndex.file_path doc) with
    | None =>
        (Ok tt, mkSt (rows s) (db_calls s) (SearchIndex.indexFile doc (es_files s))
                     (indexedFilesCount s) (failedFilesCount s))
    | Some e => (Err e, s)
    end.

Definition incr_indexed : M Z :=
  λ s, (Ok (indexedFilesCount s + 1),
        mkSt (rows s) (db_calls s) (es_files s) (indexedFilesCount s + 1)
             (failedFilesCount s)).

Definition incr_failed : M unit :=
  λ s, (Ok tt, mkSt (rows s) (db_calls s) (es_files s) (indexedFilesCount s)
                    (failedFilesCount s + 1)).

Definition get_indexed : M Z := λ s, (Ok (indexedFilesCount s), s).

(** [Math.min(40 + Math.floor((indexedFilesCount / totalFiles) * 50), 90)] *)
Definition file_progress (env : Env) (indexed total : Z) : Z :=
  Z.min (40 + ratio50 env indexed total) 90.

(** The callback handed to [indexFilesRecursively]. *)
Definition indexCallback (env : Env) (repoId : string) (totalFiles : Z)
    (filePath content : string) : M unit :=
  try_catch
    (exec indexFile env (SearchIndex.fileData repoId filePath content) ;;
     do n <- incr_indexed ;;
     if (n mod 2 =? 0) || (n =? totalFiles) then
       updateRepositoryStatus env Indexing (file_progress env n totalFiles)
         (IndexingFiles n totalFiles) None (Some totalFiles) (Some n)
     else ret tt)
    (λ _, incr_failed).

Definition newline : string := String "010"%char EmptyString.

Definition unavailable_binary (p : string) : string :=
  "// File: " +:+ p +:+ newline +:+ "// Content unavailable (file may be too large or binary)".

Definition unavailable (p : string) : string :=
  "// File: " +:+ p +:+ newline +:+ "// Content unavailable".

(** The content indexed for a file: what was fetched when the fetch
    returned a non-empty content, a placeholder otherwise. *)
Definition content_for (env : Env) (p : string) : string :=
  match fetch_file env p with
  | Fetcher.Ok (Some (content, _)) =>
      if String.eqb content "" then unavailable_binary p else content
  | Fetcher.Ok None => unavailable_binary p
  | Fetcher.Throw _ => unavailable p
  end.

(** The body of [for (const file of files)]: one action after the other. *)
Definition sequence (ms : list (M unit)) : M unit :=
  foldr (λ m k, exec m ;; k) (ret tt) ms.

(** What [indexFilesRecursively] does with one file. *)
Definition indexOneFile (env : Env) (repoId : string) (totalFiles : Z)
    (filePath : string) : M unit :=
  try_catch
    (indexCallback env repoId totalFiles filePath (content_for env filePath))
    (λ _, ret tt).

(** [indexFilesRecursively]: files are processed, other nodes are entered. *)
Fixpoint indexNode (env : Env) (repoId : string) (totalFiles : Z) (f : Node) : M unit :=
  match type f with
  | FileT => indexOneFile env repoId totalFiles (path f)
  | FolderT => sequence (map (indexNode env repoId totalFiles) (children f))
  end.

Definition indexFilesRecursively (env : Env) (repoId : string) (totalFiles : Z)
    (files : list Node) : M unit :=
  sequence (map (indexNode env repoId totalFiles) files).

(** The files met by [indexFilesRecursively] and [countFilesRecursively],
    in order. *)
Fixpoint visitedNode (f : Node) : list string :=
  match type f with
  | FileT => [path f]
  | FolderT => concat (map visitedNode (children f))
  end.

Definition visited (files : list Node) : list string :=
  concat (map visitedNode files).

Definition write_ok (env : Env) (p : string) : bool :=
  match es_file env p with None => true | Some _ => false end.

Definition fetch_ok (env : Env) (p : string) : bool :=
  match fetch_file env p with
  | Fetcher.Ok (Some _) => true
  | _ => false
  end.

(** Re-throw with a prefixed message:
    [catch (e) { throw new Error(`...: ${e.message}`) }]. *)
Definition wrap {A} (pre : string) (m : M A) : M A :=
  try_catch m (λ e, throw (pre +:+ e)).

Definition lift {A} (r : Res A) : M A := λ s, (r, s).

Definition lift_unit (r : option string) : M unit :=
  λ s, (match r with None => Ok tt | Some e => Err e end, s).

(** [error.message || 'Unknown error occurred during indexing'] *)
Definition message_or_unknown (e : string) : string :=
  if String.eqb e "" then "Unknown error occurred during indexing" else e.

(** [indexRepositoryAsync].  The insight step and the search smoke test
    catch every exception they raise and write no progress row; they are
    left out.  The first status write is awaited in a race with a 15 s
    timer: [db_write env k] is, for that call, the outcome of a write that
    settles before the timer fires.  A write that outlasts its timer (the
    race throws, and the write may still land afterwards) is not
    described; what is proved below of the rows of a run fixes the outcome
    of that first write. *)
Definition indexRepositoryAsync (env : Env) (repoId : string) : M unit :=
  try_catch
    (exec wrap "Database error: "
       (updateRepositoryStatus env Indexing 5 FetchingFromGitHub None None None) ;;
     do repoData <- wrap "GitHub API error: " (lift (repo_data env)) ;;
     exec updateRepositoryStatus env Indexing 20 AnalyzingStructure None None None ;;
     let totalFiles := countFilesRecursively (files repoData) in
     exec updateRepositoryStatus env Indexing 30 (FoundFiles totalFiles) None
       (Some totalFiles) (Some 0) ;;
     exec wrap "Elasticsearch error: " (lift_unit (es_repo env)) ;;
     exec updateRepositoryStatus env Indexing 40 BuildingSearchIndex None None None ;;
     exec wrap "File indexing failed: "
       (indexFilesRecursively env repoId totalFiles (files repoData)) ;;
     exec updateRepositoryStatus env Indexing 85 FetchedFileContents None None None ;;
     exec updateRepositoryStatus env Indexing 92 GeneratingInsights None None None ;;
     do n <- get_indexed ;;
     exec (if n =? 0 then throw "No files were successfully indexed" else ret tt) ;;
     updateRepositoryStatus env Completed 100 RepositoryReady None
       (Some totalFiles) (Some n))
    (λ e,
       try_catch
         (updateRepositoryStatus env Failed 0 IndexingFailed
            (Some (message_or_unknown e)) None None)
         (λ _, ret tt)).

(** [getIndexingProgress]: the row of the repository, if there is one. *)
Definition getIndexingProgress (s : St) : option ProgressRow := last (rows s).

Record Request := mkRequest { repoId : option string; repoUrl : option string }.

Inductive Response :=
| BadRequest
| AlreadyIndexed
| InProgress (progress : Z)
| IndexingCompleted
| ServerError (details : string).

Definition falsy (s : option string) : bool :=
  match s with
  | Some x => String.eqb x ""
  | None => true
  end.

(** A run starts with [indexedFilesCount = 0] and [failedFilesCount = 0]. *)
Definition fresh_counters (s : St) : St :=
  mkSt (rows s) (db_calls s) (es_files s) 0 0.

(** The [POST] handler of the route, from the parsed body on. *)
Definition POST (env : Env) (req : Request) (s : St) : Response * St :=
  if falsy (repoId req) || falsy (repoUrl req) then (BadRequest, s)
  else
    match db_read env with
    | Some e => (ServerError e, s)
    | None =>
        match getIndexingProgress s with
        | Some (mkRow Completed _ _ _ _ _) => (AlreadyIndexed, s)
        | Some (mkRow Indexing pr _ _ _ _) =>
            if pr >? 5 then (InProgress pr, s)
            else (IndexingCompleted,
                  snd (indexRepositoryAsync env (default "" (repoId req)) (fresh_counters s)))
        | _ =>
            (IndexingCompleted,
             snd (indexRepositoryAsync env (default "" (repoId req)) (fresh_counters s)))
        end
    end.

(** What [await request.json()] and the destructuring of its value give.
    Both are inside the [try] of the handler: a body that is not JSON, or
    is [null], throws an exception with this message; of any other value
    the properties [repoId] and [repoUrl] are read. *)
Inductive Body :=
| Unreadable (message : string)
| Parsed (req : Request).

(** The [POST] handler of the route, from the request on. *)
Definition route (env : Env) (body : Body) (s : St) : Response * St :=
  match body with
  | Unreadable message => (ServerError message, s)
  | Parsed req => POST env req s
  end.

(** The claim as the specification words it: the files that count are
    those whose content fetch succeeded; the run is completed with that
    count when it is positive and failed when it is zero. *)
Definition spec_fetch_failures_decide (env : Env) (repoId : string)
    (files : list Node) : Prop :=
  let fetched := Z.of_nat (length (List.filter (fetch_ok env) (visited files))) in
  let s' := snd (indexRepositoryAsync env repoId (mkSt [] 0 [] 0 0)) in
  (0 < fetched →
     ∃ row, last (rows s') = Some row ∧ status row = Completed
            ∧ indexed_files row = fetched)
  ∧ (fetched = 0 → ∃ row, last (rows s') = Some row ∧ status row = Failed).

Definition ten_files : list Node :=
  [mkNode "README.md" FileT [];
   mkNode "package.json" FileT [];
   mkNode "src" FolderT
     [mkNode "src/a.ts" FileT []; mkNode "src/b.ts" FileT [];
      mkNode "src/c.ts" FileT []; mkNode "src/d.ts" FileT [];
      mkNode "src/e.ts" FileT []; mkNode "src/f.ts" FileT []];
   mkNode "logo.png" FileT [];
   mkNode "video.bin" FileT []].

(** The quotient in exact arithmetic.  What is proved below of the runs
    that use it depends on its value at [indexed = total] only, where the
    double-precision computation is exact as well ([x / x] is 1 and
    [1 * 50] is 50). *)
Definition exact_ratio50 (indexed total : Z) : Z := indexed * 50 / total.

(** Every collaborator answers; the content fetch fails on the paths of
    [failing] and returns a text on the others. *)
Definition env_with (files : list Node) (failing : string → bool) : Env :=
  mkEnv None (λ _, None) (Ok (mkRepoData "hello" files)) None
        (λ p, if failing p then Fetcher.Throw (Fetcher.mkError (Some 500))
              else Fetcher.Ok (Some ("text"%string, 4)))
        (λ _, None) exact_ratio50.

Definition three_fail (p : string) : bool :=
  String.eqb p "logo.png" || String.eqb p "video.bin" || String.eqb p "src/f.ts".

Definition two_files : list Node :=
  [mkNode "a.ts" FileT []; mkNode "b.ts" FileT []].

Fixpoint non_decreasing (l : list Z) : bool :=
  match l with
  | x :: (y :: _) as rest => (x <=? y) && non_decreasing rest
  | _ => true
  end.

Definition indexing_progress (rs : list ProgressRow) : list Z :=
  map progress (List.filter (λ r, bool_decide (status r = Indexing)) rs).

(** What every row written by a run satisfies. *)
Definition row_ok (r : ProgressRow) : Prop :=
  0 <= progress r <= 100
  ∧ match status r with
    | Completed => progress r = 100
    | Failed => progress r = 0
    | Indexing => 5 <= progress r <= 92
    | Pending => False
    end.

(** [m] adds nothing but rows satisfying [row_ok] to the log. *)
Definition adds_ok_rows {A} (m : M A) : Prop :=
  ∀ s, ∃ added, rows (snd (m s)) = rows s ++ added ∧ Forall row_ok added.

(** A row written during the file phase. *)
Definition file_row (env : Env) (totalFiles : Z) (r : ProgressRow) : Prop :=
  status r = Indexing ∧ ∃ n, progress r = file_progress env n totalFiles.

Definition no_file_indexed : ProgressRow :=
  mkRow Failed 0 IndexingFailed (Some "No files were successfully indexed"%string) 0 0.

Definition halfway : St :=
  mkSt [mkRow Indexing 50 (IndexingFiles 2 10) None 10 2] 5 [] 0 0.

(** *** What a run adds to the log and to the index *)

(** [m] only appends: rows satisfying [P] to the progress log, documents
    satisfying [Q] to the files index. *)
Definition appends {A} (P : ProgressRow → Prop) (Q : SearchIndex.FileDoc → Prop)
    (m : M A) : Prop :=
  ∀ s, ∃ newRows newDocs,
    rows (snd (m s)) = rows s ++ newRows ∧ Forall P newRows
    ∧ es_files (snd (m s)) = es_files s ++ newDocs ∧ Forall Q newDocs.

(** A row written while the run goes on. *)
Definition indexing_row (r : ProgressRow) : Prop :=
  status r = Indexing ∧ error_message r = None.

(** The row that ends a run. *)
Definition terminal_row (r : ProgressRow) : Prop :=
  (status r = Completed ∧ progress r = 100 ∧ current_step r = RepositoryReady
   ∧ error_message r = None)
  ∨ (status r = Failed ∧ progress r = 0 ∧ current_step r = IndexingFailed
     ∧ total_files r = 0 ∧ indexed_files r = 0
     ∧ ∃ m, error_message r = Some m ∧ m ≠ ""%string).

(** [m] writes [indexing] rows, and a [completed] row as its last action
    when it returns. *)
Definition ends_completed {A} (m : M A) : Prop :=
  ∀ s, ∃ pre,
    Forall indexing_row pre
    ∧ match m s with
      | (Ok _, s') => ∃ c, rows s' = rows s ++ pre ++ [c] ∧ terminal_row c
      | (Err _, s') => rows s' = rows s ++ pre
      end.

(** A document of the repository [repoId] built by the indexing callback. *)
Definition run_document (env : Env) (repoId : string) (d : SearchIndex.FileDoc) : Prop :=
  ∃ p, d = SearchIndex.fileData repoId p (content_for env p) ∧ write_ok env p = true.

(** No file node has children. *)
Fixpoint files_are_leaves (f : Node) : bool :=
  (if is_file (type f) then bool_decide (children f = []) else true)
  && forallb files_are_leaves (children f).

(** A listing as the host gives it: what lies under a listed path lies
    under a ["tree"] entry. *)
Definition git_like (treeItems : list TreeItem) : Prop :=
  Forall (λ it, is_file_item it = true →
                Forall (λ q, isRoot (item_path q) = false →
                             parentPath (item_path q) ≠ item_path it) treeItems)
         treeItems.

(** GitHub cannot be reached. *)
Definition env_offline : Env :=
  mkEnv None (λ _, None) (Err "GitHub API timeout after 15 seconds") None
        (λ _, Fetcher.Throw (Fetcher.mkError None)) (λ _, None) exact_ratio50.

(** The datastore rejects every write. *)
Definition env_no_datastore : Env :=
  mkEnv None (λ _, Some "connection refused"%string) (Ok (mkRepoData "hello" two_files))
        None (λ _, Fetcher.Ok (Some ("text"%string, 4))) (λ _, None) exact_ratio50.

Definition first_request : Request :=
  mkRequest (Some "r1"%string) (Some "https://github.com/o/hello"%string).


(** The rows written during the file phase when index writes [c + 1] to
    [c + w] succeed and the datastore accepts every row: one row for each
    even count, and one for the count that equals the total. *)
Fixpoint file_rows (env : Env) (totalFiles c : Z) (w : nat) : list ProgressRow :=
  match w with
  | O => []
  | S w' =>
      (if ((c + 1) mod 2 =? 0) || (c + 1 =? totalFiles)
       then [mkRow Indexing (file_progress env (c + 1) totalFiles)
                   (IndexingFiles (c + 1) totalFiles) None totalFiles (c + 1)]
       else [])
      ++ file_rows env totalFiles (c + 1) w'
  end.

(** Three files, the second of which the index refuses. *)
Definition three_files : list Node :=
  [mkNode "a.ts" FileT []; mkNode "b.ts" FileT []; mkNode "c.ts" FileT []].

Definition env_refusing_b : Env :=
  mkEnv None (λ _, None) (Ok (mkRepoData "hello" three_files)) None
        (λ _, Fetcher.Ok (Some ("text"%string, 4)))
        (λ p, if String.eqb p "b.ts" then Some "mapper_parsing_exception"%string else None)
        exact_ratio50.


(** *** The file phase, file by file *)

Lemma bind_ext {A B} (m m' : M A) (k k' : A → M B) (s : St) :
  m s = m' s → (∀ a s1, k a s1 = k' a s1) → bind m k s = bind m' k' s.
Proof.
  intros Hm Hk. unfold bind. rewrite Hm.
  destruct (m' s) as [[a|e] s1]; [apply Hk|done].
Qed.

Lemma sequence_app (l1 l2 : list (M unit)) (s : St) :
  sequence (l1 ++ l2) s = bind (sequence l1) (λ _, sequence l2) s.
Proof.
  revert s. induction l1 as [|m l1 IH]; intros s; [done|].
  simpl. unfold bind. destruct (m s) as [[[]|e] s1]; [|done].
  rewrite IH. done.
Qed.

Lemma sequence_one (m : M unit) (s : St) : sequence [m] s = m s.
Proof.
  simpl. unfold bind, ret. by destruct (m s) as [[[]|e] s1].
Qed.

Lemma sequence_ext (l l' : list (M unit)) :
  Forall2 (λ m m', ∀ s, m s = m' s) l l' → ∀ s, sequence l s = sequence l' s.
Proof.
  induction 1 as [|m m' l l' Hm _ IH]; intros s; [done|].
  simpl. apply bind_ext; [apply Hm|]. intros _ s1. apply IH.
Qed.

Lemma sequence_concat (ls : list (list (M unit))) (s : St) :
  sequence (concat ls) s = sequence (map sequence ls) s.
Proof.
  revert s. induction ls as [|l ls IH]; intros s; [done|].
  simpl. rewrite sequence_app. apply bind_ext; [done|].
  intros _ s1. apply IH.
Qed.

Lemma indexNode_visited (env : Env) (repoId : string) (totalFiles : Z) (f : Node) :
  ∀ s, indexNode env repoId totalFiles f s
       = sequence (map (indexOneFile env repoId totalFiles) (visitedNode f)) s.
Proof.
  induction f as [p t ch IH] using Node_forall_ind. intros s.
  destruct t; simpl.
  - unfold bind, ret.
    by destruct (indexOneFile env repoId totalFiles p s) as [[[]|e] s1].
  - rewrite concat_map, sequence_concat, map_map.
    apply sequence_ext. clear s.
    induction IH as [|c ch Hc _ IHch]; constructor; [exact Hc|exact IHch].
Qed.

Lemma indexFilesRecursively_visited (env : Env) (repoId : string) (totalFiles : Z)
    (files : list Node) (s : St) :
  indexFilesRecursively env repoId totalFiles files s
  = sequence (map (indexOneFile env repoId totalFiles) (visited files)) s.
Proof.
  unfold indexFilesRecursively, visited.
  rewrite concat_map, sequence_concat, map_map.
  apply sequence_ext. clear s.
  induction files as [|c files IH]; constructor; [|exact IH].
  apply indexNode_visited.
Qed.

Lemma sumZ_app (l1 l2 : list Z) : sumZ (l1 ++ l2) = sumZ l1 + sumZ l2.
Proof. induction l1 as [|x l1 IH]; simpl; [done|]. rewrite IH. lia. Qed.

Lemma countFilesNode_visited (f : Node) :
  countFilesNode f = Z.of_nat (length (visitedNode f)).
Proof.
  induction f as [p t ch IH] using Node_forall_ind.
  destruct t; simpl; [done|].
  induction IH as [|c ch Hc _ IHch]; simpl; [done|].
  rewrite length_app, Hc, IHch. lia.
Qed.

Lemma countFilesRecursively_visited (files : list Node) :
  countFilesRecursively files = Z.of_nat (length (visited files)).
Proof.
  unfold countFilesRecursively, visited.
  induction files as [|c files IH]; simpl; [done|].
  rewrite length_app, countFilesNode_visited, IH. lia.
Qed.

Lemma indexOneFile_effect (env : Env) (repoId : string) (totalFiles : Z)
    (p : string) (s : St) :
  ∃ s',
    indexOneFile env repoId totalFiles p s = (Ok tt, s')
    ∧ indexedFilesCount s'
      = indexedFilesCount s + (if write_ok env p then 1 else 0)
    ∧ es_files s'
      = es_files s ++ (if write_ok env p
                       then [SearchIndex.fileData repoId p (content_for env p)]
                       else [])
    ∧ ∃ added, rows s' = rows s ++ added ∧ Forall (file_row env totalFiles) added.
Proof.
  unfold indexOneFile, indexCallback, try_catch, bind, indexFile, incr_indexed,
    incr_failed, ret, write_ok. simpl.
  destruct (es_file env p) as [e|]; simpl.
  - eexists. split; [done|]. simpl. split; [lia|]. split; [by rewrite app_nil_r|].
    exists []. split; [by rewrite app_nil_r|constructor].
  - destruct (orb _ _); simpl.
    + unfold updateRepositoryStatus. simpl.
      destruct (db_write env (db_calls s)); simpl.
      * eexists. split; [done|]. simpl. split; [done|]. split; [done|].
        exists []. split; [by rewrite app_nil_r|constructor].
      * eexists. split; [done|]. simpl. split; [done|]. split; [done|].
        eexists. split; [done|]. constructor; [|constructor].
        split; [done|]. by eexists.
    + eexists. split; [done|]. simpl. split; [done|]. split; [done|].
      exists []. split; [by rewrite app_nil_r|constructor].
Qed.

Lemma file_phase_effect (env : Env) (repoId : string) (totalFiles : Z)
    (paths : list string) :
  ∀ s, ∃ s',
    sequence (map (indexOneFile env repoId totalFiles) paths) s = (Ok tt, s')
    ∧ indexedFilesCount s'
      = indexedFilesCount s + Z.of_nat (length (List.filter (write_ok env) paths))
    ∧ es_files s'
      = es_files s ++ map (λ p, SearchIndex.fileData repoId p (content_for env p))
                          (List.filter (write_ok env) paths)
    ∧ ∃ added, rows s' = rows s ++ added ∧ Forall (file_row env totalFiles) added.
Proof.
  induction paths as [|p paths IH]; intros s.
  - exists s. simpl. split; [done|]. split; [lia|]. split; [by rewrite app_nil_r|].
    exists []. split; [by rewrite app_nil_r|constructor].
  - destruct (indexOneFile_effect env repoId totalFiles p s)
      as (s1 & H1 & Hn1 & He1 & added1 & Hr1 & Ha1).
    destruct (IH s1) as (s2 & H2 & Hn2 & He2 & added2 & Hr2 & Ha2).
    exists s2. simpl. unfold bind at 1. rewrite H1. split; [exact H2|].
    rewrite Hn2, Hn1, He2, He1, Hr2, Hr1.
    split; [|split].
    + destruct (write_ok env p); simpl; lia.
    + destruct (write_ok env p); simpl; by rewrite <- app_assoc.
    + exists (added1 ++ added2). split; [by rewrite app_assoc|].
      by apply Forall_app.
Qed.

(** *** A run in which the datastore and the repository-level steps succeed *)

Lemma run_outcome (env : Env) (repoId : string) (data : RepoData) (s : St) :
  (∀ k, db_write env k = None) → repo_data env = Ok data → es_repo env = None →
  let paths := visited (files data) in
  let total := Z.of_nat (length paths) in
  let written := List.filter (write_ok env) paths in
  let s' := snd (indexRepositoryAsync env repoId (fresh_counters s)) in
  es_files s'
  = es_files s ++ map (λ p, SearchIndex.fileData repoId p (content_for env p)) written
  ∧ last (rows s')
    = Some (if decide (written = []) then no_file_indexed
            else mkRow Completed 100 RepositoryReady None total
                       (Z.of_nat (length written))).
Proof.
  intros Hdb Hrepo Hes paths total written s'. subst s'.
  unfold indexRepositoryAsync, try_catch, bind, wrap, try_catch, lift, lift_unit,
    get_indexed, throw, ret, updateRepositoryStatus, fresh_counters.
  repeat (first [rewrite Hdb | rewrite Hrepo | rewrite Hes];
          cbn [rows db_calls es_files indexedFilesCount failedFilesCount default files]).
  rewrite countFilesRecursively_visited. fold paths total.
  match goal with
  | |- context [indexFilesRecursively ?e ?r ?t ?f ?st] =>
      rewrite (indexFilesRecursively_visited e r t f st);
      destruct (file_phase_effect e r t (visited f) st)
        as (s1 & H1 & Hn1 & He1 & added & Hr1 & _)
  end.
  rewrite H1. fold paths in Hn1, He1. fold written in Hn1, He1.
  cbn [rows db_calls es_files indexedFilesCount failedFilesCount] in Hn1, He1.
  repeat (rewrite Hdb; cbn [rows db_calls es_files indexedFilesCount failedFilesCount default]).
  rewrite Hn1, Z.add_0_l.
  destruct (decide (written = [])) as [Hnil|Hne].
  - rewrite Hnil. change (Z.of_nat (length [])) with 0.
    change (0 =? 0) with true. cbv iota beta.
    repeat (rewrite Hdb; cbn [rows db_calls es_files indexedFilesCount failedFilesCount default snd]).
    split; [by rewrite He1, Hnil|]. by rewrite last_snoc.
  - destruct (Z.eqb_spec (Z.of_nat (length written)) 0) as [H0|_].
    { destruct written; [done|simpl in H0; lia]. }
    repeat (rewrite Hdb; cbn [rows db_calls es_files indexedFilesCount failedFilesCount default snd]).
    split; [by rewrite He1|]. by rewrite last_snoc.
Qed.

(** C2, as stated, fails: with ten files of which three cannot be fetched
    the run is completed with [indexed_files = 10], not 7, and with ten
    files none of which can be fetched the run is completed, not failed. *)
Lemma fetch_failures_decide_refuted :
  ¬ spec_fetch_failures_decide (env_with ten_files three_fail) "r1" ten_files
  ∧ ¬ spec_fetch_failures_decide (env_with ten_files (λ _, true)) "r1" ten_files.
Proof.
  split.
  - intros [H _]. destruct H as (row & Hrow & _ & Hidx); [by vm_compute|].
    vm_compute in Hrow. injection Hrow as <-. vm_compute in Hidx. discriminate.
  - intros [_ H]. destruct H as (row & Hrow & Hst); [by vm_compute|].
    vm_compute in Hrow. injection Hrow as <-. discriminate.
Qed.

(** C2 (amended).  In a run whose datastore writes and repository-level
    steps succeed, a file whose content fetch fails or returns nothing is
    indexed with a placeholder text and counts like any other; the files
    that do not count are those whose write to the search index fails.
    The run reaches [completed] with [indexed_files] equal to the number of
    files written to the index (and [total_files] the number of files met)
    when at least one write succeeded, and reaches [failed] when none
    did. *)
Theorem completed_iff_an_index_write_succeeded
    (env : Env) (repoId : string) (data : RepoData) (s : St) :
  (∀ k, db_write env k = None) → repo_data env = Ok data → es_repo env = None →
  let paths := visited (files data) in
  let written := List.filter (write_ok env) paths in
  let s' := snd (indexRepositoryAsync env repoId (fresh_counters s)) in
  countFilesRecursively (files data) = Z.of_nat (length paths)
  ∧ (∀ p e, fetch_file env p = Fetcher.Throw e → content_for env p = unavailable p)
  ∧ (∀ p, fetch_file env p = Fetcher.Ok None → content_for env p = unavailable_binary p)
  ∧ es_files s'
    = es_files s ++ map (λ p, SearchIndex.fileData repoId p (content_for env p)) written
  ∧ (written ≠ [] →
     last (rows s')
     = Some (mkRow Completed 100 RepositoryReady None
                   (Z.of_nat (length paths)) (Z.of_nat (length written))))
  ∧ (written = [] → last (rows s') = Some no_file_indexed).
Proof.
  intros Hdb Hrepo Hes paths written s'.
  destruct (run_outcome env repoId data s Hdb Hrepo Hes) as [Hfiles Hlast].
  fold paths written s' in Hfiles, Hlast.
  split; [apply countFilesRecursively_visited|].
  split; [intros p e Hp; unfold content_for; by rewrite Hp|].
  split; [intros p Hp; unfold content_for; by rewrite Hp|].
  split; [exact Hfiles|].
  destruct (decide (written = [])); split; intros; done.
Qed.

Lemma completed_iff_an_index_write_succeeded_witness :
  last (rows (snd (indexRepositoryAsync (env_with ten_files three_fail) "r1"
                     (fresh_counters (mkSt [] 0 [] 0 0)))))
  = Some (mkRow Completed 100 RepositoryReady None 10 10).
Proof.
  destruct (completed_iff_an_index_write_succeeded
              (env_with ten_files three_fail) "r1" (mkRepoData "hello" ten_files)
              (mkSt [] 0 [] 0 0) (λ _, eq_refl) eq_refl eq_refl)
    as (_ & _ & _ & _ & H & _).
  apply H. discriminate.
Defined.

(** *** Requests for a repository that is being indexed or is indexed *)

(** C7.  When the latest progress row of the repository has status
    [indexing] and a progress above 5 (50 for instance), the request is
    answered with that status and progress and nothing is run: no row is
    written, no file is indexed, the datastore is not written.  When the
    latest row has status [completed] the request is answered at once, in
    the same way. *)
Theorem running_or_completed_is_not_rerun
    (env : Env) (req : Request) (s : St) (row : ProgressRow) :
  falsy (repoId req) = false → falsy (repoUrl req) = false →
  db_read env = None → getIndexingProgress s = Some row →
  (status row = Indexing → 5 < progress row →
     POST env req s = (InProgress (progress row), s))
  ∧ (status row = Completed → POST env req s = (AlreadyIndexed, s)).
Proof.
  intros Hid Hurl Hread Hrow. unfold POST. rewrite Hid, Hurl, Hread, Hrow. simpl.
  destruct row as [st pr step e t i]. simpl. split.
  - intros -> Hpr. destruct (Z.gtb_spec pr 5); [done|lia].
  - by intros ->.
Qed.

Lemma running_or_completed_is_not_rerun_witness :
  POST (env_with ten_files three_fail) (mkRequest (Some "r1"%string)
       (Some "https://github.com/o/hello"%string)) halfway
  = (InProgress 50, halfway).
Proof.
  destruct (running_or_completed_is_not_rerun (env_with ten_files three_fail)
              (mkRequest (Some "r1"%string) (Some "https://github.com/o/hello"%string))
              halfway (mkRow Indexing 50 (IndexingFiles 2 10) None 10 2)
              eq_refl eq_refl eq_refl eq_refl) as [H _].
  apply H; [reflexivity|reflexivity].
Defined.

(** *** The progress values of a run *)

(** What does hold of every run: each row it writes has a progress within
    0..100, between 5 and 92 while [indexing], 100 when [completed] and 0
    when [failed]. *)

Lemma adds_ok_pure {A} (m : M A) : (∀ s, snd (m s) = s) → adds_ok_rows m.
Proof.
  intros H s. exists []. rewrite H, app_nil_r. split; [done|constructor].
Qed.

Lemma adds_ok_bind {A B} (m : M A) (k : A → M B) :
  adds_ok_rows m → (∀ a, adds_ok_rows (k a)) → adds_ok_rows (bind m k).
Proof.
  intros Hm Hk s. destruct (Hm s) as (a1 & H1 & Ha1). unfold bind.
  destruct (m s) as [[a|e] s1]; simpl in H1.
  - destruct (Hk a s1) as (a2 & H2 & Ha2). exists (a1 ++ a2).
    rewrite H2, H1, app_assoc. split; [done|by apply Forall_app].
  - by exists a1.
Qed.

Lemma adds_ok_try {A} (m : M A) (h : string → M A) :
  adds_ok_rows m → (∀ e, adds_ok_rows (h e)) → adds_ok_rows (try_catch m h).
Proof.
  intros Hm Hh s. destruct (Hm s) as (a1 & H1 & Ha1). unfold try_catch.
  destruct (m s) as [[a|e] s1]; simpl in H1.
  - by exists a1.
  - destruct (Hh e s1) as (a2 & H2 & Ha2). exists (a1 ++ a2).
    rewrite H2, H1, app_assoc. split; [done|by apply Forall_app].
Qed.

Lemma adds_ok_update (env : Env) st pr step e t i :
  row_ok (mkRow st pr step e (default 0 t) (default 0 i)) →
  adds_ok_rows (updateRepositoryStatus env st pr step e t i).
Proof.
  intros Hrow s. unfold updateRepositoryStatus.
  destruct (db_write env (db_calls s)); simpl.
  - exists []. rewrite app_nil_r. split; [done|constructor].
  - eexists. split; [done|]. constructor; [exact Hrow|constructor].
Qed.

Lemma file_row_ok (env : Env) (totalFiles : Z) (r : ProgressRow) :
  (∀ i t, 0 <= ratio50 env i t) → file_row env totalFiles r → row_ok r.
Proof.
  intros Hratio [Hst (n & Hpr)]. unfold row_ok. rewrite Hst, Hpr.
  unfold file_progress. specialize (Hratio n totalFiles). lia.
Qed.

Lemma adds_ok_file_phase (env : Env) (repoId : string) (totalFiles : Z)
    (files : list Node) :
  (∀ i t, 0 <= ratio50 env i t) →
  adds_ok_rows (indexFilesRecursively env repoId totalFiles files).
Proof.
  intros Hratio s. rewrite indexFilesRecursively_visited.
  destruct (file_phase_effect env repoId totalFiles (visited files) s)
    as (s1 & H1 & _ & _ & added & Hr & Ha).
  rewrite H1. exists added. split; [exact Hr|].
  eapply Forall_impl; [exact Ha|]. intros r. by apply file_row_ok.
Qed.

Lemma run_rows_ok (env : Env) (repoId : string) :
  (∀ i t, 0 <= ratio50 env i t) →
  adds_ok_rows (indexRepositoryAsync env repoId).
Proof.
  intros Hratio. unfold indexRepositoryAsync, wrap.
  repeat first
    [ apply adds_ok_try | apply adds_ok_bind
    | match goal with |- ∀ _, adds_ok_rows _ => intros ? end
    | apply adds_ok_update; unfold row_ok; simpl; lia
    | by apply adds_ok_file_phase
    | apply adds_ok_pure; intros ?; unfold throw, ret, lift, lift_unit, get_indexed; by simpl
    | match goal with |- adds_ok_rows (if ?b then _ else _) => destruct b end ].
Qed.

(** C1 (the code departs from it).  A run over two files in which every
    call succeeds writes, while [indexing], the progress values 5, 20, 30,
    40, 90, 85, 92: the row written after the file phase takes the progress
    back from 90 to 85. *)
Theorem progress_falls_back_after_file_phase :
  let s' := snd (indexRepositoryAsync (env_with two_files (λ _, false)) "r1"
                   (mkSt [] 0 [] 0 0)) in
  indexing_progress (rows s') = [5; 20; 30; 40; 90; 85; 92]
  ∧ non_decreasing (indexing_progress (rows s')) = false
  ∧ last (rows s') = Some (mkRow Completed 100 RepositoryReady None 2 2).
Proof. vm_compute. done. Qed.

(** *** What a run adds to the log and to the index *)

Lemma appends_quiet {A} P Q (m : M A) :
  (∀ s, rows (snd (m s)) = rows s ∧ es_files (snd (m s)) = es_files s) →
  appends P Q m.
Proof.
  intros H s. exists [], []. destruct (H s) as [-> ->]. rewrite !app_nil_r.
  split; [done|]. split; [constructor|]. split; [done|constructor].
Qed.

Lemma appends_bind {A B} P Q (m : M A) (k : A → M B) :
  appends P Q m → (∀ a, appends P Q (k a)) → appends P Q (bind m k).
Proof.
  intros Hm Hk s. destruct (Hm s) as (r1 & d1 & Hr1 & HP1 & Hd1 & HQ1). unfold bind.
  destruct (m s) as [[a|e] s1]; simpl in Hr1, Hd1.
  - destruct (Hk a s1) as (r2 & d2 & Hr2 & HP2 & Hd2 & HQ2).
    exists (r1 ++ r2), (d1 ++ d2). rewrite Hr2, Hr1, Hd2, Hd1, !app_assoc.
    split; [done|]. split; [by apply Forall_app|]. split; [done|by apply Forall_app].
  - by exists r1, d1.
Qed.

Lemma appends_try {A} P Q (m : M A) (h : string → M A) :
  appends P Q m → (∀ e, appends P Q (h e)) → appends P Q (try_catch m h).
Proof.
  intros Hm Hh s. destruct (Hm s) as (r1 & d1 & Hr1 & HP1 & Hd1 & HQ1). unfold try_catch.
  destruct (m s) as [[a|e] s1]; simpl in Hr1, Hd1.
  - by exists r1, d1.
  - destruct (Hh e s1) as (r2 & d2 & Hr2 & HP2 & Hd2 & HQ2).
    exists (r1 ++ r2), (d1 ++ d2). rewrite Hr2, Hr1, Hd2, Hd1, !app_assoc.
    split; [done|]. split; [by apply Forall_app|]. split; [done|by apply Forall_app].
Qed.

Lemma appends_update (env : Env) P Q st pr step e t i :
  P (mkRow st pr step e (default 0 t) (default 0 i)) →
  appends P Q (updateRepositoryStatus env st pr step e t i).
Proof.
  intros Hrow s. unfold updateRepositoryStatus.
  destruct (db_write env (db_calls s)); simpl.
  - exists [], []. rewrite !app_nil_r.
    split; [done|]. split; [constructor|]. split; [done|constructor].
  - eexists _, []. split; [reflexivity|].
    split; [constructor; [exact Hrow|constructor]|].
    split; [by rewrite app_nil_r|constructor].
Qed.

Lemma appends_indexFile (env : Env) P (Q : SearchIndex.FileDoc → Prop) doc :
  (es_file env (SearchIndex.file_path doc) = None → Q doc) →
  appends P Q (indexFile env doc).
Proof.
  intros Hdoc s. unfold indexFile.
  destruct (es_file env (SearchIndex.file_path doc)); simpl.
  - exists [], []. rewrite !app_nil_r.
    split; [done|]. split; [constructor|]. split; [done|constructor].
  - exists [], [doc]. rewrite app_nil_r. split; [done|]. split; [constructor|].
    split; [done|]. constructor; [by apply Hdoc|constructor].
Qed.

Lemma appends_sequence P Q (ms : list (M unit)) :
  Forall (appends P Q) ms → appends P Q (sequence ms).
Proof.
  induction 1 as [|m ms Hm _ IH]; simpl.
  - by apply appends_quiet.
  - apply appends_bind; [exact Hm|]. intros _. exact IH.
Qed.

Lemma appends_weaken {A} (P P' : ProgressRow → Prop) (Q Q' : SearchIndex.FileDoc → Prop)
    (m : M A) :
  (∀ r, P r → P' r) → (∀ d, Q d → Q' d) → appends P Q m → appends P' Q' m.
Proof.
  intros HP HQ Hm s. destruct (Hm s) as (r1 & d1 & Hr1 & HP1 & Hd1 & HQ1).
  exists r1, d1. split; [done|]. split; [by eapply Forall_impl|].
  split; [done|by eapply Forall_impl].
Qed.

Lemma appends_indexOneFile (env : Env) (repoId : string) (totalFiles : Z) (p : string) :
  appends indexing_row (run_document env repoId) (indexOneFile env repoId totalFiles p).
Proof.
  unfold indexOneFile, indexCallback.
  apply appends_try; [|intros _; by apply appends_quiet].
  apply appends_try; [|intros _; by apply appends_quiet].
  apply appends_bind.
  { apply appends_indexFile. simpl. intros Hes. exists p. split; [done|].
    unfold write_ok. by rewrite Hes. }
  intros _. apply appends_bind; [by apply appends_quiet|]. intros n.
  destruct (orb _ _); [|by apply appends_quiet].
  by apply appends_update.
Qed.

Lemma appends_file_phase (env : Env) (repoId : string) (totalFiles : Z)
    (files : list Node) :
  appends indexing_row (run_document env repoId)
    (indexFilesRecursively env repoId totalFiles files).
Proof.
  intros s. rewrite indexFilesRecursively_visited. revert s.
  apply appends_sequence. induction (visited files) as [|p ps IH]; constructor; [|exact IH].
  apply appends_indexOneFile.
Qed.

Lemma appends_run (env : Env) (repoId : string) :
  appends (λ _, True) (run_document env repoId) (indexRepositoryAsync env repoId).
Proof.
  unfold indexRepositoryAsync, wrap.
  repeat first
    [ apply appends_try | apply appends_bind
    | match goal with |- ∀ _, appends _ _ _ => intros ? end
    | by apply appends_update
    | by (eapply appends_weaken; [| |apply appends_file_phase])
    | apply appends_quiet; intros ?; unfold throw, ret, lift, lift_unit, get_indexed; by simpl
    | match goal with |- appends _ _ (if ?b then _ else _) => destruct b end ].
Qed.

Lemma content_for_not_empty (env : Env) (p : string) : content_for env p ≠ ""%string.
Proof.
  unfold content_for.
  destruct (fetch_file env p) as [[[content sz]|]|e]; try done.
  destruct (String.eqb_spec content ""); done.
Qed.

(** *** The rows of a run, in order *)

Lemma ends_bind {A B} Q (m : M A) (k : A → M B) :
  appends indexing_row Q m → (∀ a, ends_completed (k a)) → ends_completed (bind m k).
Proof.
  intros Hm Hk s. destruct (Hm s) as (r1 & d1 & Hr1 & HP1 & _). unfold bind.
  destruct (m s) as [[a|e] s1]; simpl in Hr1.
  - destruct (Hk a s1) as (pre & Hpre & Hrun). exists (r1 ++ pre).
    split; [by apply Forall_app|].
    destruct (k a s1) as [[b|e] s2].
    + destruct Hrun as (c & Hrows & Hc). exists c. by rewrite Hrows, Hr1, <- !app_assoc.
    + by rewrite Hrun, Hr1, <- !app_assoc.
  - by exists r1.
Qed.

Lemma ends_update_completed (env : Env) t i :
  ends_completed (updateRepositoryStatus env Completed 100 RepositoryReady None t i).
Proof.
  intros s. exists []. split; [constructor|]. unfold updateRepositoryStatus.
  destruct (db_write env (db_calls s)); simpl; [by rewrite app_nil_r|].
  eexists. split; [done|]. left. done.
Qed.

Lemma message_or_unknown_not_empty (e : string) : message_or_unknown e ≠ ""%string.
Proof. unfold message_or_unknown. by destruct (String.eqb_spec e ""). Qed.

Lemma run_body_ends (env : Env) (repoId : string) :
  ∃ body, indexRepositoryAsync env repoId = try_catch body
            (λ e, try_catch
                    (updateRepositoryStatus env Failed 0 IndexingFailed
                       (Some (message_or_unknown e)) None None)
                    (λ _, ret tt))
          ∧ ends_completed body.
Proof.
  eexists. split; [reflexivity|]. unfold wrap.
  repeat first
    [ apply ends_update_completed
    | eapply (ends_bind (run_document env repoId)); [|intros ?] ];
  repeat first
    [ apply appends_try | apply appends_bind
    | match goal with |- ∀ _, appends _ _ _ => intros ? end
    | by apply appends_update
    | by apply appends_file_phase
    | apply appends_quiet; intros ?; unfold throw, ret, lift, lift_unit, get_indexed; by simpl
    | match goal with |- appends _ _ (if ?b then _ else _) => destruct b end ].
Qed.


Lemma run_rows_shape (env : Env) (repoId : string) (s : St) :
  ∃ pre fin,
    rows (snd (indexRepositoryAsync env repoId s)) = rows s ++ pre ++ fin
    ∧ Forall indexing_row pre
    ∧ (fin = [] ∨ ∃ r, fin = [r] ∧ terminal_row r)
    ∧ ((∀ k, db_write env k = None) → fin ≠ []).
Proof.
  destruct (run_body_ends env repoId) as (body & -> & Hbody).
  destruct (Hbody s) as (pre & Hpre & Hrun). exists pre. unfold try_catch.
  destruct (body s) as [[[]|e] s1].
  - destruct Hrun as (c & Hrows & Hc). exists [c]. simpl.
    split; [exact Hrows|]. split; [exact Hpre|]. split; [right; by exists c|done].
  - unfold updateRepositoryStatus, ret.
    destruct (db_write env (db_calls s1)) as [e'|] eqn:Hw; simpl.
    + exists []. rewrite app_nil_r. split; [exact Hrun|]. split; [exact Hpre|].
      split; [by left|]. intros Hdb. by rewrite Hdb in Hw.
    + eexists [_]. rewrite Hrun, <- app_assoc. split; [reflexivity|].
      split; [exact Hpre|]. split; [|done]. right. eexists. split; [reflexivity|].
      right. simpl. repeat split; try done.
      eexists. split; [reflexivity|]. apply message_or_unknown_not_empty.
Qed.

(** Once the first status write is accepted, the run goes on from the log
    that ends with the 5 % row. *)
Lemma first_write_accepted {A} (env : Env) (k : unit → M A) (h : string → M A) (s : St) :
  db_write env (db_calls s) = None →
  try_catch
    (bind (wrap "Database error: "
             (updateRepositoryStatus env Indexing 5 FetchingFromGitHub None None None)) k)
    h s
  = try_catch (k tt) h
      (mkSt (rows s ++ [mkRow Indexing 5 FetchingFromGitHub None 0 0])
            (S (db_calls s)) (es_files s) (indexedFilesCount s) (failedFilesCount s)).
Proof.
  intros Hw. unfold wrap, try_catch, bind, updateRepositoryStatus. by rewrite Hw.
Qed.

Lemma run_first_row (env : Env) (repoId : string) (s : St) :
  db_write env (db_calls s) = None →
  ∃ added,
    rows (snd (indexRepositoryAsync env repoId s))
    = rows s ++ mkRow Indexing 5 FetchingFromGitHub None 0 0 :: added.
Proof.
  intros Hw. unfold indexRepositoryAsync. rewrite first_write_accepted by exact Hw.
  match goal with
  | |- ∃ _, rows (snd (?m ?s0)) = _ =>
      assert (Hm : appends (λ _, True) (run_document env repoId) m)
  end.
  { unfold wrap.
    repeat first
      [ apply appends_try | apply appends_bind
      | match goal with |- ∀ _, appends _ _ _ => intros ? end
      | by apply appends_update
      | by (eapply appends_weaken; [| |apply appends_file_phase])
      | apply appends_quiet; intros ?; unfold throw, ret, lift, lift_unit, get_indexed; by simpl
      | match goal with |- appends _ _ (if ?b then _ else _) => destruct b end ]. }
  match goal with
  | |- ∃ _, rows (snd (_ ?s0)) = _ => destruct (Hm s0) as (newRows & _ & Hrows & _)
  end.
  exists newRows. rewrite Hrows. simpl. by rewrite <- app_assoc.
Qed.

(** X5.  In a run whose first status write is accepted (it settles before
    its 15 s timer fires), the rows are left in this order: the 5 % row,
    rows with status [indexing] and no error message, then at most one
    last row, which is the [completed] row (progress 100) or the [failed]
    row (progress 0, counts 0, a non-empty error message).  The last row
    is missing only when the datastore refused a write. *)
Theorem run_ends_with_one_terminal_row (env : Env) (repoId : string) (s : St) :
  db_write env (db_calls s) = None →
  ∃ pre fin,
    rows (snd (indexRepositoryAsync env repoId s))
    = rows s ++ mkRow Indexing 5 FetchingFromGitHub None 0 0 :: pre ++ fin
    ∧ Forall indexing_row pre
    ∧ (fin = [] ∨ ∃ r, fin = [r] ∧ terminal_row r)
    ∧ ((∀ k, db_write env k = None) → fin ≠ []).
Proof.
  intros Hw.
  destruct (run_rows_shape env repoId s) as (pre & fin & Hrows & Hpre & Hfin & Hlast).
  destruct (run_first_row env repoId s Hw) as (added & Hfirst).
  rewrite Hrows in Hfirst. apply app_inv_head in Hfirst.
  destruct pre as [|r0 pre].
  - exfalso. simpl in Hfirst. destruct Hfin as [->|(r & -> & Hr)]; [done|].
    injection Hfirst as -> _.
    destruct Hr as [(Hst & _)|(Hst & _)]; discriminate Hst.
  - injection Hfirst as -> _. exists pre, fin.
    split; [by rewrite Hrows|]. split; [by apply Forall_inv_tail in Hpre|].
    split; [exact Hfin|exact Hlast].
Qed.

Lemma run_ends_with_one_terminal_row_witness :
  ∃ pre r,
    rows (snd (indexRepositoryAsync (env_with two_files (λ _, false)) "r1"
                 (mkSt [] 0 [] 0 0)))
    = mkRow Indexing 5 FetchingFromGitHub None 0 0 :: pre ++ [r] ∧ terminal_row r.
Proof.
  destruct (run_ends_with_one_terminal_row (env_with two_files (λ _, false)) "r1"
              (mkSt [] 0 [] 0 0) eq_refl)
    as (pre & fin & Hrows & _ & [->|(r & -> & Hr)] & Hfin).
  - exfalso. by apply Hfin.
  - exists pre, r. split; [exact Hrows|exact Hr].
Defined.

(** X6.  [indexRepositoryAsync] never throws, whatever its collaborators do:
    every error is caught and turned into the [failed] row.  The handler of
    the route therefore answers with a server error in two cases only,
    when the body of the request cannot be read and when reading the
    progress of the repository fails, and in both nothing was written. *)
Theorem run_never_throws (env : Env) :
  (∀ repoId s, fst (indexRepositoryAsync env repoId s) = Ok tt)
  ∧ (∀ body s details s',
       route env body s = (ServerError details, s')
       ↔ s' = s
         ∧ (body = Unreadable details
            ∨ ∃ req, body = Parsed req
                     ∧ falsy (repoId req) = false ∧ falsy (repoUrl req) = false
                     ∧ db_read env = Some details)).
Proof.
  split.
  - intros repoId s. unfold indexRepositoryAsync, try_catch.
    match goal with |- fst (match ?b with _ => _ end) = _ => destruct b as [[[]|e] s1] end;
      [done|].
    unfold updateRepositoryStatus, ret. by destruct (db_write env (db_calls s1)).
  - intros body s details s'. split.
    + destruct body as [message|req]; simpl.
      * intros [= -> ->]. split; [done|by left].
      * unfold POST.
        destruct (falsy (repoId req)) eqn:Hid; [done|].
        destruct (falsy (repoUrl req)) eqn:Hurl; [done|]. simpl.
        destruct (db_read env) as [e|].
        -- intros [= -> ->]. split; [done|]. right. by exists req.
        -- destruct (getIndexingProgress s) as [[[] pr step e t i]|]; try done.
           by destruct (pr >? 5).
    + intros [-> [->|(req & -> & Hid & Hurl & Hread)]]; simpl; [done|].
      unfold POST. by rewrite Hid, Hurl, Hread.
Qed.

Lemma run_never_throws_witness :
  fst (indexRepositoryAsync env_no_datastore "r1" (mkSt [] 0 [] 0 0)) = Ok tt
  ∧ route env_no_datastore (Unreadable "Unexpected end of JSON input") (mkSt [] 0 [] 0 0)
    = (ServerError "Unexpected end of JSON input", mkSt [] 0 [] 0 0).
Proof.
  destruct (run_never_throws env_no_datastore) as [Hrun Hroute].
  split; [apply Hrun|]. apply Hroute. split; [done|by left].
Defined.

(** X7.  When fetching the repository data fails (an error of the host, or the
    15 s timer), the first request for a repository leaves two rows, the
    5 % row and the [failed] row whose message is the error prefixed with
    "GitHub API error: "; nothing is written to the files index; and the
    answer of the route is still "Indexing completed". *)
Theorem repository_fetch_failure_fails_the_run
    (env : Env) (req : Request) (s : St) (e : string) :
  falsy (repoId req) = false → falsy (repoUrl req) = false →
  db_read env = None → getIndexingProgress s = None →
  repo_data env = Err e →
  db_write env (db_calls s) = None → db_write env (S (db_calls s)) = None →
  POST env req s
  = (IndexingCompleted,
     mkSt (rows s ++ [mkRow Indexing 5 FetchingFromGitHub None 0 0;
                      mkRow Failed 0 IndexingFailed
                            (Some ("GitHub API error: " +:+ e)%string) 0 0])
          (S (S (db_calls s))) (es_files s) 0 0).
Proof.
  intros Hid Hurl Hread Hrow Hrepo Hw1 Hw2. unfold POST.
  rewrite Hid, Hurl, Hread, Hrow. simpl. f_equal.
  unfold indexRepositoryAsync, try_catch, bind, wrap, try_catch, lift, throw, ret,
    updateRepositoryStatus, fresh_counters.
  cbn [rows db_calls es_files indexedFilesCount failedFilesCount default].
  rewrite Hw1, Hrepo.
  cbn [rows db_calls es_files indexedFilesCount failedFilesCount default].
  rewrite Hw2. simpl. by rewrite <- app_assoc.
Qed.

Lemma repository_fetch_failure_fails_the_run_witness :
  POST env_offline first_request (mkSt [] 0 [] 0 0)
  = (IndexingCompleted,
     mkSt [mkRow Indexing 5 FetchingFromGitHub None 0 0;
           mkRow Failed 0 IndexingFailed
                 (Some "GitHub API error: GitHub API timeout after 15 seconds"%string) 0 0]
          2 [] 0 0).
Proof.
  apply (repository_fetch_failure_fails_the_run env_offline first_request
           (mkSt [] 0 [] 0 0) "GitHub API timeout after 15 seconds");
    reflexivity.
Defined.

(** X8.  When the datastore refuses the first write of a run and the write of
    the [failed] row, the run stops there and leaves no trace: no row is
    added to the progress log and nothing is written to the files index. *)
Theorem datastore_down_leaves_no_trace
    (env : Env) (repoId : string) (s : St) (e1 e2 : string) :
  db_write env (db_calls s) = Some e1 → db_write env (S (db_calls s)) = Some e2 →
  indexRepositoryAsync env repoId s
  = (Ok tt, mkSt (rows s) (S (S (db_calls s))) (es_files s)
                 (indexedFilesCount s) (failedFilesCount s)).
Proof.
  intros Hw1 Hw2.
  unfold indexRepositoryAsync, try_catch, bind, wrap, try_catch, throw, ret,
    updateRepositoryStatus.
  rewrite Hw1. cbn [rows db_calls es_files indexedFilesCount failedFilesCount].
  by rewrite Hw2.
Qed.

Lemma datastore_down_leaves_no_trace_witness :
  indexRepositoryAsync env_no_datastore "r1" (mkSt [] 0 [] 0 0)
  = (Ok tt, mkSt [] 2 [] 0 0).
Proof.
  apply (datastore_down_leaves_no_trace env_no_datastore "r1" (mkSt [] 0 [] 0 0)
           "connection refused" "connection refused"); reflexivity.
Defined.

(** X9.  Every document a run adds to the files index belongs to the repository
    being indexed, has type ["file"], a content that is not empty (the
    fetched text or a placeholder) and a size equal to the length of that
    content; and a run only adds documents. *)
Theorem run_indexes_no_empty_document (env : Env) (repoId : string) (s : St) :
  ∃ docs,
    es_files (snd (indexRepositoryAsync env repoId s)) = es_files s ++ docs
    ∧ Forall (λ d, SearchIndex.repo_id d = repoId
                   ∧ SearchIndex.file_type d = "file"%string
                   ∧ SearchIndex.file_content d ≠ ""%string
                   ∧ SearchIndex.file_size d
                     = Z.of_nat (String.length (SearchIndex.file_content d))
                   ∧ es_file env (SearchIndex.file_path d) = None) docs.
Proof.
  destruct (appends_run env repoId s) as (_ & docs & _ & _ & Hdocs & Hall).
  exists docs. split; [exact Hdocs|].
  eapply Forall_impl; [exact Hall|]. intros d (p & -> & Hok). simpl.
  split; [done|]. split; [done|]. split; [apply content_for_not_empty|].
  split; [done|]. unfold write_ok in Hok. by destruct (es_file env p).
Qed.

(** X10.  A request that follows a run which ended [completed] is answered
    "already indexed" and changes nothing. *)
Theorem second_request_after_success_changes_nothing
    (env : Env) (req : Request) (data : RepoData) (s s1 : St) :
  falsy (repoId req) = false → falsy (repoUrl req) = false → db_read env = None →
  (∀ k, db_write env k = None) → repo_data env = Ok data → es_repo env = None →
  List.filter (write_ok env) (visited (files data)) ≠ [] →
  POST env req s = (IndexingCompleted, s1) →
  POST env req s1 = (AlreadyIndexed, s1).
Proof.
  intros Hid Hurl Hread Hdb Hrepo Hes Hwritten Hfirst.
  assert (Hs1 : s1 = snd (indexRepositoryAsync env (default ""%string (repoId req))
                            (fresh_counters s))).
  { unfold POST in Hfirst. rewrite Hid, Hurl, Hread in Hfirst. simpl in Hfirst.
    destruct (getIndexingProgress s) as [[[] pr step e t i]|]; try done;
      try (by injection Hfirst as <-).
    destruct (pr >? 5); [done|]. by injection Hfirst as <-. }
  destruct (run_outcome env (default ""%string (repoId req)) data s Hdb Hrepo Hes)
    as [_ Hlast].
  rewrite <- Hs1 in Hlast.
  destruct (decide (List.filter (write_ok env) (visited (files data)) = []));
    [contradiction|].
  unfold POST, getIndexingProgress. by rewrite Hid, Hurl, Hread, Hlast.
Qed.

Lemma second_request_after_success_changes_nothing_witness :
  let s1 := snd (POST (env_with two_files (λ _, false)) first_request
                   (mkSt [] 0 [] 0 0)) in
  POST (env_with two_files (λ _, false)) first_request s1 = (AlreadyIndexed, s1).
Proof.
  intros s1.
  apply (second_request_after_success_changes_nothing
           (env_with two_files (λ _, false)) first_request
           (mkRepoData "hello" two_files) (mkSt [] 0 [] 0 0) s1
           eq_refl eq_refl eq_refl (λ _, eq_refl) eq_refl eq_refl).
  - vm_compute. discriminate.
  - vm_compute. reflexivity.
Defined.


(** *** The files of a listing, counted and processed *)

Lemma forallb_Forall_true {A} (f : A → bool) (l : list A) :
  forallb f l = true ↔ Forall (λ x, f x = true) l.
Proof.
  induction l as [|x l IH]; simpl.
  - split; [constructor|done].
  - rewrite andb_true_iff, IH. split.
    + intros [Hx Hl]. by constructor.
    + intros H. by inversion H.
Qed.

Lemma files_are_leaves_unfold (p : string) (t : NodeType) (ch : list Node) :
  files_are_leaves (mkNode p t ch) = true
  ↔ (t = FileT → ch = []) ∧ Forall (λ c, files_are_leaves c = true) ch.
Proof.
  cbn [files_are_leaves type children]. rewrite andb_true_iff, forallb_Forall_true.
  destruct t; simpl.
  - rewrite bool_decide_eq_true. tauto.
  - split; [intros [_ H]; by split|tauto].
Qed.

Lemma visitedNode_flattenNode (f : Node) :
  files_are_leaves f = true → visitedNode f = flattenNode f.
Proof.
  induction f as [p t ch IH] using Node_forall_ind.
  rewrite files_are_leaves_unfold. intros [Hleaf Hch].
  cbn [visitedNode flattenNode type children path]. destruct t; simpl.
  - by rewrite (Hleaf eq_refl).
  - f_equal. clear Hleaf. induction IH as [|c ch Hc _ IHch]; [done|].
    inversion Hch as [|? ? Hc1 Hch1]; subst. simpl. f_equal; [by apply Hc|by apply IHch].
Qed.

Lemma visited_flattenFiles (files : list Node) :
  Forall (λ f, files_are_leaves f = true) files → visited files = flattenFiles files.
Proof.
  unfold visited, flattenFiles. induction 1 as [|f files Hf _ IH]; [done|].
  simpl. by rewrite (visitedNode_flattenNode f Hf), IH.
Qed.

Lemma reify_leaves (m : FileMap) :
  (∀ q e, m !! q = Some e → kind e = FileT → kids e = []) →
  ∀ fuel p, files_are_leaves (reify fuel m p) = true.
Proof.
  intros Hm. induction fuel as [|fuel IH]; intros p.
  - cbn [reify]. destruct (m !! p); by apply files_are_leaves_unfold.
  - cbn [reify]. destruct (m !! p) as [e|] eqn:He; apply files_are_leaves_unfold.
    + split.
      * intros Hk. by rewrite (Hm p e He Hk).
      * induction (kids e) as [|q qs IHq]; constructor; [apply IH|exact IHq].
    + by split.
Qed.

Lemma sortNode_leaves (localeCompare : string → string → Z) (f : Node) :
  files_are_leaves f = true → files_are_leaves (sortNode localeCompare f) = true.
Proof.
  induction f as [p t ch IH] using Node_forall_ind.
  rewrite files_are_leaves_unfold. intros [Hleaf Hch].
  cbn [sortNode path type children]. apply files_are_leaves_unfold. split.
  - intros Ht. by rewrite (Hleaf Ht).
  - rewrite sortItems_perm. clear Hleaf.
    induction IH as [|c ch Hc _ IHch]; [constructor|].
    inversion Hch as [|? ? Hc1 Hch1]; subst. constructor; [by apply Hc|by apply IHch].
Qed.

Lemma built_tree_leaves (localeCompare : string → string → Z) (treeItems : list TreeItem) :
  well_formed treeItems → git_like treeItems →
  Forall (λ f, files_are_leaves f = true) (buildFileTree localeCompare treeItems).
Proof.
  intros Hwf Hgit. destruct (build_store_spec treeItems Hwf) as (m & Hm & Hit & Hout).
  set (paths := map item_path treeItems) in *.
  assert (Hleaf : ∀ q e, m !! q = Some e → kind e = FileT → kids e = []).
  { intros q e Hq Hk. destruct (decide (q ∈ paths)) as [Hin|Hnot];
      [|by rewrite (Hout q Hnot) in Hq].
    apply list_elem_of_fmap in Hin as (it & -> & Hin).
    rewrite (Hit it Hin) in Hq. injection Hq as <-. simpl in *.
    apply filter_none. intros q Hq Hpar.
    apply list_elem_of_fmap in Hq as (it' & -> & Hin').
    unfold git_like in Hgit. rewrite Forall_forall in Hgit.
    assert (Hfile : is_file_item it = true).
    { by rewrite <- node_type_of_file, Hk. }
    specialize (Hgit it Hin Hfile). rewrite Forall_forall in Hgit.
    unfold parentOf in Hpar. destruct (isRoot (item_path it')) eqn:Hroot; [done|].
    destruct (listed paths (parentPath (item_path it'))); [|done].
    injection Hpar as Hpar. by apply (Hgit it' Hin' Hroot). }
  unfold buildFileTree. rewrite Hm. unfold sortRecursively. rewrite sortItems_perm.
  clear Hm. induction (roots_in paths) as [|r rs IH]; cbn [map]; constructor; [|exact IH].
  apply sortNode_leaves, reify_leaves, Hleaf.
Qed.

Lemma flatten_built_perm (localeCompare : string → string → Z) (treeItems : list TreeItem) :
  well_formed treeItems →
  flattenFiles (buildFileTree localeCompare treeItems) ≡ₚ file_paths treeItems.
Proof.
  intros Hwf.
  destruct (rebuilt_nodes localeCompare treeItems Hwf) as (m & Hkind & _ & Hnodes).
  rewrite flattenFiles_nodes, Hnodes, tagged_file_paths; [done|].
  by apply Forall_forall.
Qed.

(** X11.  For a listing of the host in which no path occurs twice and nothing
    lies under an entry that is not a ["tree"], the tree built from it is
    walked by the indexer exactly as it is flattened: the files processed
    by [indexFilesRecursively] are the non-tree paths of the listing, each
    once, and [countFilesRecursively] (the [total_files] of the run) is
    their number. *)
Theorem every_listed_file_is_processed_once
    (localeCompare : string → string → Z) (treeItems : list TreeItem) :
  well_formed treeItems → git_like treeItems →
  let files := buildFileTree localeCompare treeItems in
  visited files = flattenFiles files
  ∧ visited files ≡ₚ file_paths treeItems
  ∧ countFilesRecursively files = Z.of_nat (length (file_paths treeItems)).
Proof.
  intros Hwf Hgit files.
  assert (Heq : visited files = flattenFiles files).
  { apply visited_flattenFiles. by apply built_tree_leaves. }
  assert (Hperm : visited files ≡ₚ file_paths treeItems).
  { rewrite Heq. by apply flatten_built_perm. }
  split; [exact Heq|]. split; [exact Hperm|].
  by rewrite countFilesRecursively_visited, Hperm.
Qed.

Lemma every_listed_file_is_processed_once_witness :
  countFilesRecursively (buildFileTree codeCompare sample_listing) = 4.
Proof.
  assert (Hwf : well_formed sample_listing).
  { unfold well_formed. apply (bool_decide_unpack _). by vm_compute. }
  assert (Hgit : git_like sample_listing).
  { unfold git_like. apply (bool_decide_unpack _). by vm_compute. }
  destruct (every_listed_file_is_processed_once codeCompare sample_listing Hwf Hgit)
    as (_ & _ & H).
  exact H.
Defined.


(** *** The log of a run that the datastore never refuses *)

Lemma indexOneFile_rows (env : Env) (repoId : string) (totalFiles : Z)
    (p : string) (s : St) :
  (∀ k, db_write env k = None) →
  ∃ s',
    indexOneFile env repoId totalFiles p s = (Ok tt, s')
    ∧ rows s' = rows s ++ file_rows env totalFiles (indexedFilesCount s)
                            (if write_ok env p then 1 else 0)
    ∧ indexedFilesCount s'
      = indexedFilesCount s + (if write_ok env p then 1 else 0)
    ∧ failedFilesCount s'
      = failedFilesCount s + (if write_ok env p then 0 else 1)
    ∧ es_files s'
      = es_files s ++ (if write_ok env p
                       then [SearchIndex.fileData repoId p (content_for env p)]
                       else []).
Proof.
  intros Hdb.
  unfold indexOneFile, indexCallback, try_catch, bind, indexFile, incr_indexed,
    incr_failed, ret, write_ok. simpl.
  destruct (es_file env p) as [e|]; simpl.
  - eexists. split; [done|]. simpl. rewrite !app_nil_r. repeat split; lia.
  - destruct (orb _ _) eqn:Hcond; simpl.
    + unfold updateRepositoryStatus. rewrite Hdb. simpl.
      eexists. split; [done|]. simpl. rewrite ?app_nil_r. repeat split; (done || lia).
    + eexists. split; [done|]. simpl. rewrite ?app_nil_r. repeat split; (done || lia).
Qed.

Lemma file_phase_rows (env : Env) (repoId : string) (totalFiles : Z)
    (paths : list string) :
  (∀ k, db_write env k = None) →
  ∀ s, ∃ s',
    sequence (map (indexOneFile env repoId totalFiles) paths) s = (Ok tt, s')
    ∧ rows s' = rows s ++ file_rows env totalFiles (indexedFilesCount s)
                            (length (List.filter (write_ok env) paths))
    ∧ indexedFilesCount s'
      = indexedFilesCount s + Z.of_nat (length (List.filter (write_ok env) paths))
    ∧ failedFilesCount s'
      = failedFilesCount s
        + Z.of_nat (length (List.filter (λ p, negb (write_ok env p)) paths))
    ∧ es_files s'
      = es_files s ++ map (λ p, SearchIndex.fileData repoId p (content_for env p))
                          (List.filter (write_ok env) paths).
Proof.
  intros Hdb. induction paths as [|p paths IH]; intros s.
  - exists s. simpl. rewrite !app_nil_r. repeat split; lia.
  - destruct (indexOneFile_rows env repoId totalFiles p s Hdb)
      as (s1 & H1 & Hr1 & Hn1 & Hf1 & He1).
    destruct (IH s1) as (s2 & H2 & Hr2 & Hn2 & Hf2 & He2).
    exists s2. simpl. unfold bind at 1. rewrite H1. split; [exact H2|].
    rewrite Hr2, Hn2, Hf2, He2, Hr1, Hn1, Hf1, He1.
    destruct (write_ok env p); simpl.
    + rewrite <- !app_assoc. simpl. repeat split; lia.
    + rewrite !app_nil_r, Z.add_0_r. repeat split; lia.
Qed.

(** X12.  The log of a run in which the datastore accepts every row, the
    repository data are fetched, the repository is indexed and at least
    one file is written to the index: the rows at 5, 20, 30 and 40 %, one
    row for each even count of written files and for the count that equals
    the total, the rows at 85 and 92 %, then the [completed] row.  Only the
    30 % row, the file rows and the last row carry the number of files: at
    20, 40, 85 and 92 % [total_files] and [indexed_files] are written as
    0. *)
Theorem log_of_a_successful_run
    (env : Env) (repoId : string) (data : RepoData) (s : St) :
  (∀ k, db_write env k = None) → repo_data env = Ok data → es_repo env = None →
  let total := countFilesRecursively (files data) in
  let written := Z.of_nat (length (List.filter (write_ok env) (visited (files data)))) in
  0 < written →
  rows (snd (indexRepositoryAsync env repoId (fresh_counters s)))
  = rows s
    ++ [mkRow Indexing 5 FetchingFromGitHub None 0 0;
        mkRow Indexing 20 AnalyzingStructure None 0 0;
        mkRow Indexing 30 (FoundFiles total) None total 0;
        mkRow Indexing 40 BuildingSearchIndex None 0 0]
    ++ file_rows env total 0 (Z.to_nat written)
    ++ [mkRow Indexing 85 FetchedFileContents None 0 0;
        mkRow Indexing 92 GeneratingInsights None 0 0;
        mkRow Completed 100 RepositoryReady None total written].
Proof.
  intros Hdb Hrepo Hes total written Hpos.
  unfold indexRepositoryAsync, try_catch, bind, wrap, try_catch, lift, lift_unit,
    get_indexed, throw, ret, updateRepositoryStatus, fresh_counters.
  repeat (first [rewrite Hdb | rewrite Hrepo | rewrite Hes];
          cbn [rows db_calls es_files indexedFilesCount failedFilesCount default files]).
  fold total.
  match goal with
  | |- context [indexFilesRecursively ?e ?r ?t ?f ?st] =>
      rewrite (indexFilesRecursively_visited e r t f st);
      destruct (file_phase_rows e r t (visited f) Hdb st)
        as (s1 & H1 & Hr1 & Hn1 & _ & _)
  end.
  rewrite H1. fold written in Hr1, Hn1.
  cbn [rows db_calls es_files indexedFilesCount failedFilesCount] in Hr1, Hn1.
  repeat (rewrite Hdb; cbn [rows db_calls es_files indexedFilesCount failedFilesCount default]).
  rewrite Hn1, Z.add_0_l.
  destruct (Z.eqb_spec written 0) as [H0|_]; [lia|].
  repeat (rewrite Hdb; cbn [rows db_calls es_files indexedFilesCount failedFilesCount default snd]).
  rewrite Hr1. unfold written. rewrite Nat2Z.id.
  by rewrite <- !app_assoc.
Qed.

Lemma log_of_a_successful_run_witness :
  map (λ r, (progress r, total_files r, indexed_files r))
      (rows (snd (indexRepositoryAsync env_refusing_b "r1"
                    (fresh_counters (mkSt [] 0 [] 0 0)))))
  = [(5, 0, 0); (20, 0, 0); (30, 3, 0); (40, 0, 0); (73, 3, 2);
     (85, 0, 0); (92, 0, 0); (100, 3, 2)].
Proof.
  rewrite (log_of_a_successful_run env_refusing_b "r1" (mkRepoData "hello" three_files)
             (mkSt [] 0 [] 0 0) (λ _, eq_refl) eq_refl eq_refl);
    [reflexivity|vm_compute; reflexivity].
Defined.

End Orchestrator.

(** ** Filename detection in a question (the [query-ai] route) *)

Module Ranker.

(** *** Strings *)

Definition is_upper (c : ascii) : bool :=
  let n := nat_of_ascii c in ((65 <=? n) && (n <=? 90))%nat.

Definition lower (c : ascii) : ascii :=
  if is_upper c then ascii_of_nat (nat_of_ascii c + 32) else c.

(** [s.toLowerCase()], on ASCII text *)
Fixpoint toLowerCase (s : string) : string :=
  match s with
  | EmptyString => EmptyString
  | String c s' => String (lower c) (toLowerCase s')
  end.

(** [s.endsWith(suffix)] *)
Fixpoint endsWith (suffix s : string) : bool :=
  String.eqb s suffix
  || match s with
     | EmptyString => false
     | String _ s' => endsWith suffix s'
     end.

(** [s.startsWith(pre)] *)
Fixpoint startsWith (pre s : string) : bool :=
  match pre, s with
  | EmptyString, _ => true
  | String _ _, EmptyString => false
  | String a pre', String b s' => Ascii.eqb a b && startsWith pre' s'
  end.

(** [s.includes(sub)]: [sub] starts at some position of [s] *)
Fixpoint includes (sub s : string) : bool :=
  startsWith sub s
  || match s with
     | EmptyString => false
     | String _ s' => includes sub s'
     end.

(** *** The regular expression
    [/([\w\-\/]+\.(?:ts|tsx|js|...|css))\b/i] *)










(** *** Candidates and their scores *)

(** A hit of [searchFilesInRepository]. *)
Record Candidate := mkCandidate {
  file_path : option string;
  file_content : option string
}.

Definition path_of (c : Candidate) : string := default ""%string (file_path c).

(** [!!c.file_path] *)
Definition has_path (c : Candidate) : bool := negb (String.eqb (path_of c) "").











Fixpoint no_slash (s : string) : bool :=
  match s with
  | EmptyString => true
  | String c s' => negb (Ascii.eqb c "/") && no_slash s'
  end.


Definition hit_of (p : string) : Candidate := mkCandidate (Some p) (Some "text"%string).




(** *** Retrieval: the hits of the searches, deduplicated and cut to eight *)

(** [(h.file_path || '').split('/').pop()?.toLowerCase() || ''] *)
Definition basename (h : Candidate) : string :=
  toLowerCase (default ""%string (last (FileTree.split (path_of h)))).

(** The second [filter] that builds [ranked]: a hit is dropped when its
    path or its base name has been seen, and kept otherwise, its path and
    base name joining [seenPaths] and [seenBase]. *)
Fixpoint distinct_from (seenPaths seenBase : gset string) (hits : list Candidate)
  : list Candidate :=
  match hits with
  | [] => []
  | h :: rest =>
      if bool_decide (path_of h ∈ seenPaths) then distinct_from seenPaths seenBase rest
      else if bool_decide (basename h ∈ seenBase) then distinct_from seenPaths seenBase rest
      else h :: distinct_from ({[path_of h]} ∪ seenPaths) ({[basename h]} ∪ seenBase) rest
  end.

(** [allResults.filter(h => h?.file_path).filter(...)], before [.sort]. *)
Definition deduplicated (allResults : list Candidate) : list Candidate :=
  distinct_from ∅ ∅ (List.filter has_path allResults).

Definition limit : nat := 8.

(** [if (guard) diverse.push(ranked[i])]; each guard of the source implies
    that [i] is an index of [ranked]. *)
Definition pushed (guard : bool) (ranked : list Candidate) (i : nat) : list Candidate :=
  if guard then match ranked !! i with Some r => [r] | None => [] end else [].

(** [diverse] before the loop: the first two hits, the middle one and the
    last one. *)
Definition seeds (ranked : list Candidate) : list Candidate :=
  let n := length ranked in
  pushed (0 <? n)%nat ranked 0 ++ pushed (1 <? n)%nat ranked 1
  ++ pushed (3 <? n)%nat ranked (n / 2) ++ pushed (4 <? n)%nat ranked (n - 1).

(** [diverse.find(d => d.file_path === r.file_path)] finds something. *)
Definition found (diverse : list Candidate) (r : Candidate) : bool :=
  existsb (λ d, bool_decide (file_path d = file_path r)) diverse.

(** [for (const r of ranked) { if (diverse.length >= limit) break; ... }] *)
Fixpoint fill (diverse ranked : list Candidate) : list Candidate :=
  match ranked with
  | [] => diverse
  | r :: rest =>
      if (limit <=? length diverse)%nat then diverse
      else if found diverse r then fill diverse rest
      else fill (diverse ++ [r]) rest
  end.

(** [const unique = diverse.slice(0, limit)] *)
Definition unique (ranked : list Candidate) : list Candidate :=
  take limit (fill (seeds ranked) ranked).

(** Ten hits, two of them named utils.ts. *)
Definition ten_hits : list Candidate :=
  map hit_of ["a.ts"; "b.ts"; "src/utils.ts"; "c.ts"; "d.ts"; "lib/utils.ts";
              "e.ts"; "f.ts"; "g.ts"; "h.ts"]%string.


(** *** What [endsWith] and [includes] decide *)




Lemma split_no_slash (s : string) : no_slash s = true → FileTree.split s = [s].
Proof.
  induction s as [|c s IH]; simpl; [done|].
  intros H. apply andb_true_iff in H as [Hc Hs].
  destruct (Ascii.eqb c "/"); [done|]. by rewrite (IH Hs).
Qed.


(** *** The head of the sorted candidates *)














(** *** One hit per base name *)

Lemma distinct_from_spec (hits : list Candidate) :
  ∀ sp sb : gset string,
    (∀ h, path_of h ∈ sp → basename h ∈ sb) →
    Forall (λ h, basename h ∉ sb) (distinct_from sp sb hits)
    ∧ NoDup (basename <$> distinct_from sp sb hits)
    ∧ distinct_from sp sb hits `sublist_of` hits
    ∧ (∀ h, h ∈ hits →
         basename h ∈ sb ∨ basename h ∈ basename <$> distinct_from sp sb hits).
Proof.
  induction hits as [|h rest IH]; intros sp sb Hinv.
  - simpl. split; [constructor|]. split; [constructor|]. split; [done|].
    intros h Hh. by apply elem_of_nil in Hh.
  - cbn [distinct_from].
    destruct (bool_decide_reflect (path_of h ∈ sp)) as [Hp|Hp].
    { destruct (IH sp sb Hinv) as (Hout & Hnd & Hsub & Hcov).
      split; [done|]. split; [done|]. split; [by apply sublist_cons|].
      intros x [->|Hx]%elem_of_cons; [left; by apply Hinv|by apply Hcov]. }
    destruct (bool_decide_reflect (basename h ∈ sb)) as [Hb|Hb].
    { destruct (IH sp sb Hinv) as (Hout & Hnd & Hsub & Hcov).
      split; [done|]. split; [done|]. split; [by apply sublist_cons|].
      intros x [->|Hx]%elem_of_cons; [by left|by apply Hcov]. }
    destruct (IH ({[path_of h]} ∪ sp) ({[basename h]} ∪ sb))
      as (Hout & Hnd & Hsub & Hcov).
    { intros x [Hx|Hx]%elem_of_union.
      - apply elem_of_singleton in Hx. apply elem_of_union. left.
        apply elem_of_singleton. unfold basename. by rewrite Hx.
      - apply elem_of_union. right. by apply Hinv. }
    split; [|split; [|split]].
    + constructor; [done|]. eapply Forall_impl; [exact Hout|].
      intros x Hx Hin. apply Hx. apply elem_of_union. by right.
    + rewrite fmap_cons. apply NoDup_cons. split; [|done].
      intros (x & Heq & Hx)%list_elem_of_fmap.
      rewrite Forall_forall in Hout. apply (Hout x Hx).
      apply elem_of_union. left. by apply elem_of_singleton.
    + by apply sublist_skip.
    + intros x [->|Hx]%elem_of_cons.
      * right. rewrite fmap_cons. left.
      * destruct (Hcov x Hx) as [[Hs|Hs]%elem_of_union|Hr].
        -- right. apply elem_of_singleton in Hs. rewrite Hs, fmap_cons. left.
        -- by left.
        -- right. rewrite fmap_cons. by right.
Qed.

Lemma NoDup_fmap_inj_on {A B} (f : A → B) (l : list A) :
  NoDup (f <$> l) → ∀ x y, x ∈ l → y ∈ l → f x = f y → x = y.
Proof.
  induction l as [|z l IH]; intros Hnd x y Hx Hy Heq; [by apply elem_of_nil in Hx|].
  rewrite fmap_cons in Hnd. apply NoDup_cons in Hnd as [Hz Hnd].
  apply elem_of_cons in Hx as [->|Hx]; apply elem_of_cons in Hy as [->|Hy].
  - done.
  - exfalso. apply Hz. apply list_elem_of_fmap. by exists y.
  - exfalso. apply Hz. apply list_elem_of_fmap. by exists x.
  - by apply IH.
Qed.

Lemma filter_sublist {A} (f : A → bool) (l : list A) : List.filter f l `sublist_of` l.
Proof.
  induction l as [|x l IH]; simpl; [done|].
  destruct (f x); [by apply sublist_skip|by apply sublist_cons].
Qed.

Lemma has_path_file_path (h : Candidate) :
  has_path h = true → file_path h = Some (path_of h).
Proof.
  unfold has_path, path_of. destruct (file_path h); simpl; [done|discriminate].
Qed.

Lemma deduplicated_spec (allResults : list Candidate) :
  NoDup (basename <$> deduplicated allResults)
  ∧ NoDup (file_path <$> deduplicated allResults)
  ∧ deduplicated allResults `sublist_of` allResults
  ∧ Forall (λ h, has_path h = true) (deduplicated allResults)
  ∧ (∀ h, h ∈ allResults → has_path h = true →
       basename h ∈ basename <$> deduplicated allResults).
Proof.
  unfold deduplicated.
  destruct (distinct_from_spec (List.filter has_path allResults) ∅ ∅)
    as (_ & Hnd & Hsub & Hcov); [intros h Hh; by apply elem_of_empty in Hh|].
  assert (Hpaths : Forall (λ h, has_path h = true)
                     (distinct_from ∅ ∅ (List.filter has_path allResults))).
  { apply Forall_forall. intros h Hh.
    assert (Hin : h ∈ List.filter has_path allResults).
    { eapply elem_of_sublist; [exact Hh|exact Hsub]. }
    apply list_elem_of_In, filter_In in Hin. tauto. }
  split; [exact Hnd|]. split; [|split; [|split]].
  - apply NoDup_fmap_2_strong; [|by apply NoDup_fmap_1 in Hnd].
    intros x y Hx Hy Heq. apply (NoDup_fmap_inj_on basename _ Hnd x y Hx Hy).
    unfold basename, path_of. by rewrite Heq.
  - etrans; [exact Hsub|apply filter_sublist].
  - exact Hpaths.
  - intros h Hh Hp. destruct (Hcov h) as [Hempty|Hin]; [|by apply elem_of_empty in Hempty|done].
    apply list_elem_of_In, filter_In. split; [by apply list_elem_of_In|done].
Qed.

(** X13.  Deduplication keeps one hit per file name: the hits kept have pairwise
    distinct base names (compared in lower case) and pairwise distinct
    paths, they are hits of the searches in their original order, and every
    base name found by a search is the base name of a hit that is kept.  Of
    src/utils.ts and lib/utils.ts only the first returned survives. *)
Theorem one_hit_per_base_name (allResults : list Candidate) :
  NoDup (basename <$> deduplicated allResults)
  ∧ NoDup (file_path <$> deduplicated allResults)
  ∧ deduplicated allResults `sublist_of` allResults
  ∧ (∀ h, h ∈ allResults → has_path h = true →
       basename h ∈ basename <$> deduplicated allResults)
  ∧ (∀ a b, a ∈ deduplicated allResults → b ∈ deduplicated allResults →
       basename a = basename b → a = b).
Proof.
  destruct (deduplicated_spec allResults) as (Hnd & Hp & Hsub & _ & Hcov).
  split; [exact Hnd|]. split; [exact Hp|]. split; [exact Hsub|]. split; [exact Hcov|].
  by apply NoDup_fmap_inj_on.
Qed.

Lemma one_hit_per_base_name_witness :
  path_of <$> deduplicated ten_hits
  = ["a.ts"; "b.ts"; "src/utils.ts"; "c.ts"; "d.ts"; "e.ts"; "f.ts"; "g.ts"; "h.ts"]%string
  ∧ ∀ a b, a ∈ deduplicated ten_hits → b ∈ deduplicated ten_hits →
           basename a = basename b → a = b.
Proof.
  split; [by vm_compute|].
  destruct (one_hit_per_base_name ten_hits) as (_ & _ & _ & _ & H). exact H.
Defined.


(** *** The eight hits that are kept *)

Lemma found_spec (d : list Candidate) (r : Candidate) :
  found d r = true ↔ file_path r ∈ file_path <$> d.
Proof.
  unfold found. rewrite existsb_exists, list_elem_of_fmap. split.
  - intros (x & Hx & Heq). exists x. apply bool_decide_eq_true in Heq.
    split; [done|by apply list_elem_of_In].
  - intros (x & Heq & Hx). exists x. split; [by apply list_elem_of_In|].
    by apply bool_decide_eq_true.
Qed.

Lemma fill_extends (ranked : list Candidate) :
  ∀ d, ∃ rest, fill d ranked = d ++ rest ∧ ∀ x, x ∈ rest → x ∈ ranked.
Proof.
  induction ranked as [|r ranked IH]; intros d; cbn [fill].
  - exists []. by rewrite app_nil_r.
  - destruct (limit <=? length d)%nat.
    { exists []. rewrite app_nil_r. split; [done|]. intros x Hx. by apply elem_of_nil in Hx. }
    destruct (found d r).
    + destruct (IH d) as (rest & -> & Hrest). exists rest. split; [done|].
      intros x Hx. right. by apply Hrest.
    + destruct (IH (d ++ [r])) as (rest & -> & Hrest). exists (r :: rest).
      rewrite <- app_assoc. split; [done|].
      intros x [->|Hx]%elem_of_cons; [left|right; by apply Hrest].
Qed.

Lemma fill_length (ranked : list Candidate) :
  ∀ d, (length d <= limit)%nat → (length (fill d ranked) <= limit)%nat.
Proof.
  induction ranked as [|r ranked IH]; intros d Hd; cbn [fill]; [done|].
  destruct (Nat.leb_spec limit (length d)); [done|].
  destruct (found d r); [by apply IH|].
  apply IH. rewrite length_app. simpl. lia.
Qed.

Lemma fill_nodup (ranked : list Candidate) :
  ∀ d, NoDup (file_path <$> d) → NoDup (file_path <$> fill d ranked).
Proof.
  induction ranked as [|r ranked IH]; intros d Hd; cbn [fill]; [done|].
  destruct (limit <=? length d)%nat; [done|].
  destruct (found d r) eqn:Hf; [by apply IH|].
  apply IH. rewrite fmap_app. simpl. apply NoDup_app. split; [done|].
  split; [|apply NoDup_singleton].
  intros p Hp Hr. apply list_elem_of_singleton in Hr. subst p.
  apply found_spec in Hp. congruence.
Qed.

Lemma fill_complete (ranked : list Candidate) :
  ∀ d, (length (fill d ranked) < limit)%nat →
       ∀ x, x ∈ ranked → file_path x ∈ file_path <$> fill d ranked.
Proof.
  induction ranked as [|r ranked IH]; intros d Hlen x Hx;
    [by apply elem_of_nil in Hx|].
  cbn [fill] in *.
  destruct (Nat.leb_spec limit (length d)) as [Hfull|_]; [lia|].
  destruct (found d r) eqn:Hf.
  - apply elem_of_cons in Hx as [->|Hx]; [|by apply IH].
    apply found_spec in Hf. destruct (fill_extends ranked d) as (rest & -> & _).
    rewrite fmap_app. apply elem_of_app. by left.
  - apply elem_of_cons in Hx as [->|Hx]; [|by apply IH].
    destruct (fill_extends ranked (d ++ [r])) as (rest & -> & _).
    rewrite !fmap_app. apply elem_of_app. left. apply elem_of_app. right.
    simpl. left.
Qed.

Lemma pushed_elem (g : bool) (ranked : list Candidate) (i : nat) (x : Candidate) :
  x ∈ pushed g ranked i → ranked !! i = Some x.
Proof.
  unfold pushed. destruct g; [|by intros H; apply elem_of_nil in H].
  destruct (ranked !! i); [|by intros H; apply elem_of_nil in H].
  by intros ->%list_elem_of_singleton.
Qed.

Lemma seeds_in (ranked : list Candidate) (x : Candidate) :
  x ∈ seeds ranked → x ∈ ranked.
Proof.
  unfold seeds.
  intros [H|[H|[H|H]%elem_of_app]%elem_of_app]%elem_of_app;
    apply pushed_elem in H; by eapply list_elem_of_lookup_2.
Qed.

Lemma pushed_length (g : bool) (ranked : list Candidate) (i : nat) :
  (length (pushed g ranked i) <= 1)%nat.
Proof. unfold pushed. destruct g, (ranked !! i); simpl; lia. Qed.

Lemma seeds_length (ranked : list Candidate) : (length (seeds ranked) <= 4)%nat.
Proof.
  unfold seeds. rewrite !length_app.
  pose proof (pushed_length (0 <? length ranked)%nat ranked 0).
  pose proof (pushed_length (1 <? length ranked)%nat ranked 1).
  pose proof (pushed_length (3 <? length ranked)%nat ranked (length ranked / 2)).
  pose proof (pushed_length (4 <? length ranked)%nat ranked (length ranked - 1)).
  lia.
Qed.

(** With five hits or more the four seeds are the hits of rank 1 and 2,
    the one in the middle and the last one. *)
Lemma seeds_of_five (ranked : list Candidate) :
  (4 < length ranked)%nat →
  ∃ a b m l,
    ranked !! 0%nat = Some a ∧ ranked !! 1%nat = Some b
    ∧ ranked !! (length ranked / 2)%nat = Some m ∧ last ranked = Some l
    ∧ seeds ranked = [a; b; m; l].
Proof.
  intros Hn.
  destruct (lookup_lt_is_Some_2 ranked 0) as [a Ha]; [lia|].
  destruct (lookup_lt_is_Some_2 ranked 1) as [b Hb]; [lia|].
  destruct (lookup_lt_is_Some_2 ranked (length ranked / 2)) as [m Hm].
  { apply Nat.div_lt; lia. }
  destruct (lookup_lt_is_Some_2 ranked (length ranked - 1)) as [l Hl]; [lia|].
  exists a, b, m, l. split; [done|]. split; [done|]. split; [done|].
  split; [rewrite last_lookup; by replace (Init.Nat.pred (length ranked))
                                    with (length ranked - 1)%nat by lia|].
  unfold seeds, pushed. rewrite Ha, Hb, Hm, Hl.
  destruct (Nat.ltb_spec 0 (length ranked)); [|lia].
  destruct (Nat.ltb_spec 1 (length ranked)); [|lia].
  destruct (Nat.ltb_spec 3 (length ranked)); [|lia].
  destruct (Nat.ltb_spec 4 (length ranked)); [|lia].
  done.
Qed.

Lemma seeds_short (ranked : list Candidate) :
  (length ranked <= 4)%nat →
  seeds ranked = take (if decide (length ranked = 4%nat) then 3 else 2)%nat ranked.
Proof.
  intros Hn. destruct ranked as [|a [|b [|c [|d [|e rest]]]]]; try done.
  simpl in Hn. lia.
Qed.

Lemma seeds_nodup (ranked : list Candidate) :
  NoDup (file_path <$> ranked) → NoDup (file_path <$> seeds ranked).
Proof.
  intros Hnd. destruct (Nat.le_gt_cases (length ranked) 4) as [Hle|Hgt].
  - rewrite (seeds_short ranked Hle).
    eapply sublist_NoDup; [exact Hnd|]. rewrite fmap_take. apply sublist_take.
  - destruct (seeds_of_five ranked Hgt) as (a & b & m & l & Ha & Hb & Hm & Hl & ->).
    rewrite last_lookup in Hl.
    assert (Hidx : ∀ i j x y, ranked !! i = Some x → ranked !! j = Some y → i ≠ j →
                              file_path x ≠ file_path y).
    { intros i j x y Hi Hj Hij Heq. apply Hij.
      apply (NoDup_lookup (file_path <$> ranked) i j (file_path x) Hnd);
        rewrite list_lookup_fmap; [by rewrite Hi|by rewrite Hj, Heq]. }
    assert (Hmid : (2 <= length ranked / 2 < length ranked - 1)%nat).
    { pose proof (Nat.div_mod_eq (length ranked) 2).
      pose proof (Nat.mod_upper_bound (length ranked) 2). lia. }
    simpl. repeat (apply NoDup_cons; split); try apply NoDup_nil_2;
      rewrite ?not_elem_of_cons; repeat split; try apply not_elem_of_nil;
      eapply Hidx; try eassumption; lia.
Qed.

Lemma unique_is_fill (ranked : list Candidate) :
  unique ranked = fill (seeds ranked) ranked.
Proof.
  unfold unique. apply take_ge, fill_length. pose proof (seeds_length ranked).
  unfold limit. lia.
Qed.


Lemma unique_in (ranked : list Candidate) (x : Candidate) :
  x ∈ unique ranked → x ∈ ranked.
Proof.
  rewrite unique_is_fill. destruct (fill_extends ranked (seeds ranked)) as (rest & -> & Hrest).
  intros [Hx|Hx]%elem_of_app; [by apply seeds_in|by apply Hrest].
Qed.

Lemma unique_nodup (ranked : list Candidate) :
  NoDup (file_path <$> ranked) → NoDup (file_path <$> unique ranked).
Proof. intros Hnd. rewrite unique_is_fill. by apply fill_nodup, seeds_nodup. Qed.

Lemma unique_length (ranked : list Candidate) :
  NoDup (file_path <$> ranked) →
  length (unique ranked) = (limit `min` length ranked)%nat.
Proof.
  intros Hnd. pose proof (unique_nodup ranked Hnd) as Hu.
  assert (Hle : (length (unique ranked) <= length ranked)%nat).
  { rewrite <- (length_fmap file_path (unique ranked)), <- (length_fmap file_path ranked).
    apply submseteq_length, NoDup_submseteq; [done|].
    intros p (x & -> & Hx)%list_elem_of_fmap. apply list_elem_of_fmap.
    exists x. split; [done|by apply unique_in]. }
  assert (Hcap : (length (unique ranked) <= limit)%nat).
  { unfold unique. rewrite length_take. lia. }
  destruct (Nat.lt_ge_cases (length (unique ranked)) limit) as [Hlt|Hge]; [|lia].
  assert (Hge : (length ranked <= length (unique ranked))%nat); [|lia].
  rewrite <- (length_fmap file_path (unique ranked)), <- (length_fmap file_path ranked).
  apply submseteq_length, NoDup_submseteq; [done|].
  intros p (x & -> & Hx)%list_elem_of_fmap.
  rewrite unique_is_fill. apply fill_complete; [by rewrite <- unique_is_fill|done].
Qed.

(** X14.  Of a ranking without repeated paths, exactly [min 8 n] hits are kept
    ([n] being the number of ranked hits); they are hits of the ranking
    and no path is kept twice; when there are at most eight ranked hits,
    all of them are kept. *)
Theorem at_most_eight_hits_are_kept (ranked : list Candidate) :
  NoDup (file_path <$> ranked) →
  length (unique ranked) = (8 `min` length ranked)%nat
  ∧ NoDup (file_path <$> unique ranked)
  ∧ (∀ x, x ∈ unique ranked → x ∈ ranked)
  ∧ ((length ranked <= 8)%nat → unique ranked ≡ₚ ranked).
Proof.
  intros Hnd. pose proof (unique_length ranked Hnd) as Hlen.
  pose proof (unique_nodup ranked Hnd) as Hu.
  split; [exact Hlen|]. split; [exact Hu|]. split; [apply unique_in|].
  intros Hle. apply submseteq_length_Permutation.
  - apply NoDup_submseteq; [by apply NoDup_fmap_1 in Hu|apply unique_in].
  - rewrite Hlen. unfold limit. lia.
Qed.

Lemma at_most_eight_hits_are_kept_witness :
  length (unique (deduplicated ten_hits)) = 8%nat.
Proof.
  assert (Hnd : NoDup (file_path <$> deduplicated ten_hits)).
  { apply (bool_decide_unpack _). by vm_compute. }
  destruct (at_most_eight_hits_are_kept (deduplicated ten_hits) Hnd) as [H _].
  exact H.
Defined.

(** X15.  The selection starts with the two best-ranked hits; with five ranked
    hits or more, the third and the fourth hit selected are the hit in the
    middle of the ranking and the last-ranked hit, ahead of the hits
    ranked third and fourth. *)
Theorem top_two_then_middle_and_last (ranked : list Candidate) :
  take 2 (unique ranked) = take 2 ranked
  ∧ ((4 < length ranked)%nat →
     unique ranked !! 2%nat = ranked !! (length ranked / 2)%nat
     ∧ unique ranked !! 3%nat = last ranked).
Proof.
  split.
  - rewrite unique_is_fill.
    destruct ranked as [|a [|b rest]]; [done| |].
    + unfold seeds, pushed. simpl. by rewrite bool_decide_true.
    + destruct (fill_extends (a :: b :: rest) (seeds (a :: b :: rest)))
        as (more & -> & _).
      unfold seeds, pushed. simpl. done.
  - intros Hn. rewrite unique_is_fill.
    destruct (seeds_of_five ranked Hn) as (a & b & m & l & _ & _ & Hm & Hl & Hseeds).
    destruct (fill_extends ranked (seeds ranked)) as (more & -> & _).
    rewrite Hseeds, Hm, Hl. done.
Qed.

Lemma top_two_then_middle_and_last_witness :
  path_of <$> unique (deduplicated ten_hits)
  = ["a.ts"; "b.ts"; "d.ts"; "h.ts"; "src/utils.ts"; "c.ts"; "e.ts"; "f.ts"]%string
  ∧ unique (deduplicated ten_hits) !! 3%nat = last (deduplicated ten_hits).
Proof.
  split; [by vm_compute|].
  destruct (top_two_then_middle_and_last (deduplicated ten_hits)) as [_ H].
  apply H. vm_compute. lia.
Defined.

(** X16.  However the deduplicated hits are ranked, the hits handed on hold at
    most one file per base name: they are [min 8 n] hits of the searches,
    with a path, with pairwise distinct base names. *)
Theorem selection_has_one_hit_per_base_name (allResults ranked : list Candidate) :
  ranked ≡ₚ deduplicated allResults →
  NoDup (basename <$> unique ranked)
  ∧ length (unique ranked) = (8 `min` length (deduplicated allResults))%nat
  ∧ ∀ x, x ∈ unique ranked → x ∈ allResults ∧ has_path x = true.
Proof.
  intros Hperm.
  destruct (deduplicated_spec allResults) as (Hbase & Hpaths & Hsub & Hhas & _).
  rewrite <- Hperm in Hbase, Hpaths, Hhas.
  pose proof (unique_nodup ranked Hpaths) as Hu.
  split; [|split].
  - apply NoDup_fmap_2_strong; [|by apply NoDup_fmap_1 in Hu].
    intros x y Hx Hy. apply (NoDup_fmap_inj_on basename ranked Hbase); by apply unique_in.
  - rewrite (unique_length ranked Hpaths). by rewrite Hperm.
  - intros x Hx%unique_in. split.
    + eapply elem_of_sublist; [|exact Hsub]. by rewrite <- Hperm.
    + rewrite Forall_forall in Hhas. by apply Hhas.
Qed.

Lemma selection_has_one_hit_per_base_name_witness :
  NoDup (basename <$> unique (reverse (deduplicated ten_hits))).
Proof.
  destruct (selection_has_one_hit_per_base_name ten_hits (reverse (deduplicated ten_hits)))
    as [H _]; [apply reverse_Permutation|exact H].
Defined.

End Ranker.

(** ** Repository-level requests to the host ([parseGitHubUrl],
    [fetchRepository], [fetchRepositoryLanguages], [fetchRepositoryTree],
    [getRateLimit], [fetchCompleteRepositoryData] in lib/github.ts) and
    the error answers of the [fetch-repo] route *)

Module RepoFetch.

Inductive ErrorType := NOT_FOUND | RATE_LIMITED | INVALID_URL | GITHUB_ERROR | UNKNOWN.

(** [new ApiError(message, status, type)] *)
Record ApiError := mkApiError { message : string; status : Z; type : ErrorType }.

(** What is read of the value caught after a request of the client:
    [error.status] and [error.message]. *)
Record RequestError := mkRequestError {
  err_status : option Z;
  err_message : option string
}.

(** The outcome of one request: [response.data], or a rejection. *)
Inductive Answer (A : Type) :=
| Data (a : A)
| Fails (error : RequestError).
Arguments Data {A} a.
Arguments Fails {A} error.

Inductive Result (A : Type) :=
| Ok (a : A)
| Throw (e : ApiError).
Arguments Ok {A} a.
Arguments Throw {A} e.

(** The fields read of the responses of the host. *)
Module GitHub.

Record Repository := mkRepository {
  name : string;
  description : option string;
  stargazers_count : Z;
  default_branch : string
}.

(** [labels] holds the [name] of each label. *)
Record Issue := mkIssue { title : string; html_url : string; labels : list string }.

Record RateLimit := mkRateLimit { limit : Z; remaining : Z; reset : Z; used : Z }.

End GitHub.

Inductive Request :=
| RateLimitGet
| ReposGet (owner repo : string)
| ListLanguages (owner repo : string)
| GetRef (owner repo ref : string)
| GetCommit (owner repo commit_sha : string)
| GetTree (owner repo tree_sha : string)
| ListIssues (owner repo : string).

(** The host decides the outcome of each request. *)
Record Host := mkHost {
  rate_limit_get : Answer GitHub.RateLimit;
  repos_get : string → string → Answer GitHub.Repository;
  (** the entries of the response object, in key order *)
  list_languages : string → string → Answer (list (string * Z));
  (** [branchRef.data.object.sha] *)
  get_ref : string → string → string → Answer string;
  (** [commit.data.tree.sha] *)
  get_commit : string → string → string → Answer string;
  (** [response.data.tree] *)
  get_tree : string → string → string → Answer (list FileTree.TreeItem);
  list_issues : string → string → Answer (list GitHub.Issue)
}.

(** *** [parseGitHubUrl] *)

(** What is read of [new URL(repoUrl)]. *)
Record URL := mkURL { hostname : string; pathname : string }.

(** [s.replace(/\.git$/, '')] *)
Definition remove_git_suffix (s : string) : string :=
  if Ranker.endsWith ".git" s
  then String.substring 0 (String.length s - 4) s
  else s.

(** [newURL] is the constructor [URL]: [None] when it throws. *)
Definition parseGitHubUrl (newURL : string → option URL) (repoUrl : string)
  : option (string * string) :=
  match newURL repoUrl with
  | None => None
  | Some url =>
      if negb (Ranker.includes "github.com" (hostname url)) then None
      else
        let pathParts :=
          List.filter (λ part, (0 <? String.length part)%nat)
                      (FileTree.split (pathname url)) in
        match pathParts with
        | owner :: repo :: _ => Some (owner, remove_git_suffix repo)
        | _ => None
        end
  end.

(** *** Requests *)

(** [error.status === code] *)
Definition has_status (error : RequestError) (code : Z) : bool :=
  match err_status error with
  | Some s => s =? code
  | None => false
  end.

(** [error.status || 500] *)
Definition status_or_500 (error : RequestError) : Z :=
  match err_status error with
  | Some s => if s =? 0 then 500 else s
  | None => 500
  end.

(** [error.message] inside a template literal *)
Definition message_text (error : RequestError) : string :=
  default "undefined"%string (err_message error).

(** [error.message?.includes('rate limit')] *)
Definition mentions_rate_limit (error : RequestError) : bool :=
  match err_message error with
  | Some m => Ranker.includes "rate limit" m
  | None => false
  end.

(** A computation returns its result and the requests it made. *)
Definition fetchRepository (h : Host) (owner repo : string)
  : Result GitHub.Repository * list Request :=
  (match repos_get h owner repo with
   | Data r => Ok r
   | Fails error =>
       if has_status error 404 then
         Throw (mkApiError "Repository not found or is private" 404 NOT_FOUND)
       else if has_status error 403 && mentions_rate_limit error then
         Throw (mkApiError "GitHub API rate limit exceeded" 429 RATE_LIMITED)
       else
         Throw (mkApiError ("GitHub API error: " +:+ message_text error)
                           (status_or_500 error) GITHUB_ERROR)
   end, [ReposGet owner repo]).

(** The comparator [([, a], [, b]) => b - a]. *)
Definition byBytes (x y : string * Z) : Z := snd y - snd x.

Fixpoint insert_entry (x : string * Z) (l : list (string * Z)) : list (string * Z) :=
  match l with
  | [] => [x]
  | y :: l' => if byBytes x y <=? 0 then x :: y :: l' else y :: insert_entry x l'
  end.

(** [entries.sort(cmp)], a stable sort. *)
Definition sort_entries (entries : list (string * Z)) : list (string * Z) :=
  foldr insert_entry [] entries.

Definition fetchRepositoryLanguages (h : Host) (owner repo : string)
  : list string * list Request :=
  (match list_languages h owner repo with
   | Data data => map fst (take 10 (sort_entries data))
   | Fails _ => []
   end, [ListLanguages owner repo]).

(** The [catch] of [fetchRepositoryTree]. *)
Definition tree_error (error : RequestError) : ApiError :=
  if has_status error 404 then mkApiError "Repository tree not found" 404 NOT_FOUND
  else mkApiError ("Failed to fetch repository tree: " +:+ message_text error)
                  (status_or_500 error) GITHUB_ERROR.

Definition fetchRepositoryTree (h : Host) (owner repo branch : string)
  : Result (list FileTree.TreeItem) * list Request :=
  let ref := ("heads/" +:+ branch)%string in
  match get_ref h owner repo ref with
  | Fails error => (Throw (tree_error error), [GetRef owner repo ref])
  | Data commitSha =>
      match get_commit h owner repo commitSha with
      | Fails error =>
          (Throw (tree_error error), [GetRef owner repo ref; GetCommit owner repo commitSha])
      | Data treeSha =>
          (match get_tree h owner repo treeSha with
           | Fails error => Throw (tree_error error)
           | Data tree => Ok tree
           end,
           [GetRef owner repo ref; GetCommit owner repo commitSha;
            GetTree owner repo treeSha])
      end
  end.

Definition fetchGoodFirstIssues (h : Host) (owner repo : string)
  : list GitHub.Issue * list Request :=
  (match list_issues h owner repo with
   | Data data => data
   | Fails _ => []
   end, [ListIssues owner repo]).

(** [now] is [Date.now()]. *)
Definition getRateLimit (h : Host) (now : Z) : GitHub.RateLimit * list Request :=
  (match rate_limit_get h with
   | Data rate => rate
   | Fails _ => GitHub.mkRateLimit 5000 0 (now + 3600000) 5000
   end, [RateLimitGet]).

(** *** [fetchCompleteRepositoryData] *)

Record IssueSummary := mkIssueSummary {
  title : string;
  url : string;
  labels : list string
}.

Record RepoData := mkRepoData {
  name : string;
  description : string;
  stars : Z;
  languages : list string;
  files : list FileTree.Node;
  issues : list IssueSummary
}.

(** [repository.description || 'No description available'] *)
Definition description_or_default (d : option string) : string :=
  match d with
  | Some s => if String.eqb s "" then "No description available"%string else s
  | None => "No description available"%string
  end.

(** The three functions handed to [Promise.all] are called one after the
    other, each up to its first request, and run to their end whatever the
    others do: the requests are listed in the order they are made, the
    first request of each function, then the other requests of
    [fetchRepositoryTree].  The [catch] of the function throws an
    [ApiError] again as it is; its other branch, the type [UNKNOWN], is for
    any other exception.  The functions called inside the [try] turn what
    their requests throw into an [ApiError] or a default value, so that
    branch is reached only when a response lacks a field that is read of
    it, which the answers of [Host] leave out. *)
Definition fetchCompleteRepositoryData (newURL : string → option URL)
    (localeCompare : string → string → Z) (h : Host) (now : Z) (repoUrl : string)
  : Result RepoData * list Request :=
  match parseGitHubUrl newURL repoUrl with
  | None => (Throw (mkApiError "Invalid GitHub repository URL" 400 INVALID_URL), [])
  | Some (owner, repo) =>
      let '(rateLimit, asked0) := getRateLimit h now in
      if GitHub.remaining rateLimit <? 5 then
        (Throw (mkApiError "GitHub API rate limit exceeded. Please try again later."
                           429 RATE_LIMITED), asked0)
      else
        match fetchRepository h owner repo with
        | (Throw e, asked1) => (Throw e, asked0 ++ asked1)
        | (Ok repository, asked1) =>
            let '(langs, asked2) := fetchRepositoryLanguages h owner repo in
            let '(tree, asked3) :=
              fetchRepositoryTree h owner repo (GitHub.default_branch repository) in
            let '(found, asked4) := fetchGoodFirstIssues h owner repo in
            (match tree with
             | Throw e => Throw e
             | Ok items =>
                 Ok (mkRepoData
                       (GitHub.name repository)
                       (description_or_default (GitHub.description repository))
                       (GitHub.stargazers_count repository)
                       langs
                       (FileTree.buildFileTree localeCompare items)
                       (map (λ issue, mkIssueSummary (GitHub.title issue)
                                        (GitHub.html_url issue) (GitHub.labels issue))
                            found))
             end,
             asked0 ++ asked1 ++ asked2 ++ take 1 asked3 ++ asked4 ++ drop 1 asked3)
        end
  end.

(** *** The answer of the [fetch-repo] route to an [ApiError] *)


(** *** Properties used to state what follows *)

(** The entries are in the order of [sort_entries]: no entry has more
    bytes than an entry before it. *)
Fixpoint descending (l : list (string * Z)) : bool :=
  match l with
  | [] => true
  | x :: rest => forallb (λ y, snd y <=? snd x) rest && descending rest
  end.

(** A path segment: not empty, without a slash. *)
Definition segment (s : string) : Prop := s ≠ ""%string ∧ Ranker.no_slash s = true.

(** [error] is the rejection that ends [fetchRepositoryTree] for
    [branch]: that of the first of its requests that fails. *)
Definition tree_request_fails (h : Host) (owner repo branch : string)
    (error : RequestError) : Prop :=
  match get_ref h owner repo ("heads/" +:+ branch) with
  | Fails rejection => rejection = error
  | Data commitSha =>
      match get_commit h owner repo commitSha with
      | Fails rejection => rejection = error
      | Data treeSha => get_tree h owner repo treeSha = Fails error
      end
  end.

(** [error] is the rejection of the repository request, or, when that
    request is answered, the rejection that ends the fetch of the tree of
    the default branch. *)
Definition rejected (h : Host) (owner repo : string) (error : RequestError) : Prop :=
  match repos_get h owner repo with
  | Fails rejection => rejection = error
  | Data repository =>
      tree_request_fails h owner repo (GitHub.default_branch repository) error
  end.


(** A constructor [URL] for the examples: it knows one address. *)
Definition sample_url (repoUrl : string) : option URL :=
  if String.eqb repoUrl "https://github.com/octocat/hello.git"
  then Some (mkURL "github.com" "/octocat/hello.git")
  else None.

(** A host whose quota is used up. *)
Definition host_out_of_quota : Host :=
  mkHost (Data (GitHub.mkRateLimit 5000 4 0 4996))
         (λ _ _, Data (GitHub.mkRepository "hello" None 7 "main"))
         (λ _ _, Data [])
         (λ _ _ _, Data "c0ffee"%string)
         (λ _ _ _, Data "7ree"%string)
         (λ _ _ _, Data [])
         (λ _ _, Data []).

(** A host on which only the repository and its tree can be read. *)
Definition host_without_extras : Host :=
  mkHost (Data (GitHub.mkRateLimit 5000 4000 0 1000))
         (λ _ _, Data (GitHub.mkRepository "hello" None 7 "main"))
         (λ _ _, Fails (mkRequestError (Some 500) (Some "boom"%string)))
         (λ _ _ _, Data "c0ffee"%string)
         (λ _ _ _, Data "7ree"%string)
         (λ _ _ _, Data FileTree.sample_listing)
         (λ _ _, Fails (mkRequestError (Some 500) (Some "boom"%string))).

Definition rate_limited_403 : RequestError :=
  mkRequestError (Some 403) (Some "API rate limit exceeded for user"%string).

Definition sample_languages : list (string * Z) :=
  [("TypeScript", 5200); ("CSS", 40); ("JavaScript", 310); ("Shell", 40)]%string.


(** A host that lists the languages of [sample_languages]. *)
Definition host_with_languages : Host :=
  mkHost (Data (GitHub.mkRateLimit 5000 4000 0 1000))
         (λ _ _, Data (GitHub.mkRepository "hello" None 7 "main"))
         (λ _ _, Data sample_languages)
         (λ _ _ _, Data "c0ffee"%string)
         (λ _ _ _, Data "7ree"%string)
         (λ _ _ _, Data [])
         (λ _ _, Data []).

(** A host that answers the rate-limit 403 to every request. *)
Definition host_throttled : Host :=
  mkHost (Data (GitHub.mkRateLimit 5000 4000 0 1000))
         (λ _ _, Fails rate_limited_403)
         (λ _ _, Fails rate_limited_403)
         (λ _ _ _, Fails rate_limited_403)
         (λ _ _ _, Fails rate_limited_403)
         (λ _ _ _, Fails rate_limited_403)
         (λ _ _, Fails rate_limited_403).


(** *** Reading the address *)

Lemma split_app_slash (a b : string) :
  FileTree.split (a +:+ String "/" b) = FileTree.split a ++ FileTree.split b.
Proof.
  induction a as [|c a IH]; [done|].
  change (String c a +:+ String "/" b)%string with (String c (a +:+ String "/" b)).
  cbn [FileTree.split]. rewrite IH.
  destruct (Ascii.eqb c "/"); [done|].
  pose proof (FileTree.split_not_nil a) as Hne.
  by destruct (FileTree.split a).
Qed.

Lemma segment_length (s : string) : segment s → (0 <? String.length s)%nat = true.
Proof. intros [Hne _]. by destruct s. Qed.

(** X17.  An address whose host name contains github.com and whose path is
    [/owner/repo], possibly followed by a slash and anything, is read as
    [(owner, repo)], a final ".git" of [repo] being removed. *)
Theorem address_is_read_back (newURL : string → option URL) (repoUrl host : string)
    (owner repo : string) (rest : option string) :
  newURL repoUrl
  = Some (mkURL host ("/" +:+ owner +:+ "/" +:+ repo
                      +:+ match rest with Some r => "/" +:+ r | None => "" end)) →
  Ranker.includes "github.com" host = true →
  segment owner → segment repo →
  parseGitHubUrl newURL repoUrl = Some (owner, remove_git_suffix repo).
Proof.
  intros Hurl Hhost Howner Hrepo. unfold parseGitHubUrl. rewrite Hurl. simpl hostname.
  rewrite Hhost. simpl negb. cbv iota. simpl pathname.
  change (FileTree.split ("/" +:+ owner +:+ "/" +:+ repo +:+ match rest with
                                                             | Some r => "/" +:+ r
                                                             | None => ""
                                                             end))
    with ("" :: FileTree.split (owner +:+ String "/" (repo +:+ match rest with
                                                               | Some r => String "/" r
                                                               | None => ""
                                                               end)))%string.
  rewrite split_app_slash, (Ranker.split_no_slash owner) by apply Howner.
  assert (Hsplit : ∃ more, FileTree.split (repo +:+ match rest with
                                                     | Some r => String "/" r
                                                     | None => ""
                                                     end) = repo :: more).
  { destruct rest as [r|].
    - rewrite split_app_slash, (Ranker.split_no_slash repo) by apply Hrepo. by eexists.
    - assert (Hnil : (repo +:+ "")%string = repo).
      { clear. induction repo as [|c s IH]; [done|].
        change (String c (s +:+ "") = String c s). by rewrite IH. }
      rewrite Hnil, (Ranker.split_no_slash repo) by apply Hrepo. by eexists. }
  destruct Hsplit as (more & ->). simpl.
  by rewrite (segment_length owner Howner), (segment_length repo Hrepo).
Qed.

Lemma address_is_read_back_witness :
  parseGitHubUrl sample_url "https://github.com/octocat/hello.git"
  = Some ("octocat"%string, "hello"%string).
Proof.
  apply (address_is_read_back sample_url "https://github.com/octocat/hello.git"
           "github.com" "octocat" "hello.git" None); try reflexivity;
    split; (discriminate || reflexivity).
Defined.


(** *** The errors that get out *)





(** X19.  The quota is checked before anything is asked about the repository:
    when fewer than 5 requests remain, or when the quota itself cannot be
    read, [fetchCompleteRepositoryData] throws RATE_LIMITED (429) and the
    only request made is the one for the quota. *)
Theorem quota_is_checked_first (newURL : string → option URL)
    (localeCompare : string → string → Z) (h : Host) (now : Z) (repoUrl : string)
    (owner repo : string) :
  parseGitHubUrl newURL repoUrl = Some (owner, repo) →
  (∀ rate, rate_limit_get h = Data rate → GitHub.remaining rate < 5) →
  fetchCompleteRepositoryData newURL localeCompare h now repoUrl
  = (Throw (mkApiError "GitHub API rate limit exceeded. Please try again later."
                       429 RATE_LIMITED),
     [RateLimitGet]).
Proof.
  intros Hparse Hrate. unfold fetchCompleteRepositoryData, getRateLimit.
  rewrite Hparse. destruct (rate_limit_get h) as [rate|error]; simpl.
  - specialize (Hrate rate eq_refl). by destruct (Z.ltb_spec (GitHub.remaining rate) 5); [|lia].
  - done.
Qed.

Lemma quota_is_checked_first_witness :
  snd (fetchCompleteRepositoryData sample_url FileTree.codeCompare host_out_of_quota 0
         "https://github.com/octocat/hello.git")
  = [RateLimitGet].
Proof.
  rewrite (quota_is_checked_first sample_url FileTree.codeCompare host_out_of_quota 0
             "https://github.com/octocat/hello.git" "octocat" "hello" eq_refl);
    [reflexivity|].
  intros rate [= <-]. simpl. lia.
Defined.

(** X20.  Languages and issues are optional: when the address is read, the
    quota allows it and the repository and its tree are fetched, the call
    returns the data of the repository, with the tree built from the
    listing; a failure of the languages request leaves [languages] empty
    and a failure of the issues request leaves [issues] empty. *)
Theorem languages_and_issues_are_optional (newURL : string → option URL)
    (localeCompare : string → string → Z) (h : Host) (now : Z) (repoUrl : string)
    (owner repo : string) (rate : GitHub.RateLimit) (repository : GitHub.Repository)
    (items : list FileTree.TreeItem) (asked : list Request) :
  parseGitHubUrl newURL repoUrl = Some (owner, repo) →
  rate_limit_get h = Data rate → 5 <= GitHub.remaining rate →
  repos_get h owner repo = Data repository →
  fetchRepositoryTree h owner repo (GitHub.default_branch repository) = (Ok items, asked) →
  ∃ data,
    fst (fetchCompleteRepositoryData newURL localeCompare h now repoUrl) = Ok data
    ∧ name data = GitHub.name repository
    ∧ files data = FileTree.buildFileTree localeCompare items
    ∧ (∀ error, list_languages h owner repo = Fails error → languages data = [])
    ∧ (∀ error, list_issues h owner repo = Fails error → issues data = []).
Proof.
  intros Hparse Hrate Hrem Hrepo Htree.
  unfold fetchCompleteRepositoryData, getRateLimit, fetchRepository,
    fetchRepositoryLanguages, fetchGoodFirstIssues.
  rewrite Hparse, Hrate, Hrepo, Htree.
  destruct (Z.ltb_spec (GitHub.remaining rate) 5); [lia|].
  eexists. split; [reflexivity|]. simpl. split; [done|]. split; [done|].
  split; [by intros error ->|by intros error ->].
Qed.

Lemma languages_and_issues_are_optional_witness :
  ∃ data,
    fst (fetchCompleteRepositoryData sample_url FileTree.codeCompare host_without_extras 0
           "https://github.com/octocat/hello.git") = Ok data
    ∧ languages data = [] ∧ issues data = []
    ∧ files data = FileTree.buildFileTree FileTree.codeCompare FileTree.sample_listing.
Proof.
  destruct (languages_and_issues_are_optional sample_url FileTree.codeCompare
              host_without_extras 0 "https://github.com/octocat/hello.git"
              "octocat" "hello" (GitHub.mkRateLimit 5000 4000 0 1000)
              (GitHub.mkRepository "hello" None 7 "main") FileTree.sample_listing
              [GetRef "octocat" "hello" "heads/main"; GetCommit "octocat" "hello" "c0ffee";
               GetTree "octocat" "hello" "7ree"]
              eq_refl eq_refl)
    as (data & Hdata & _ & Hfiles & Hlang & Hissues); [simpl; lia|reflexivity|reflexivity|].
  exists data. split; [exact Hdata|].
  split; [by eapply Hlang|]. split; [by eapply Hissues|exact Hfiles].
Defined.

(** X21.  The same answer of the host, a 403 whose message mentions the rate
    limit, is reported differently by the two requests: as RATE_LIMITED
    with status 429 when it answers the repository request, as
    GITHUB_ERROR with status 403 when it answers a request for the
    tree. *)
Theorem rate_limit_403_depends_on_the_request
    (h : Host) (owner repo branch : string) (error : RequestError) :
  has_status error 403 = true → mentions_rate_limit error = true →
  (repos_get h owner repo = Fails error →
   fst (fetchRepository h owner repo)
   = Throw (mkApiError "GitHub API rate limit exceeded" 429 RATE_LIMITED))
  ∧ (get_ref h owner repo ("heads/" +:+ branch) = Fails error →
     fst (fetchRepositoryTree h owner repo branch)
     = Throw (mkApiError ("Failed to fetch repository tree: " +:+ message_text error)
                         403 GITHUB_ERROR)).
Proof.
  intros H403 Hmsg.
  assert (H404 : has_status error 404 = false).
  { unfold has_status in *. destruct (err_status error) as [s|]; [|done].
    apply Z.eqb_eq in H403. subst s. done. }
  assert (Hstatus : status_or_500 error = 403).
  { unfold has_status, status_or_500 in *. destruct (err_status error) as [s|]; [|done].
    apply Z.eqb_eq in H403. by subst s. }
  split.
  - intros Hget. unfold fetchRepository. simpl. by rewrite Hget, H404, H403, Hmsg.
  - intros Hget. unfold fetchRepositoryTree. rewrite Hget. simpl.
    unfold tree_error. by rewrite H404, Hstatus.
Qed.

Lemma rate_limit_403_depends_on_the_request_witness :
  fst (fetchRepository host_throttled "octocat" "hello")
  = Throw (mkApiError "GitHub API rate limit exceeded" 429 RATE_LIMITED)
  ∧ fst (fetchRepositoryTree host_throttled "octocat" "hello" "main")
    = Throw (mkApiError "Failed to fetch repository tree: API rate limit exceeded for user"
                        403 GITHUB_ERROR).
Proof.
  destruct (rate_limit_403_depends_on_the_request host_throttled "octocat" "hello" "main"
              rate_limited_403 eq_refl eq_refl) as [H1 H2].
  split; [by apply H1|by apply H2].
Defined.


(** *** The languages that are reported *)

Lemma insert_entry_perm (x : string * Z) (l : list (string * Z)) :
  insert_entry x l ≡ₚ x :: l.
Proof.
  induction l as [|y l IH]; [done|]. simpl.
  destruct (byBytes x y <=? 0); [done|]. by rewrite IH, Permutation_swap.
Qed.

Lemma sort_entries_perm (l : list (string * Z)) : sort_entries l ≡ₚ l.
Proof.
  unfold sort_entries. induction l as [|x l IH]; [done|].
  simpl. by rewrite insert_entry_perm, IH.
Qed.

Lemma forallb_insert_entry (P : string * Z → bool) (x : string * Z) (l : list (string * Z)) :
  forallb P (insert_entry x l) = P x && forallb P l.
Proof.
  induction l as [|y l IH]; simpl; [done|].
  destruct (byBytes x y <=? 0); simpl; [done|].
  rewrite IH. by destruct (P x), (P y).
Qed.

Lemma descending_insert (x : string * Z) (l : list (string * Z)) :
  descending l = true → descending (insert_entry x l) = true.
Proof.
  induction l as [|y l IH]; [done|].
  cbn [descending insert_entry]. intros [Hy Hl]%andb_true_iff.
  destruct (Z.leb_spec (byBytes x y) 0) as [Hle|Hgt]; unfold byBytes in *.
  - cbn [descending forallb]. rewrite Hy, Hl, !andb_true_r.
    apply andb_true_iff. split; [apply Z.leb_le; lia|].
    apply forallb_forall. intros z Hz.
    rewrite forallb_forall in Hy. specialize (Hy z Hz).
    apply Z.leb_le in Hy. apply Z.leb_le. lia.
  - cbn [descending]. rewrite forallb_insert_entry, Hy, (IH Hl), !andb_true_r.
    apply Z.leb_le. lia.
Qed.

Lemma descending_sort_entries (l : list (string * Z)) : descending (sort_entries l) = true.
Proof.
  unfold sort_entries. induction l as [|x l IH]; [done|].
  simpl. by apply descending_insert.
Qed.

Lemma descending_app (a b : list (string * Z)) :
  descending (a ++ b) = true →
  descending a = true ∧ ∀ x y, x ∈ a → y ∈ b → snd y <= snd x.
Proof.
  induction a as [|z a IH]; simpl.
  - intros _. split; [done|]. intros x y Hx. by apply elem_of_nil in Hx.
  - intros [Hz Hab]%andb_true_iff. destruct (IH Hab) as [Ha Hcross].
    rewrite forallb_app in Hz. apply andb_true_iff in Hz as [Hza Hzb].
    split; [by rewrite Hza, Ha|].
    intros x y [->|Hx]%elem_of_cons Hy; [|by apply Hcross].
    rewrite forallb_forall in Hzb. apply Z.leb_le, Hzb. by apply list_elem_of_In.
Qed.

(** X22.  When the languages request succeeds, the languages reported are the
    ten entries with the most bytes (all of them when there are fewer), in
    descending order of bytes: no language left out has more bytes than a
    reported one. *)
Theorem ten_largest_languages_are_reported
    (h : Host) (owner repo : string) (data : list (string * Z)) :
  list_languages h owner repo = Data data →
  ∃ kept dropped,
    kept ++ dropped ≡ₚ data
    ∧ fst (fetchRepositoryLanguages h owner repo) = fst <$> kept
    ∧ length kept = (10 `min` length data)%nat
    ∧ descending kept = true
    ∧ ∀ x y, x ∈ kept → y ∈ dropped → snd y <= snd x.
Proof.
  intros Hdata. exists (take 10 (sort_entries data)), (drop 10 (sort_entries data)).
  pose proof (descending_sort_entries data) as Hdesc.
  rewrite <- (take_drop 10 (sort_entries data)) in Hdesc.
  apply descending_app in Hdesc as [Hkept Hcross].
  split; [by rewrite take_drop, sort_entries_perm|].
  split; [unfold fetchRepositoryLanguages; by rewrite Hdata|].
  split; [by rewrite length_take, sort_entries_perm|].
  split; [exact Hkept|exact Hcross].
Qed.

Lemma ten_largest_languages_are_reported_witness :
  fst (fetchRepositoryLanguages host_with_languages "octocat" "hello")
  = ["TypeScript"; "JavaScript"; "CSS"; "Shell"]%string
  ∧ ∃ kept dropped,
      kept ++ dropped ≡ₚ sample_languages
      ∧ fst (fetchRepositoryLanguages host_with_languages "octocat" "hello") = fst <$> kept.
Proof.
  split; [reflexivity|].
  destruct (ten_largest_languages_are_reported host_with_languages "octocat" "hello"
              sample_languages eq_refl) as (kept & dropped & Hperm & Hfst & _).
  by exists kept, dropped.
Defined.

End RepoFetch.

(** ** Retries of the datastore and of the files index ([withRetry] in
    lib/database.ts, the loop of [indexFile] in lib/elasticsearch.ts) *)

Module Retries.

(** What [throw] throws: an error that was caught, or the value of a
    variable that was never assigned. *)
Inductive Thrown :=
| Error (message : string)
| Undefined.

Inductive Result (A : Type) :=
| Ok (a : A)
| Throw (e : Thrown).
Arguments Ok {A} a.
Arguments Throw {A} e.

(** What the process does, in order: the operation is called, or a timer
    of [ms] milliseconds is awaited. *)
Inductive Event :=
| Attempted
| Waited (ms : Z).

Definition M (A : Type) : Type := list Event → Result A * list Event.

(** One call of the operation; its outcome may depend on what happened
    before. *)
Definition call {A} (answer : list Event → Result A) : M A :=
  λ w, (answer w, w ++ [Attempted]).

(** [withRetry] of lib/database.ts: the body of
    [for (let attempt = 1; attempt <= maxRetries; attempt++)], then
    [throw lastError!].  The fuel bounds the number of iterations. *)
Fixpoint withRetry_from {A} (fuel : nat) (operation : M A)
    (maxRetries baseDelay attempt : Z) (lastError : Thrown) (w : list Event)
  : option (Result A * list Event) :=
  match fuel with
  | O => None
  | S fuel' =>
      if attempt <=? maxRetries then
        match operation w with
        | (Ok a, w') => Some (Ok a, w')
        | (Throw error, w') =>
            if attempt =? maxRetries then Some (Throw error, w')
            else
              let delay := baseDelay * 2 ^ (attempt - 1) in
              withRetry_from fuel' operation maxRetries baseDelay (attempt + 1) error
                             (w' ++ [Waited delay])
        end
      else Some (Throw lastError, w)
  end.

(** [maxRetries: number = 3, baseDelay: number = 1000] *)
Definition withRetry {A} (operation : M A) (maxRetries baseDelay : option Z)
    (w : list Event) : option (Result A * list Event) :=
  let maxRetries := default 3 maxRetries in
  let baseDelay := default 1000 baseDelay in
  withRetry_from (S (Z.to_nat maxRetries)) operation maxRetries baseDelay 1 Undefined w.

(** The loop of [indexFile]: [const maxRetries = 3], the wait before the
    next attempt is [1000 * attempt]; [index] is the call of
    [client.index]. *)
Fixpoint indexFile_from {A} (fuel : nat) (index : M A) (attempt : Z)
    (lastError : Thrown) (w : list Event) : option (Result A * list Event) :=
  match fuel with
  | O => None
  | S fuel' =>
      if attempt <=? 3 then
        match index w with
        | (Ok a, w') => Some (Ok a, w')
        | (Throw error, w') =>
            if attempt =? 3 then Some (Throw error, w')
            else indexFile_from fuel' index (attempt + 1) error
                                (w' ++ [Waited (1000 * attempt)])
        end
      else Some (Throw lastError, w)
  end.

Definition indexFile {A} (index : M A) (w : list Event)
  : option (Result A * list Event) :=
  indexFile_from 4 index 1 Undefined w.

(** The history of [n] failed attempts, each followed by its wait. *)
Fixpoint retried (delay : Z → Z) (attempt : Z) (n : nat) : list Event :=
  match n with
  | O => []
  | S n' => Attempted :: Waited (delay attempt) :: retried delay (attempt + 1) n'
  end.

(** The waits of both loops with their defaults: one second, then two. *)
Definition schedule (n : nat) : list Event :=
  take (2 * n) [Attempted; Waited 1000; Attempted; Waited 2000].

(** An operation that fails twice and then succeeds. *)
Definition third_time_lucky (w : list Event) : Result string :=
  if (length w <? 4)%nat then Throw (Error "connection terminated") else Ok "done"%string.

(** How an attempt may end. *)
Definition fails {A} (r : Result A) : Prop := ∃ e, r = Throw e.

Definition succeeds {A} (r : Result A) : Prop := ∃ a, r = Ok a.

(** *** The attempts of a loop *)

Lemma withRetry_from_spec {A} (answer : list Event → Result A) (maxRetries baseDelay : Z) :
  ∀ (fuel : nat) (attempt : Z) (lastError : Thrown) (w : list Event),
    1 <= attempt <= maxRetries →
    (Z.to_nat (maxRetries - attempt) < fuel)%nat →
    ∃ n : nat,
      Z.of_nat n <= maxRetries - attempt
      ∧ withRetry_from fuel (call answer) maxRetries baseDelay attempt lastError w
        = Some (answer (w ++ retried (λ a, baseDelay * 2 ^ (a - 1)) attempt n),
                w ++ retried (λ a, baseDelay * 2 ^ (a - 1)) attempt n ++ [Attempted])
      ∧ (∀ k, (k < n)%nat →
           fails (answer (w ++ retried (λ a, baseDelay * 2 ^ (a - 1)) attempt k)))
      ∧ (Z.of_nat n < maxRetries - attempt →
           succeeds (answer (w ++ retried (λ a, baseDelay * 2 ^ (a - 1)) attempt n))).
Proof.
  induction fuel as [|fuel IH]; intros attempt lastError w Ha Hfuel; [lia|].
  cbn [withRetry_from]. destruct (Z.leb_spec attempt maxRetries) as [_|]; [|lia].
  unfold call at 1. destruct (answer w) as [a|error] eqn:Hans.
  - exists 0%nat. simpl. rewrite !app_nil_r, Hans.
    split; [lia|]. split; [reflexivity|]. split; [intros k Hk; lia|].
    intros _. by exists a.
  - destruct (Z.eqb_spec attempt maxRetries) as [Heq|Hne].
    + exists 0%nat. simpl. rewrite !app_nil_r, Hans.
      split; [lia|]. split; [reflexivity|]. split; [intros k Hk; lia|]. lia.
    + destruct (IH (attempt + 1) error
                   ((w ++ [Attempted]) ++ [Waited (baseDelay * 2 ^ (attempt - 1))]))
        as (n & Hn & Hrun & Hpre & Hlast); [lia|lia|].
      assert (Hw : ∀ l, ((w ++ [Attempted]) ++ [Waited (baseDelay * 2 ^ (attempt - 1))]) ++ l
                        = w ++ Attempted :: Waited (baseDelay * 2 ^ (attempt - 1)) :: l).
      { intros l. by rewrite <- !app_assoc. }
      exists (S n). cbn [retried]. rewrite <- !app_comm_cons, <- !Hw, Hrun.
      split; [lia|]. split; [reflexivity|]. split.
      * intros [|k] Hk.
        -- cbn [retried]. rewrite app_nil_r. by exists error.
        -- cbn [retried]. rewrite <- Hw. apply Hpre. lia.
      * intros Hlt. apply Hlast. lia.
Qed.

Lemma indexFile_from_spec {A} (answer : list Event → Result A) :
  ∀ (fuel : nat) (attempt : Z) (lastError : Thrown) (w : list Event),
    1 <= attempt <= 3 →
    (Z.to_nat (3 - attempt) < fuel)%nat →
    ∃ n : nat,
      Z.of_nat n <= 3 - attempt
      ∧ indexFile_from fuel (call answer) attempt lastError w
        = Some (answer (w ++ retried (λ a, 1000 * a) attempt n),
                w ++ retried (λ a, 1000 * a) attempt n ++ [Attempted])
      ∧ (∀ k, (k < n)%nat → fails (answer (w ++ retried (λ a, 1000 * a) attempt k)))
      ∧ (Z.of_nat n < 3 - attempt →
           succeeds (answer (w ++ retried (λ a, 1000 * a) attempt n))).
Proof.
  induction fuel as [|fuel IH]; intros attempt lastError w Ha Hfuel; [lia|].
  cbn [indexFile_from]. destruct (Z.leb_spec attempt 3) as [_|]; [|lia].
  unfold call at 1. destruct (answer w) as [a|error] eqn:Hans.
  - exists 0%nat. simpl. rewrite !app_nil_r, Hans.
    split; [lia|]. split; [reflexivity|]. split; [intros k Hk; lia|].
    intros _. by exists a.
  - destruct (Z.eqb_spec attempt 3) as [Heq|Hne].
    + exists 0%nat. simpl. rewrite !app_nil_r, Hans.
      split; [lia|]. split; [reflexivity|]. split; [intros k Hk; lia|]. lia.
    + destruct (IH (attempt + 1) error ((w ++ [Attempted]) ++ [Waited (1000 * attempt)]))
        as (n & Hn & Hrun & Hpre & Hlast); [lia|lia|].
      assert (Hw : ∀ l, ((w ++ [Attempted]) ++ [Waited (1000 * attempt)]) ++ l
                        = w ++ Attempted :: Waited (1000 * attempt) :: l).
      { intros l. by rewrite <- !app_assoc. }
      exists (S n). cbn [retried]. rewrite <- !app_comm_cons, <- !Hw, Hrun.
      split; [lia|]. split; [reflexivity|]. split.
      * intros [|k] Hk.
        -- cbn [retried]. rewrite app_nil_r. by exists error.
        -- cbn [retried]. rewrite <- Hw. apply Hpre. lia.
      * intros Hlt. apply Hlast. lia.
Qed.

Lemma schedule_exponential (n : nat) :
  (n <= 2)%nat → retried (λ a, 1000 * 2 ^ (a - 1)) 1 n = schedule n.
Proof. intros Hn. destruct n as [|[|[|n]]]; [done|done|done|lia]. Qed.

Lemma schedule_linear (n : nat) :
  (n <= 2)%nat → retried (λ a, 1000 * a) 1 n = schedule n.
Proof. intros Hn. destruct n as [|[|[|n]]]; [done|done|done|lia]. Qed.

(** X23.  A write to the datastore (through [withRetry] with its defaults) and a
    write to the files index (the loop of [indexFile]) follow the same
    schedule: the operation is attempted up to three times in all, with a
    wait of 1000 ms after the first failure and of 2000 ms after the
    second; every failure is retried, whatever the error; the outcome is
    the first success, or the third failure, which is thrown without a
    further wait. *)
Theorem three_attempts_one_then_two_seconds {A} (answer : list Event → Result A)
    (w : list Event) :
  (∃ n : nat,
     (n <= 2)%nat
     ∧ withRetry (call answer) None None w
       = Some (answer (w ++ schedule n), w ++ schedule n ++ [Attempted])
     ∧ (∀ k, (k < n)%nat → fails (answer (w ++ schedule k)))
     ∧ ((n < 2)%nat → succeeds (answer (w ++ schedule n))))
  ∧ (∃ n : nat,
       (n <= 2)%nat
       ∧ indexFile (call answer) w
         = Some (answer (w ++ schedule n), w ++ schedule n ++ [Attempted])
       ∧ (∀ k, (k < n)%nat → fails (answer (w ++ schedule k)))
       ∧ ((n < 2)%nat → succeeds (answer (w ++ schedule n)))).
Proof.
  split.
  - unfold withRetry. cbn [default].
    destruct (withRetry_from_spec answer 3 1000 (S (Z.to_nat 3)) 1 Undefined w)
      as (n & Hn & Hrun & Hpre & Hlast); [lia|lia|].
    assert (Hn2 : (n <= 2)%nat) by lia.
    exists n. rewrite <- (schedule_exponential n Hn2). split; [done|].
    split; [exact Hrun|]. split.
    + intros k Hk. rewrite <- schedule_exponential by lia. by apply Hpre.
    + intros Hlt. apply Hlast. lia.
  - unfold indexFile.
    destruct (indexFile_from_spec answer 4 1 Undefined w)
      as (n & Hn & Hrun & Hpre & Hlast); [lia|simpl; lia|].
    assert (Hn2 : (n <= 2)%nat) by lia.
    exists n. rewrite <- (schedule_linear n Hn2). split; [done|].
    split; [exact Hrun|]. split.
    + intros k Hk. rewrite <- schedule_linear by lia. by apply Hpre.
    + intros Hlt. apply Hlast. lia.
Qed.

Lemma three_attempts_one_then_two_seconds_witness :
  withRetry (call third_time_lucky) None None []
  = Some (Ok "done"%string,
          [Attempted; Waited 1000; Attempted; Waited 2000; Attempted]).
Proof.
  destruct (three_attempts_one_then_two_seconds third_time_lucky [])
    as [(n & Hn & Hrun & Hpre & Hlast) _].
  destruct n as [|[|[|n]]]; [| |exact Hrun|lia].
  - destruct Hlast as (a & Ha); [lia|]. discriminate Ha.
  - destruct Hlast as (a & Ha); [lia|]. discriminate Ha.
Defined.

(** X24.  With [maxRetries] below 1 the operation is never called: the loop
    body does not run and [withRetry] throws [undefined], the value of the
    unassigned [lastError]. *)
Theorem no_attempt_without_retries {A} (operation : M A)
    (maxRetries : Z) (baseDelay : option Z) (w : list Event) :
  maxRetries < 1 →
  withRetry operation (Some maxRetries) baseDelay w = Some (Throw Undefined, w).
Proof.
  intros Hmax. unfold withRetry. cbn [default]. cbv zeta. cbn [withRetry_from].
  unfold id. destruct (Z.leb_spec 1 maxRetries); [lia|done].
Qed.

Lemma no_attempt_without_retries_witness :
  withRetry (call third_time_lucky) (Some 0) None [] = Some (Throw Undefined, []).
Proof. apply (no_attempt_without_retries (call third_time_lucky) 0 None []). lia. Defined.

End Retries.

(** ** The language of a file ([getLanguageFromPath] in the
    [background-index] route, and its copy in the [fetch-file] route) *)

Module Languages.

(** [s.split('.')] *)
Fixpoint split (s : string) : list string :=
  match s with
  | EmptyString => [EmptyString]
  | String c s' =>
      if Ascii.eqb c "." then EmptyString :: split s'
      else match split s' with
           | h :: t => String c h :: t
           | [] => [String c EmptyString]
           end
  end.

(** The object literal [languageMap] of the indexing route. *)
Definition languageMap : list (string * string) :=
  [("js", "javascript"); ("jsx", "javascript"); ("ts", "typescript");
   ("tsx", "typescript"); ("py", "python"); ("java", "java"); ("cpp", "cpp");
   ("c", "c"); ("cs", "csharp"); ("php", "php"); ("rb", "ruby"); ("go", "go");
   ("rs", "rust"); ("swift", "swift"); ("kt", "kotlin"); ("scala", "scala");
   ("html", "html"); ("css", "css"); ("scss", "scss"); ("sass", "sass");
   ("json", "json"); ("xml", "xml"); ("yaml", "yaml"); ("yml", "yaml");
   ("md", "markdown"); ("txt", "text")]%string.

(** The object literal [map] of the [fetch-file] route. *)
Definition fetchFileMap : list (string * string) :=
  [("js", "javascript"); ("jsx", "javascript"); ("ts", "typescript");
   ("tsx", "typescript"); ("py", "python"); ("java", "java"); ("go", "go");
   ("rs", "rust"); ("php", "php"); ("rb", "ruby"); ("kt", "kotlin");
   ("swift", "swift"); ("cpp", "cpp"); ("c", "c"); ("cs", "csharp");
   ("md", "markdown"); ("html", "html"); ("css", "css"); ("json", "json");
   ("yml", "yaml"); ("yaml", "yaml")]%string.

(** The value of [map[key]]: a language of the literal, a property the
    object inherits from [Object.prototype], or [undefined]. *)
Inductive Property :=
| Own (language : string)
| Inherited
| Missing.

Fixpoint own (key : string) (map : list (string * string)) : option string :=
  match map with
  | [] => None
  | (k, v) :: rest => if String.eqb k key then Some v else own key rest
  end.

(** The names in lower case that every object inherits. *)
Definition inherited_keys : list string := ["constructor"; "__proto__"]%string.

Definition get (map : list (string * string)) (key : string) : Property :=
  match own key map with
  | Some v => Own v
  | None => if bool_decide (key ∈ inherited_keys) then Inherited else Missing
  end.

(** What the function returns: a language, [null], or the inherited
    object found under the extension. *)
Inductive Language :=
| Name (language : string)
| Null
| NotAString.

(** [map[extension || ''] || null]; the languages of the literals are
    not empty. *)
Definition language_of (map : list (string * string)) (extension : string) : Language :=
  match get map extension with
  | Own v => Name v
  | Inherited => NotAString
  | Missing => Null
  end.

(** [filePath.split('.').pop()?.toLowerCase()] *)
Definition extension_of (filePath : string) : string :=
  Ranker.toLowerCase (default ""%string (last (split filePath))).

Definition getLanguageFromPath (filePath : string) : Language :=
  language_of languageMap (extension_of filePath).

(** The copy of the function in the [fetch-file] route. *)
Definition getLanguageFromPath_fetchFile (p : string) : Language :=
  language_of fetchFileMap (extension_of p).

Fixpoint no_dot (s : string) : bool :=
  match s with
  | EmptyString => true
  | String c s' => negb (Ascii.eqb c ".") && no_dot s'
  end.

(** The extensions only the indexing route knows. *)
Definition indexer_only : list string := ["scala"; "scss"; "sass"; "xml"; "txt"]%string.

(** *** What decides the language *)

Lemma split_dot_not_nil (s : string) : split s ≠ [].
Proof.
  induction s as [|c s IH]; simpl; [done|].
  destruct (Ascii.eqb c "."); [done|]. by destruct (split s).
Qed.

Lemma split_no_dot (s : string) : no_dot s = true → split s = [s].
Proof.
  induction s as [|c s IH]; [done|]. simpl.
  intros [Hc Hs]%andb_true_iff. rewrite (IH Hs).
  by destruct (Ascii.eqb c ".").
Qed.

Lemma split_app_dot (a b : string) :
  split (a +:+ String "." b) = split a ++ split b.
Proof.
  induction a as [|c a IH]; [done|].
  change (String c a +:+ String "." b)%string with (String c (a +:+ String "." b)).
  cbn [split]. rewrite IH.
  destruct (Ascii.eqb c "."); [done|].
  pose proof (split_dot_not_nil a) as Hne.
  by destruct (split a).
Qed.

Lemma own_sub (key v : string) :
  own key fetchFileMap = Some v → own key languageMap = Some v.
Proof.
  unfold fetchFileMap. cbn [own].
  repeat match goal with
         | |- context [String.eqb ?k key] =>
             destruct (String.eqb_spec k key) as [<-|_]; [by intros [= <-]|]
         end.
  done.
Qed.

Lemma own_only (key : string) :
  own key fetchFileMap = None → is_Some (own key languageMap) → key ∈ indexer_only.
Proof.
  unfold fetchFileMap, languageMap, indexer_only. cbn [own].
  repeat match goal with
         | |- context [String.eqb ?k key] =>
             destruct (String.eqb_spec k key) as [<-|_];
             [first [discriminate | intros _ _; apply list_elem_of_In; simpl; tauto]|]
         end.
  intros _ [v Hv]. discriminate.
Qed.

(** X25.  Only what follows the last dot of a path decides its language, and
    upper and lower case are not told apart; a name without a dot is taken
    whole as its extension (a file named [go] is a Go file, [Makefile] has
    no language). *)
Theorem language_is_read_off_the_last_extension (prefix extension : string) :
  no_dot extension = true →
  getLanguageFromPath (prefix +:+ "." +:+ extension)
  = language_of languageMap (Ranker.toLowerCase extension)
  ∧ getLanguageFromPath extension
    = language_of languageMap (Ranker.toLowerCase extension).
Proof.
  intros Hext. unfold getLanguageFromPath, extension_of.
  change (prefix +:+ "." +:+ extension)%string with (prefix +:+ String "." extension)%string.
  rewrite split_app_dot, (split_no_dot extension Hext), last_snoc. done.
Qed.

Lemma language_is_read_off_the_last_extension_witness :
  getLanguageFromPath "src/app.config.TS" = Name "typescript"
  ∧ getLanguageFromPath "go" = Name "go".
Proof.
  split.
  - apply (language_is_read_off_the_last_extension "src/app.config" "TS" eq_refl).
  - apply (language_is_read_off_the_last_extension "" "go" eq_refl).
Defined.

(** X26.  The two copies of the function agree except on five extensions: a
    path gets the same language from both, unless its extension is scala,
    scss, sass, xml or txt, which only the indexing route knows; the
    [fetch-file] route then gives [null]. *)
Theorem fetch_file_knows_fewer_languages (filePath : string) :
  getLanguageFromPath_fetchFile filePath = getLanguageFromPath filePath
  ∨ (extension_of filePath ∈ indexer_only
     ∧ getLanguageFromPath_fetchFile filePath = Null).
Proof.
  unfold getLanguageFromPath_fetchFile, getLanguageFromPath, language_of, get.
  destruct (own (extension_of filePath) fetchFileMap) as [v|] eqn:Hf.
  - left. by rewrite (own_sub _ _ Hf).
  - destruct (own (extension_of filePath) languageMap) as [v|] eqn:Hl; [|by left].
    right. assert (Hin : extension_of filePath ∈ indexer_only).
    { apply own_only; [done|]. by rewrite Hl. }
    split; [done|].
    destruct (bool_decide_reflect (extension_of filePath ∈ inherited_keys)) as [Hk|]; [|done].
    exfalso. revert Hin Hk. generalize (extension_of filePath). intros k Hin Hk.
    unfold indexer_only, inherited_keys in *.
    repeat (apply elem_of_cons in Hin as [->|Hin];
            [apply (bool_decide_pack _) in Hk; vm_compute in Hk; done|]).
    by apply elem_of_nil in Hin.
Qed.

End Languages.

(** ** The tree rebuilt from the indexed files ([buildTree] in the
    [fetch-repo] route) *)

Module Display.

Import FileTree.

(** An element of [flat]: [{ path: file.file_path, type: file.file_type }]. *)
Record Item := mkItem { item_path : string; item_type : string }.

(** [nodes], a [Map] (its keys in the order of their insertion), and
    [root].  There is one object per path: a reference to a node is its
    path. *)
Record Store := mkStore {
  nodes : FileMap;
  inserted : list string;
  root : list string
}.

Definition empty : Store := mkStore ∅ [] [].

(** [ensureNode(fullPath, isFile)] *)
Definition ensureNode (st : Store) (fullPath : string) (isFile : bool) : Store :=
  match nodes st !! fullPath with
  | Some _ => st
  | None =>
      mkStore (<[fullPath := mkEntry (if isFile then FileT else FolderT) []]> (nodes st))
              (inserted st ++ [fullPath])
              (if isRoot fullPath then root st ++ [fullPath] else root st)
  end.

(** The values of [currentPath] for [i >= 1], given its value before. *)
Fixpoint extend (currentPath : string) (parts : list string) : list string :=
  match parts with
  | [] => []
  | part :: rest =>
      let next := (currentPath +:+ "/" +:+ part)%string in
      next :: extend next rest
  end.

(** The values taken by [currentPath] in the inner loop. *)
Definition prefixes (p : string) : list string :=
  match split p with
  | [] => []
  | first :: rest => first :: extend first rest
  end.

(** The inner loop: [isFile = isLast && item.type === 'file']. *)
Fixpoint ensure_all (st : Store) (currentPaths : list string) (isFileItem : bool) : Store :=
  match currentPaths with
  | [] => st
  | [last] => ensureNode st last isFileItem
  | currentPath :: rest => ensure_all (ensureNode st currentPath false) rest isFileItem
  end.

(** [for (const item of paths) { ... }] *)
Definition create (st : Store) (item : Item) : Store :=
  ensure_all st (prefixes (item_path item)) (String.eqb (item_type item) "file").

(** One step of [for (const [fullPath, node] of nodes.entries())]. *)
Definition link (m : FileMap) (fullPath : string) : FileMap :=
  if (1 <? length (split fullPath))%nat then
    match m !! parentPath fullPath with
    | Some parent =>
        match kind parent with
        | FolderT =>
            <[parentPath fullPath := mkEntry FolderT (kids parent ++ [fullPath])]> m
        | FileT => m
        end
    | None => m
    end
  else m.

Section Sorting.

Variable localeCompare : string → string → Z.

(** The comparator of [sortRec]. *)
Definition compare (a b : Node) : Z :=
  if negb (bool_decide (type a = type b))
  then (if bool_decide (type a = FolderT) then -1 else 1)
  else localeCompare (path a) (path b).

Fixpoint insert (x : Node) (l : list Node) : list Node :=
  match l with
  | [] => [x]
  | y :: l' => if compare x y <=? 0 then x :: y :: l' else y :: insert x l'
  end.

(** [items.sort(cmp)], a stable sort. *)
Definition sort (items : list Node) : list Node := foldr insert [] items.

(** [sortRec]: the comparator reads only [type] and [path], so sorting a
    level before or after its sub-levels gives the same tree. *)
Fixpoint sortNode (f : Node) : Node :=
  mkNode (path f) (type f) (sort (map sortNode (children f))).

Definition sortRec (items : list Node) : list Node := sort (map sortNode items).

(** No chain of nodes is longer than the longest path. *)
Definition depth_bound (paths : list Item) : nat :=
  S (foldr Nat.max 0%nat (map (λ i, String.length (item_path i)) paths)).

Definition buildTree (paths : list Item) : list Node :=
  let created := foldl create empty paths in
  let linked := foldl link (nodes created) (inserted created) in
  sortRec (map (reify (depth_bound paths) linked) (root created)).

End Sorting.

(** [l] goes down from [prev], one segment at a time. *)
Fixpoint chain (prev : string) (l : list string) : Prop :=
  match l with
  | [] => True
  | k :: rest => isRoot k = false ∧ parentPath k = prev ∧ chain k rest
  end.


(** What holds of the store while the nodes are created: [nodes] has the
    inserted paths as keys, each once; [root] holds those of one segment;
    the folder of an inserted path is inserted; no node has children
    yet. *)
Record Created (st : Store) : Prop := mkCreated {
  created_nodup : NoDup (inserted st);
  created_dom : ∀ k, is_Some (nodes st !! k) ↔ k ∈ inserted st;
  created_root : root st = filter (λ k, isRoot k = true) (inserted st);
  created_closed :
    ∀ k, k ∈ inserted st → isRoot k = false → parentPath k ∈ inserted st;
  created_leaf : ∀ k e, nodes st !! k = Some e → kids e = []
}.

(** The folder under which the linking loop puts [q]: none when [q] has
    one segment or the node of its parent path is a file. *)
Definition linkedTo (m : FileMap) (q : string) : option string :=
  if (1 <? length (split q))%nat then
    match m !! parentPath q with
    | Some parent =>
        match kind parent with
        | FolderT => Some (parentPath q)
        | FileT => None
        end
    | None => None
    end
  else None.


(** The folders above a path: its prefixes but itself. *)
Definition ancestors (p : string) : list string := removelast (prefixes p).

(** The documents of an index in which files only are kept: every item is
    a file, and no item lies under the path of another. *)
Definition files_only (paths : list Item) : Prop :=
  Forall (λ i, item_type i = "file"%string
               ∧ Forall (λ a, a ∉ map item_path paths) (ancestors (item_path i)))
         paths.

(** Three documents, one of them indexed twice. *)
Definition indexed_twice : list Item :=
  [mkItem "src/utils.ts" "file"; mkItem "README.md" "file";
   mkItem "src/utils.ts" "file"; mkItem "src/lib/a.ts" "file"].


(** *** The values of [currentPath] *)

Lemma split_parts_no_slash (p : string) :
  Forall (λ s, Ranker.no_slash s = true) (split p).
Proof.
  induction p as [|c p IH]; [by repeat constructor|].
  cbn [split]. destruct (Ascii.eqb c "/") eqn:Hc; [by constructor|].
  destruct (split p) as [|h t]; [repeat constructor; simpl; by rewrite Hc|].
  inversion IH as [|? ? Hh Ht]; subst. constructor; [|done].
  simpl. by rewrite Hc, Hh.
Qed.

Lemma split_snoc (c part : string) :
  Ranker.no_slash part = true →
  split (c +:+ "/" +:+ part) = split c ++ [part].
Proof.
  intros Hpart.
  change (c +:+ "/" +:+ part)%string with (c +:+ String "/" part)%string.
  by rewrite RepoFetch.split_app_slash, (Ranker.split_no_slash part Hpart).
Qed.

Lemma removelast_snoc {A} (l : list A) (x : A) : removelast (l ++ [x]) = l.
Proof.
  induction l as [|y l IH]; [done|]. simpl. rewrite IH. by destruct l.
Qed.

Lemma extend_chain (parts : list string) :
  ∀ c, Forall (λ s, Ranker.no_slash s = true) parts → chain c (extend c parts).
Proof.
  induction parts as [|part rest IH]; intros c Hparts; [done|].
  inversion Hparts as [|? ? Hpart Hrest]; subst. cbn [extend chain].
  split; [|split; [|by apply IH]].
  - unfold isRoot. rewrite (split_snoc c part Hpart), length_app. simpl.
    pose proof (split_not_nil c). destruct (split c); [done|]. simpl.
    apply Nat.eqb_neq. lia.
  - unfold parentPath. rewrite (split_snoc c part Hpart), removelast_snoc.
    apply join_split.
Qed.

Lemma extend_last (parts : list string) :
  ∀ c k, Forall (λ s, Ranker.no_slash s = true) parts →
         last (extend c parts) = Some k → split k = split c ++ parts.
Proof.
  induction parts as [|part rest IH]; intros c k Hparts; [done|].
  inversion Hparts as [|? ? Hpart Hrest]; subst. cbn [extend].
  destruct rest as [|part2 rest].
  - simpl. intros [= <-]. by apply split_snoc.
  - change (last ((c +:+ "/" +:+ part)%string
                  :: extend (c +:+ "/" +:+ part) (part2 :: rest)))
      with (last (extend (c +:+ "/" +:+ part) (part2 :: rest))).
    intros Hlast. rewrite (IH _ _ Hrest Hlast), (split_snoc c part Hpart).
    by rewrite <- app_assoc.
Qed.

Lemma prefixes_spec (p : string) :
  ∃ first rest,
    prefixes p = first :: rest ∧ isRoot first = true ∧ chain first rest
    ∧ last (prefixes p) = Some p.
Proof.
  unfold prefixes. pose proof (split_parts_no_slash p) as Hparts.
  pose proof (join_split p) as Hjoin.
  destruct (split p) as [|first parts] eqn:Hsplit; [by apply split_not_nil in Hsplit|].
  apply Forall_cons in Hparts as [Hfirst Hrest].
  exists first, (extend first parts). split; [done|].
  assert (Hroot : split first = [first]) by by apply Ranker.split_no_slash.
  split; [unfold isRoot; by rewrite Hroot|]. split; [by apply extend_chain|].
  destruct parts as [|part parts]; [by rewrite <- Hjoin|].
  destruct (last (extend first (part :: parts))) as [k|] eqn:Hlast.
  - change (last (first :: extend first (part :: parts)))
      with (last (extend first (part :: parts))).
    rewrite Hlast. f_equal.
    rewrite <- (join_split k), (extend_last _ _ _ Hrest Hlast), Hroot. exact Hjoin.
  - apply last_None in Hlast. discriminate Hlast.
Qed.

Lemma chain_parent (l : list string) :
  ∀ prev q, chain prev l → q ∈ l → parentPath q ∈ removelast (prev :: l).
Proof.
  induction l as [|k rest IH]; intros prev q Hchain Hq; [by apply elem_of_nil in Hq|].
  destruct Hchain as (_ & Hpar & Hrest).
  change (removelast (prev :: k :: rest)) with (prev :: removelast (k :: rest)).
  apply elem_of_cons in Hq as [->|Hq]; [rewrite Hpar; left|].
  right. by apply IH.
Qed.

Lemma chain_all_below (l : list string) :
  ∀ prev q, chain prev l → q ∈ l → isRoot q = false.
Proof.
  induction l as [|k rest IH]; intros prev q Hchain Hq; [by apply elem_of_nil in Hq|].
  destruct Hchain as (Hroot & _ & Hrest).
  apply elem_of_cons in Hq as [->|Hq]; [done|]. by eapply IH.
Qed.

Lemma chain_lengths (l : list string) :
  ∀ prev q p, chain prev l → last (prev :: l) = Some p → q ∈ prev :: l →
              (String.length q <= String.length p)%nat.
Proof.
  induction l as [|k rest IH]; intros prev q p Hchain Hlast Hq.
  - simpl in Hlast. injection Hlast as <-.
    apply list_elem_of_singleton in Hq. by subst.
  - destruct Hchain as (Hroot & Hpar & Hrest).
    change (last (prev :: k :: rest)) with (last (k :: rest)) in Hlast.
    assert (Hk : (String.length k <= String.length p)%nat).
    { apply (IH k k p Hrest Hlast). left. }
    apply elem_of_cons in Hq as [->|Hq]; [|by apply (IH k q p)].
    pose proof (parent_shorter k Hroot). rewrite Hpar in *. lia.
Qed.

(** Every folder in which a path lies is one of its ancestors. *)
Lemma parent_of_prefix (p q : string) :
  q ∈ prefixes p → isRoot q = false → parentPath q ∈ ancestors p.
Proof.
  destruct (prefixes_spec p) as (first & rest & Hpre & Hroot & Hchain & _).
  unfold ancestors. rewrite Hpre. intros [->|Hq]%elem_of_cons Hq'; [congruence|].
  by apply chain_parent.
Qed.

Lemma prefix_shorter (p q : string) :
  q ∈ prefixes p → (String.length q <= String.length p)%nat.
Proof.
  destruct (prefixes_spec p) as (first & rest & Hpre & _ & Hchain & Hlast).
  rewrite Hpre in *. intros Hq. by eapply chain_lengths.
Qed.

Lemma self_prefix (p : string) : p ∈ prefixes p.
Proof.
  destruct (prefixes_spec p) as (_ & _ & _ & _ & _ & Hlast).
  rewrite last_lookup in Hlast. by eapply list_elem_of_lookup_2.
Qed.


(** *** Creating the nodes *)

Lemma empty_created : Created empty.
Proof.
  constructor; simpl.
  - constructor.
  - intros k. rewrite lookup_empty. split; [by intros [? ?]|by intros ?%elem_of_nil].
  - done.
  - intros k Hk. by apply elem_of_nil in Hk.
  - intros k e. by rewrite lookup_empty.
Qed.

Lemma ensureNode_created (st : Store) (c : string) (b : bool) :
  Created st → (isRoot c = false → parentPath c ∈ inserted st) →
  Created (ensureNode st c b)
  ∧ ∀ k, k ∈ inserted (ensureNode st c b) ↔ k ∈ inserted st ∨ k = c.
Proof.
  intros [Hnd Hdom Hroot Hclosed Hleaf] Hparent. unfold ensureNode.
  destruct (nodes st !! c) as [e|] eqn:Hc.
  - split; [by constructor|]. intros k. split; [by left|].
    intros [Hk| ->]; [done|]. apply Hdom. by eexists.
  - assert (Hnew : c ∉ inserted st).
    { intros Hin. apply Hdom in Hin as [e He]. congruence. }
    split; [constructor; simpl|].
    + apply NoDup_app. split; [done|]. split; [|apply NoDup_singleton].
      intros k Hk ->%list_elem_of_singleton. done.
    + intros k. rewrite elem_of_app, list_elem_of_singleton.
      destruct (decide (c = k)) as [<-|Hne].
      * rewrite lookup_insert_eq. split; [by right|by eexists].
      * rewrite lookup_insert_ne by done. rewrite Hdom. split; [by left|].
        by intros [?|?].
    + rewrite filter_app, filter_cons, filter_nil, Hroot.
      destruct (isRoot c); [by destruct (decide (true = true))|].
      destruct (decide (false = true)); [done|]. by rewrite app_nil_r.
    + intros k [Hk| ->%list_elem_of_singleton]%elem_of_app Hk';
        apply elem_of_app; left; [by apply Hclosed|by apply Hparent].
    + intros k e. destruct (decide (c = k)) as [<-|Hne].
      * rewrite lookup_insert_eq. by intros [= <-].
      * rewrite lookup_insert_ne by done. apply Hleaf.
    + simpl. intros k. by rewrite elem_of_app, list_elem_of_singleton.
Qed.

Lemma ensure_all_created (l : list string) :
  ∀ (st : Store) (b : bool),
    Created st →
    match l with
    | [] => True
    | first :: rest =>
        (isRoot first = false → parentPath first ∈ inserted st) ∧ chain first rest
    end →
    Created (ensure_all st l b)
    ∧ ∀ k, k ∈ inserted (ensure_all st l b) ↔ k ∈ inserted st ∨ k ∈ l.
Proof.
  induction l as [|c rest IH]; intros st b Hst Hl.
  - split; [done|]. intros k. split; [by left|]. by intros [?|?%elem_of_nil].
  - destruct Hl as [Hparent Hchain].
    destruct (ensureNode_created st c false Hst Hparent) as [Hst1 Hin1].
    destruct rest as [|k rest].
    + cbn [ensure_all]. destruct (ensureNode_created st c b Hst Hparent) as [Hst2 Hin2].
      split; [done|]. intros q. rewrite Hin2, list_elem_of_singleton. done.
    + change (ensure_all st (c :: k :: rest) b)
        with (ensure_all (ensureNode st c false) (k :: rest) b).
      destruct Hchain as (Hroot & Hpar & Hrest).
      destruct (IH (ensureNode st c false) b Hst1) as [Hst2 Hin2].
      { split; [|done]. intros _. rewrite Hpar. apply Hin1. by right. }
      split; [done|]. intros q. rewrite Hin2, Hin1, (elem_of_cons (k :: rest)). tauto.
Qed.

Lemma ensureNode_kind (P : string → NodeType → Prop) (st : Store) (c : string) (b : bool) :
  (∀ k e, nodes st !! k = Some e → P k (kind e)) →
  P c (if b then FileT else FolderT) →
  ∀ k e, nodes (ensureNode st c b) !! k = Some e → P k (kind e).
Proof.
  intros Hst Hc k e. unfold ensureNode.
  destruct (nodes st !! c) as [e0|] eqn:Hlook; [apply Hst|]. simpl.
  destruct (decide (c = k)) as [<-|Hne].
  - rewrite lookup_insert_eq. by intros [= <-].
  - rewrite lookup_insert_ne by done. apply Hst.
Qed.

Lemma ensure_all_kind (P : string → NodeType → Prop) (l : list string) :
  ∀ (st : Store) (b : bool),
    (∀ k e, nodes st !! k = Some e → P k (kind e)) →
    Forall (λ c, P c FolderT) (removelast l) →
    (∀ c, last l = Some c → P c (if b then FileT else FolderT)) →
    ∀ k e, nodes (ensure_all st l b) !! k = Some e → P k (kind e).
Proof.
  induction l as [|c rest IH]; intros st b Hst Hfolders Hlast; [done|].
  destruct rest as [|k rest].
  - cbn [ensure_all]. apply ensureNode_kind; [done|]. by apply Hlast.
  - change (ensure_all st (c :: k :: rest) b)
      with (ensure_all (ensureNode st c false) (k :: rest) b).
    change (removelast (c :: k :: rest)) with (c :: removelast (k :: rest)) in Hfolders.
    apply Forall_cons in Hfolders as [Hc Hfolders].
    apply IH; [|done|done]. by apply ensureNode_kind.
Qed.

Lemma create_fold (all : list Item) (Hfiles : files_only all) (l : list Item) :
  ∀ st : Store,
    Created st →
    (∀ k, k ∈ inserted st → ∃ i, i ∈ all ∧ k ∈ prefixes (item_path i)) →
    (∀ k e, nodes st !! k = Some e →
            kind e = if bool_decide (k ∈ map item_path all) then FileT else FolderT) →
    (∀ i, i ∈ l → i ∈ all) →
    let st' := foldl create st l in
    Created st'
    ∧ (∀ k, k ∈ inserted st' → ∃ i, i ∈ all ∧ k ∈ prefixes (item_path i))
    ∧ (∀ k e, nodes st' !! k = Some e →
              kind e = if bool_decide (k ∈ map item_path all) then FileT else FolderT)
    ∧ (∀ i, i ∈ l → item_path i ∈ inserted st')
    ∧ (∀ k, k ∈ inserted st → k ∈ inserted st').
Proof.
  induction l as [|i l IH]; intros st Hst Hcov Hkind Hall; simpl.
  - split; [done|]. split; [done|]. split; [done|].
    split; [intros i Hi; by apply elem_of_nil in Hi|done].
  - assert (Hi : i ∈ all) by (apply Hall; left).
    unfold files_only in Hfiles. rewrite Forall_forall in Hfiles.
    destruct (Hfiles i Hi) as [Htype Hanc].
    destruct (prefixes_spec (item_path i)) as (first & rest & Hpre & Hroot & Hchain & Hlast).
    destruct (ensure_all_created (prefixes (item_path i)) st
                (String.eqb (item_type i) "file") Hst) as [Hst1 Hin1].
    { rewrite Hpre. split; [|done]. congruence. }
    fold (create st i) in Hst1, Hin1.
    destruct (IH (create st i) Hst1) as (Hc & Hcov' & Hkind' & Hpaths & Hmono).
    + intros k [Hk|Hk]%Hin1; [by apply Hcov|]. by exists i.
    + unfold create.
      apply (ensure_all_kind
               (λ k t, t = if bool_decide (k ∈ map item_path all) then FileT else FolderT)).
      * exact Hkind.
      * fold (ancestors (item_path i)). eapply Forall_impl; [exact Hanc|].
        intros a Ha. simpl. by rewrite bool_decide_false.
      * intros c. rewrite Hlast. intros [= <-]. rewrite Htype. simpl.
        rewrite bool_decide_true; [done|]. apply list_elem_of_fmap. by exists i.
    + intros j Hj. apply Hall. by right.
    + split; [done|]. split; [done|]. split; [done|]. split.
      * intros j [->|Hj]%elem_of_cons; [|by apply Hpaths].
        apply Hmono, Hin1. right. apply self_prefix.
      * intros k Hk. apply Hmono, Hin1. by left.
Qed.


(** *** Linking the nodes *)

Lemma link_step (m : FileMap) (q p : string) :
  link m q !! p
  = (λ e, mkEntry (kind e)
            (kids e ++ if decide (linkedTo m q = Some p) then [q] else [])) <$> m !! p.
Proof.
  assert (Hsame : ∀ m' : FileMap, m' !! p = (λ e, mkEntry (kind e) (kids e ++ [])) <$> m' !! p).
  { intros m'. destruct (m' !! p) as [[k ks]|]; simpl; [|done]. by rewrite app_nil_r. }
  unfold link, linkedTo. destruct (1 <? length (split q))%nat; [|apply Hsame].
  destruct (m !! parentPath q) as [parent|] eqn:Hparent; [|apply Hsame].
  destruct (kind parent) eqn:Hkind; [apply Hsame|].
  destruct (decide (parentPath q = p)) as [<-|Hne].
  - rewrite lookup_insert_eq, Hparent. simpl. rewrite Hkind.
    by destruct (decide (Some (parentPath q) = Some (parentPath q))).
  - rewrite lookup_insert_ne by done.
    destruct (decide (Some (parentPath q) = Some p)) as [[= ?]|_]; [done|apply Hsame].
Qed.

Lemma linkedTo_ext (m m' : FileMap) :
  (∀ p, kind <$> m' !! p = kind <$> m !! p) → ∀ q, linkedTo m' q = linkedTo m q.
Proof.
  intros Hkind q. unfold linkedTo. destruct (1 <? length (split q))%nat; [|done].
  specialize (Hkind (parentPath q)).
  destruct (m' !! parentPath q) as [e'|], (m !! parentPath q) as [e|]; simpl in Hkind;
    try done. injection Hkind as ->. done.
Qed.

Lemma link_fold (l : list string) :
  ∀ (m : FileMap) (p : string),
    foldl link m l !! p
    = (λ e, mkEntry (kind e) (kids e ++ filter (λ q, linkedTo m q = Some p) l)) <$> m !! p.
Proof.
  induction l as [|q l IH]; intros m p.
  - simpl. destruct (m !! p) as [[k ks]|]; simpl; [|done]. by rewrite app_nil_r.
  - cbn [foldl]. rewrite IH, link_step, filter_cons.
    assert (Hext : ∀ x, linkedTo (link m q) x = linkedTo m x).
    { apply linkedTo_ext. intros r. rewrite link_step. by destruct (m !! r). }
    rewrite (list_filter_iff (λ x, linkedTo (link m q) x = Some p)
                             (λ x, linkedTo m x = Some p)) by (intros x; by rewrite Hext).
    destruct (m !! p) as [[k ks]|]; simpl; [|done].
    destruct (decide (linkedTo m q = Some p)); by rewrite <- app_assoc.
Qed.

(** *** The sort of [sortRec] *)

Section SortRec.

Variable localeCompare : string → string → Z.

Lemma compare_compareNodes (a b : Node) :
  compare localeCompare a b = compareNodes localeCompare a b.
Proof. unfold compare, compareNodes. by destruct (type a), (type b). Qed.

Lemma insert_insert_sorted (x : Node) (l : list Node) :
  insert localeCompare x l = insert_sorted localeCompare x l.
Proof.
  induction l as [|y l IH]; [done|]. simpl. by rewrite compare_compareNodes, IH.
Qed.

Lemma sort_sortItems (l : list Node) : sort localeCompare l = sortItems localeCompare l.
Proof.
  unfold sort, sortItems. induction l as [|x l IH]; [done|].
  simpl. by rewrite IH, insert_insert_sorted.
Qed.

Lemma sortNode_sortNode (f : Node) :
  sortNode localeCompare f = FileTree.sortNode localeCompare f.
Proof.
  induction f as [p t ch IH] using Node_forall_ind.
  cbn [sortNode FileTree.sortNode path type children]. f_equal.
  rewrite sort_sortItems. f_equal.
  induction IH as [|c ch Hc _ IHch]; [done|]. simpl. by rewrite Hc, IHch.
Qed.

Lemma sortRec_sortRecursively (l : list Node) :
  sortRec localeCompare l = sortRecursively localeCompare l.
Proof.
  unfold sortRec, sortRecursively. rewrite sort_sortItems. f_equal.
  induction l as [|c l IH]; [done|]. simpl. by rewrite sortNode_sortNode, IH.
Qed.

End SortRec.

(** *** The tree of an index that holds files only *)

Lemma filter_ext_in {A} (P Q : A → Prop) `{∀ x, Decision (P x)} `{∀ x, Decision (Q x)}
    (l : list A) :
  (∀ x, x ∈ l → (P x ↔ Q x)) → filter P l = filter Q l.
Proof.
  induction l as [|x l IH]; intros Hl; [done|].
  rewrite !filter_cons. rewrite IH by (intros y Hy; apply Hl; by right).
  destruct (decide (P x)) as [HP|HP], (decide (Q x)) as [HQ|HQ]; try done.
  - exfalso. apply HQ, Hl; [left|done].
  - exfalso. apply HP, Hl; [left|done].
Qed.

Lemma display_depth_enough (paths : list Item) (i : Item) (q : string) :
  i ∈ paths → q ∈ prefixes (item_path i) → (String.length q <= depth_bound paths)%nat.
Proof.
  intros Hi Hq. apply prefix_shorter in Hq. unfold depth_bound.
  induction paths as [|j paths IH]; [by apply elem_of_nil in Hi|].
  simpl. apply elem_of_cons in Hi as [->|Hi]; [lia|]. specialize (IH Hi). lia.
Qed.

Lemma displayed_nodes (localeCompare : string → string → Z) (paths : list Item) :
  files_only paths →
  ∃ keys,
    NoDup keys
    ∧ (∀ i, i ∈ paths → item_path i ∈ keys)
    ∧ buildTree localeCompare paths ≫= nodes_of
      ≡ₚ (λ q, (q, if bool_decide (q ∈ map item_path paths) then FileT else FolderT))
         <$> keys.
Proof.
  intros Hfiles.
  destruct (create_fold paths Hfiles paths empty empty_created)
    as (Hst & Hcov & Hkind & Hpaths & _).
  { intros k Hk. by apply elem_of_nil in Hk. }
  { intros k e. simpl. by rewrite lookup_empty. }
  { done. }
  unfold buildTree. set (st := foldl create empty paths) in *.
  set (m := foldl link (nodes st) (inserted st)).
  destruct Hst as [Hnd Hdom Hroot Hclosed Hleaf].
  exists (inserted st). split; [exact Hnd|]. split; [exact Hpaths|].
  assert (Hlinked : ∀ q, q ∈ inserted st →
                         linkedTo (nodes st) q = parentOf (listed (inserted st)) q).
  { intros q Hq. unfold linkedTo, parentOf, isRoot.
    pose proof (split_not_nil q) as Hne.
    destruct (Nat.eqb_spec (length (split q)) 1) as [Hone|Hmore].
    - rewrite Hone. done.
    - assert (Hroot' : isRoot q = false) by (unfold isRoot; by apply Nat.eqb_neq).
      destruct (Nat.ltb_spec 1 (length (split q))) as [_|Hle];
        [|destruct (split q); [done|simpl in *; lia]].
      pose proof (Hclosed q Hq Hroot') as Hparent.
      unfold listed. rewrite bool_decide_true by done.
      destruct (proj2 (Hdom (parentPath q)) Hparent) as [e He]. rewrite He.
      rewrite (Hkind _ _ He).
      destruct (Hcov q Hq) as (i & Hi & Hpre).
      unfold files_only in Hfiles. rewrite Forall_forall in Hfiles.
      destruct (Hfiles i Hi) as [_ Hanc]. rewrite Forall_forall in Hanc.
      rewrite bool_decide_false; [done|].
      apply Hanc. by apply parent_of_prefix. }
  assert (Hkids : ∀ p, kids_of m p = kids_in (inserted st) p).
  { intros p. unfold kids_of, m. rewrite link_fold.
    destruct (nodes st !! p) as [e|] eqn:Hp; simpl.
    - rewrite (Hleaf p e Hp). simpl. unfold kids_in. apply filter_ext_in.
      intros q Hq. by rewrite Hlinked.
    - symmetry. unfold kids_in. apply filter_none. intros q _ Hq.
      apply parentOf_listed in Hq. apply Hdom in Hq as [e He]. congruence. }
  assert (Hroots : root st = roots_in (inserted st)).
  { rewrite Hroot. unfold roots_in. apply filter_ext_in. intros q Hq.
    unfold parentOf. destruct (isRoot q) eqn:Hr; [done|].
    unfold listed. rewrite bool_decide_true by by apply Hclosed. done. }
  assert (Hkinds : ∀ q, q ∈ inserted st →
            kind_in m q = if bool_decide (q ∈ map item_path paths) then FileT else FolderT).
  { intros q Hq. unfold kind_in, m. rewrite link_fold.
    destruct (proj2 (Hdom q) Hq) as [e He]. rewrite He. simpl. by apply (Hkind q e). }
  rewrite sortRec_sortRecursively, nodes_of_sortRecursively, Hroots.
  change (map (reify (depth_bound paths) m) (roots_in (inserted st)))
    with (reify (depth_bound paths) m <$> roots_in (inserted st)).
  rewrite list_fmap_bind.
  rewrite (list_bind_ext _ (λ p, (λ q, (q, kind_in m q))
                                   <$> reach (kids_in (inserted st)) (depth_bound paths) p)
             _ (roots_in (inserted st))); [| |done].
  - rewrite <- fmap_bind_comm. rewrite reach_all; [|exact Hnd|].
    + assert (Heq : (λ q, (q, kind_in m q)) <$> inserted st
                    = (λ q, (q, if bool_decide (q ∈ map item_path paths)
                                then FileT else FolderT)) <$> inserted st);
        [|by rewrite Heq].
      apply list_fmap_ext. intros _ q Hq%list_elem_of_lookup_2. by rewrite Hkinds.
    + intros q Hq. destruct (Hcov q Hq) as (i & Hi & Hpre).
      by eapply display_depth_enough.
  - intros p. unfold compose. rewrite nodes_of_reify. f_equal. by apply reach_ext.
Qed.


Lemma file_keys (paths keys : list string) :
  fst <$> filter (λ x : string * NodeType, is_file (snd x))
            ((λ q, (q, if bool_decide (q ∈ paths) then FileT else FolderT)) <$> keys)
  = filter (λ q, q ∈ paths) keys.
Proof.
  induction keys as [|k keys IH]; [done|].
  rewrite fmap_cons, !filter_cons. cbn [snd].
  destruct (decide (k ∈ paths)) as [Hk|Hk].
  - rewrite bool_decide_true by done. cbn [is_file].
    destruct (decide (Is_true true)) as [_|Hf]; [|by destruct Hf].
    rewrite fmap_cons. cbn [fst]. f_equal. exact IH.
  - rewrite bool_decide_false by done. cbn [is_file].
    destruct (decide (Is_true false)) as [Hf|_]; [by destruct Hf|]. exact IH.
Qed.

(** X27.  When the index holds files only (every document has type ["file"],
    and no document lies under the path of another), the tree rebuilt for
    display shows every indexed path as a file, once: flattening it gives
    the paths of the documents without repetition, also when a path was
    indexed several times. *)
Theorem every_indexed_file_is_shown_once
    (localeCompare : string → string → Z) (paths : list Item) :
  files_only paths →
  NoDup (flattenFiles (buildTree localeCompare paths))
  ∧ ∀ p, p ∈ flattenFiles (buildTree localeCompare paths) ↔ p ∈ map item_path paths.
Proof.
  intros Hfiles.
  destruct (displayed_nodes localeCompare paths Hfiles) as (keys & Hnd & Hin & Hnodes).
  assert (Hflat : flattenFiles (buildTree localeCompare paths)
                  ≡ₚ filter (λ q, q ∈ map item_path paths) keys).
  { by rewrite flattenFiles_nodes, Hnodes, file_keys. }
  split.
  - rewrite Hflat. by apply NoDup_filter.
  - intros p. rewrite Hflat, list_elem_of_filter. split; [tauto|].
    intros Hp. split; [done|].
    apply list_elem_of_fmap in Hp as (i & -> & Hi). by apply Hin.
Qed.

Lemma every_indexed_file_is_shown_once_witness :
  flattenFiles (buildTree codeCompare indexed_twice)
  = ["src/lib/a.ts"; "src/utils.ts"; "README.md"]%string
  ∧ NoDup (flattenFiles (buildTree codeCompare indexed_twice)).
Proof.
  split; [by vm_compute|].
  assert (Hfiles : files_only indexed_twice).
  { unfold files_only. apply (bool_decide_unpack _). by vm_compute. }
  destruct (every_indexed_file_is_shown_once codeCompare indexed_twice Hfiles) as [H _].
  exact H.
Defined.

(** X28.  Whatever [localeCompare] answers, in the tree rebuilt for display the
    folders of a level come before its files, at the root and under every
    folder. *)
Theorem displayed_folders_come_first
    (localeCompare : string → string → Z) (paths : list Item) :
  Forall (λ l, folders_first l = true) (levels_of (buildTree localeCompare paths)).
Proof.
  unfold buildTree. rewrite sortRec_sortRecursively.
  apply (levels_sortRecursively localeCompare (λ l, folders_first l = true)).
  apply folders_first_sortItems.
Qed.

End Display.

(** ** The searches run for a question (the [query-ai] route) *)

Module Queries.







Fixpoint drop (n : nat) (s : string) : string :=
  match n, s with
  | O, _ => s
  | S n', String _ s' => drop n' s'
  | S _, EmptyString => EmptyString
  end.












(** *** The searches *)







End Queries.
